(** * Pendulum wave simulator: the oscillator model, its parameter
      derivation, the colour ramp and the frame loop of [main.cpp].

    The program computes with C++ [float].  Its functions are embedded
    once, over an interface [FloatOps] of the operations the source
    applies to floats, and the interface is instantiated twice:

    - [B32]: IEEE 754 binary32 with round-to-nearest-even, executable for
      the operations the standard fixes (literals, conversions, [+], [-],
      [*], [/], comparison, [abs], the cast to [uint8_t]); [std::cos],
      [std::sin] and [std::pow], the interface [MathLib], are left to a
      [Libm] record, because their last bit depends on the C library;
    - [Ideal]: exact real arithmetic, the mathematics the floats
      approximate. *)

From Stdlib Require Import ZArith QArith Qround Qabs Qpower Bool List.
From Stdlib Require Import Lia Psatz Reals Qreals.
Import ListNotations.

Set Implicit Arguments.

(** ** The operations of [float] used by the source *)

Class FloatOps (F : Type) : Type := {
  f_lit : Q -> F;            (* a literal such as [9.81f] *)
  f_pi : F;                  (* [std::numbers::pi_v<float>] *)
  f_of_int : Z -> F;         (* conversion of an integer operand *)
  f_add : F -> F -> F;
  f_sub : F -> F -> F;
  f_mul : F -> F -> F;
  f_div : F -> F -> F;
  f_ltb : F -> F -> bool;    (* [operator<] *)
  f_abs : F -> F;            (* [std::abs] *)
  f_to_u8 : F -> option Z    (* [static_cast<std::uint8_t>]; [None] when
                                the truncated value does not fit, which
                                C++ leaves undefined *)
}.

(** The functions of [<cmath>] the source calls. *)
Class MathLib (F : Type) : Type := {
  f_cos : F -> F;            (* [std::cos] *)
  f_sin : F -> F;            (* [std::sin] *)
  f_pow : F -> F -> F        (* [std::pow] *)
}.

(** [std::max(a, b)] is [(a < b) ? b : a]. *)
Definition f_max {F : Type} {ops : FloatOps F} (a b : F) : F :=
  if f_ltb a b then b else a.

(** ** The SFML values the program stores *)

Module sf.

Record Vector2 (T : Type) : Type := mkVector2 { x : T; y : T }.

Record Color : Type := mkColor { r : Z; g : Z; b : Z; a : Z }.

(** [sf::Color(r, g, b)]: alpha defaults to 255. *)
Definition rgb (r g b : Z) : Color := mkColor r g b 255.

Definition White : Color := rgb 255 255 255.

Record Vertex (T : Type) : Type := mkVertex {
  position : Vector2 T;
  color : Color
}.

Record CircleShape (T : Type) : Type := mkCircleShape {
  radius : T;
  origin : Vector2 T;
  shapePosition : Vector2 T;
  fillColor : Color;
  outlineThickness : T;
  outlineColor : Color
}.

End sf.

Section Program.

Context {F : Type} {ops : FloatOps F} {lib : MathLib F}.

Definition Vector2f : Type := sf.Vector2 F.

(** *** Simulation constants *)

Definition SCREEN_WIDTH : Z := 1800.
Definition SCREEN_HEIGHT : Z := 1000.
Definition NUM_PENDULUMS : Z := 25.
Definition TOTAL_PERIOD_S : F := f_lit 60.
Definition BASE_OSCILLATIONS : Z := 50.
Definition MAX_AMPLITUDE_DEG : F := f_lit 22.
Definition BOB_RADIUS : F := f_lit 12.

Definition BACKGROUND_COLOR : sf.Color := sf.rgb 15 15 30.
Definition PIVOT_COLOR : sf.Color := sf.rgb 200 200 200.
Definition STRING_COLOR : sf.Color := sf.rgb 70 70 90.

(** *** [struct Pendulum] *)

Record Pendulum : Type := mkPendulum {
  m_string0 : sf.Vertex F;        (* [m_string[0]], the pivot end *)
  m_string1 : sf.Vertex F;        (* [m_string[1]], the bob end *)
  m_bob : sf.CircleShape F;
  m_angularFrequency : F;
  m_visualLength : F;
  m_amplitudeRad : F;
  m_pivotPoint : Vector2f
}.

Definition origin2 : Vector2f := sf.mkVector2 (f_lit 0) (f_lit 0).

(** A default-constructed pendulum: two default vertices, a default
    circle, the three floats at [0.0f], a zero pivot. *)
Definition Pendulum_default : Pendulum :=
  mkPendulum
    (sf.mkVertex origin2 sf.White)
    (sf.mkVertex origin2 sf.White)
    (sf.mkCircleShape (f_lit 0) origin2 origin2 sf.White (f_lit 0) sf.White)
    (f_lit 0) (f_lit 0) (f_lit 0) origin2.

Definition setup (freq length amplitude : F) (pivot : Vector2f)
    (bobColor : sf.Color) (p : Pendulum) : Pendulum :=
  let bob := m_bob p in
  mkPendulum
    (sf.mkVertex pivot STRING_COLOR)
    (sf.mkVertex (sf.position (m_string1 p)) STRING_COLOR)
    (sf.mkCircleShape
       BOB_RADIUS
       (sf.mkVector2 BOB_RADIUS BOB_RADIUS)
       (sf.shapePosition bob)
       bobColor
       (f_of_int 2)
       (sf.rgb (Z.quot (sf.r bobColor) 2) (Z.quot (sf.g bobColor) 2)
               (Z.quot (sf.b bobColor) 2)))
    freq length amplitude pivot.

Definition currentAngle (p : Pendulum) (totalSimTime : F) : F :=
  f_mul (m_amplitudeRad p) (f_cos (f_mul (m_angularFrequency p) totalSimTime)).

Definition update (totalSimTime : F) (p : Pendulum) : Pendulum :=
  let currentAngle := currentAngle p totalSimTime in
  let x := f_add (sf.x (m_pivotPoint p))
                 (f_mul (m_visualLength p) (f_sin currentAngle)) in
  let y := f_add (sf.y (m_pivotPoint p))
                 (f_mul (m_visualLength p) (f_cos currentAngle)) in
  let pos := sf.mkVector2 x y in
  let bob := m_bob p in
  mkPendulum
    (m_string0 p)
    (sf.mkVertex pos (sf.color (m_string1 p)))
    (sf.mkCircleShape (sf.radius bob) (sf.origin bob) pos (sf.fillColor bob)
       (sf.outlineThickness bob) (sf.outlineColor bob))
    (m_angularFrequency p) (m_visualLength p) (m_amplitudeRad p)
    (m_pivotPoint p).

(** *** [getColorFromRatio] *)

(** The three float channels before scaling. *)
Definition channel_r (ratio : F) : F :=
  f_max (f_lit 0) (f_sub (f_lit 1) (f_mul ratio (f_lit 2))).
Definition channel_g (ratio : F) : F :=
  f_sub (f_lit 1) (f_mul (f_abs (f_sub ratio (f_lit (1 # 2)))) (f_lit 2)).
Definition channel_b (ratio : F) : F :=
  f_max (f_lit 0) (f_mul (f_sub ratio (f_lit (1 # 2))) (f_lit 2)).

(** [static_cast<std::uint8_t>(c * 255)] *)
Definition scale_u8 (c : F) : option Z := f_to_u8 (f_mul c (f_of_int 255)).

Definition getColorFromRatio (ratio : F) : option sf.Color :=
  match scale_u8 (channel_r ratio),
        scale_u8 (channel_g ratio),
        scale_u8 (channel_b ratio) with
  | Some r, Some g, Some b => Some (sf.rgb r g b)
  | _, _, _ => None
  end.

(** *** Physics setup in [main] *)

Definition g : F := f_lit (981 # 100).
Definition pi : F := f_pi.
Definition maxAmplitudeRad : F :=
  f_mul MAX_AMPLITUDE_DEG (f_div pi (f_lit 180)).

Definition longestPeriod : F :=
  f_div TOTAL_PERIOD_S (f_of_int BASE_OSCILLATIONS).
Definition longestPhysicsL : F :=
  f_mul g (f_pow (f_div longestPeriod (f_mul (f_lit 2) pi)) (f_lit 2)).
Definition maxVisualLength : F :=
  f_mul (f_of_int SCREEN_HEIGHT) (f_lit (8 # 10)).
Definition pixelsPerMeter : F := f_div maxVisualLength longestPhysicsL.

Definition pivotPoint : Vector2f :=
  sf.mkVector2 (f_div (f_of_int SCREEN_WIDTH) (f_lit 2)) (f_lit 50).

(** The body of the initialisation loop, for loop index [i]. *)
Definition period (i : Z) : F :=
  f_div TOTAL_PERIOD_S (f_of_int (BASE_OSCILLATIONS + i)).
Definition angularFreq (i : Z) : F :=
  f_div (f_mul (f_lit 2) pi) (period i).
Definition physicsLength (i : Z) : F :=
  f_mul g (f_pow (f_div (period i) (f_mul (f_lit 2) pi)) (f_lit 2)).
Definition visualLength (i : Z) : F :=
  f_mul (physicsLength i) pixelsPerMeter.
Definition colorRatio (i : Z) : F :=
  f_div (f_of_int i) (f_of_int (NUM_PENDULUMS - 1)).

(** The pendulum the loop leaves at index [i], once its colour is
    known. *)
Definition pendulum_at (i : Z) (c : sf.Color) : Pendulum :=
  setup (angularFreq i) (visualLength i) maxAmplitudeRad pivotPoint c
        Pendulum_default.

Definition setup_at (i : Z) (p : Pendulum) : option Pendulum :=
  match getColorFromRatio (colorRatio i) with
  | Some c =>
      Some (setup (angularFreq i) (visualLength i) maxAmplitudeRad
                  pivotPoint c p)
  | None => None
  end.

(** [for (int i = 0; i < NUM_PENDULUMS; ++i) pendulums[i].setup(...)],
    walking the vector from index [i]. *)
Fixpoint setup_from (i : Z) (ps : list Pendulum) : option (list Pendulum) :=
  match ps with
  | [] => Some []
  | p :: rest =>
      match setup_at i p with
      | Some p' =>
          match setup_from (i + 1) rest with
          | Some rest' => Some (p' :: rest')
          | None => None
          end
      | None => None
      end
  end.

Definition initial_pendulums : option (list Pendulum) :=
  setup_from 0 (repeat Pendulum_default (Z.to_nat NUM_PENDULUMS)).

(** *** The frame loop *)

Inductive Key : Type :=
| Space | KeyR | Up | Right | Down | Left | Escape | OtherKey.

Inductive Event : Type :=
| Closed
| KeyPressed (code : Key)
| Resized (width height : Z)
| OtherEvent.

Record Sim : Type := mkSim {
  pendulums : list Pendulum;
  totalSimTime : F;
  timeScale : F;
  isPaused : bool;
  windowOpen : bool
}.

Definition startup (ps : list Pendulum) : Sim :=
  mkSim ps (f_lit 0) (f_lit 1) false true.

Definition handle_event (ev : Event) (s : Sim) : Sim :=
  match ev with
  | Closed =>
      mkSim (pendulums s) (totalSimTime s) (timeScale s) (isPaused s) false
  | KeyPressed Space =>
      mkSim (pendulums s) (totalSimTime s) (timeScale s)
            (negb (isPaused s)) (windowOpen s)
  | KeyPressed KeyR =>
      mkSim (pendulums s) (f_lit 0) (timeScale s) (isPaused s) (windowOpen s)
  | KeyPressed Up | KeyPressed Right =>
      mkSim (pendulums s) (totalSimTime s)
            (f_mul (timeScale s) (f_lit (12 # 10)))
            (isPaused s) (windowOpen s)
  | KeyPressed Down | KeyPressed Left =>
      mkSim (pendulums s) (totalSimTime s)
            (f_div (timeScale s) (f_lit (12 # 10)))
            (isPaused s) (windowOpen s)
  | KeyPressed Escape =>
      mkSim (pendulums s) (totalSimTime s) (timeScale s) (isPaused s) false
  | KeyPressed OtherKey => s
  | Resized _ _ => s            (* only the view of the window changes *)
  | OtherEvent => s
  end.

(** [while (const std::optional event = window.pollEvent()) ...] *)
Definition poll_events (evs : list Event) (s : Sim) : Sim :=
  fold_left (fun st ev => handle_event ev st) evs s.

(** The clock step of a frame:
    [if (!isPaused) totalSimTime += dt * timeScale;] *)
Definition advance (dt timeScale : F) (isPaused : bool) (totalSimTime : F)
    : F :=
  if isPaused then totalSimTime
  else f_add totalSimTime (f_mul dt timeScale).

(** The [R] key: [totalSimTime = 0.0f]. *)
Definition reset (s : Sim) : Sim := handle_event (KeyPressed KeyR) s.

(** One pass through the body of [while (window.isOpen())]: the events
    pending at the start of the frame, then the clock, then every
    pendulum. *)
Definition frame (evs : list Event) (dt : F) (s : Sim) : Sim :=
  let s1 := poll_events evs s in
  let t := advance dt (timeScale s1) (isPaused s1) (totalSimTime s1) in
  mkSim (map (update t) (pendulums s1)) t (timeScale s1) (isPaused s1)
        (windowOpen s1).

Fixpoint run (frames : list (list Event * F)) (s : Sim) : Sim :=
  match frames with
  | [] => s
  | (evs, dt) :: rest =>
      if windowOpen s then run rest (frame evs dt s) else s
  end.

(** The events that close the window. *)
Definition closes (ev : Event) : bool :=
  match ev with
  | Closed | KeyPressed Escape => true
  | _ => false
  end.

(** *** Drawing *)

(** What a frame hands to the window, in the order of the calls. *)
Inductive Drawable : Type :=
| Clear (c : sf.Color)                  (* [window.clear] *)
| DrawLines (v0 v1 : sf.Vertex F)       (* a [Lines] array of two vertices *)
| DrawCircle (c : sf.CircleShape F)
| Display.                              (* [window.display] *)

(** [sf::CircleShape pivotVisual{ 10.f }] with its origin, position and
    fill colour set. *)
Definition pivotVisual : sf.CircleShape F :=
  sf.mkCircleShape (f_lit 10) (sf.mkVector2 (f_lit 10) (f_lit 10))
                   pivotPoint PIVOT_COLOR (f_lit 0) sf.White.

(** [Pendulum::draw] *)
Definition draw (p : Pendulum) : list Drawable :=
  [DrawLines (m_string0 p) (m_string1 p); DrawCircle (m_bob p)].

(** The draw section of the loop body, on the state the frame leaves. *)
Definition render (s : Sim) : list Drawable :=
  Clear BACKGROUND_COLOR :: DrawCircle pivotVisual ::
  flat_map draw (pendulums s) ++ [Display].

(** A run of strings each followed by its bob: every string starts at
    [pivot] and ends where the circle drawn next is positioned. *)
Inductive strung (pivot : Vector2f) : list Drawable -> Prop :=
| strung_nil : strung pivot []
| strung_cons (v0 v1 : sf.Vertex F) (c : sf.CircleShape F)
    (rest : list Drawable) :
    sf.position v0 = pivot ->
    sf.position v1 = sf.shapePosition c ->
    strung pivot rest ->
    strung pivot (DrawLines v0 v1 :: DrawCircle c :: rest).

End Program.

(** ** IEEE 754 binary32, round to nearest, ties to even *)

Module B32.

Local Open Scope Z_scope.

(** A float is a signed zero, a signed infinity, a NaN, or a finite
    non-zero number [(-1)^s * m * 2^e]; [s = true] is the negative
    sign. *)
Inductive f32 : Type :=
| Zero (s : bool)
| Inf (s : bool)
| NaN
| Fin (s : bool) (m : positive) (e : Z).

Definition prec : Z := 24.
Definition emin : Z := -149.
Definition emax : Z := 104.

(** A finite float is representable when its significand has at most
    [prec] bits and its exponent lies in range. *)
Definition valid (x : f32) : bool :=
  match x with
  | Fin _ m e => (Zpos m <? 2 ^ prec) && (emin <=? e) && (e <=? emax)
  | _ => true
  end.

Definition two_p (e : Z) : Q := Qpower 2 e.

Definition mag (m : positive) (e : Z) : Q := (inject_Z (Zpos m) * two_p e)%Q.

(** The rational value of a finite float (0 for the others). *)
Definition val (x : f32) : Q :=
  match x with
  | Fin false m e => mag m e
  | Fin true m e => (- mag m e)%Q
  | _ => 0%Q
  end.

(** [ilog2 a], for [0 < a], is the [l] with [2^l <= a < 2^(l+1)]. *)
Definition ilog2 (a : Q) : Z :=
  let l := Z.log2 (Qnum a) - Z.log2 (Zpos (Qden a)) in
  if Qle_bool (two_p l) a then l else l - 1.

(** Exponent of the last place of the float that [a] rounds to. *)
Definition fexp (a : Q) : Z := Z.max emin (ilog2 a - (prec - 1)).

(** Nearest integer, ties to even. *)
Definition rne (y : Q) : Z :=
  let f := Qfloor y in
  match Qcompare (y - inject_Z f) (1 # 2) with
  | Lt => f
  | Gt => f + 1
  | Eq => if Z.even f then f else f + 1
  end.

(** Build the float of sign [s] and magnitude [m * 2^e], with [0 <= m <=
    2^prec]: zero keeps the sign, a significand that rounded up to
    [2^prec] is renormalised, and a number beyond the largest finite float
    overflows to infinity. *)
Definition pack (s : bool) (m e : Z) : f32 :=
  if m <=? 0 then Zero s
  else
    let m' := if m =? 2 ^ prec then 2 ^ (prec - 1) else m in
    let e' := if m =? 2 ^ prec then e + 1 else e in
    if emax <? e' then Inf s else Fin s (Z.to_pos m') e'.

(** Round the magnitude [a > 0] and attach the sign [s]. *)
Definition round_mag (s : bool) (a : Q) : f32 :=
  let e := fexp a in
  pack s (rne (a / two_p e)) e.

(** Round a rational; an exact zero is [+0]. *)
Definition round (q : Q) : f32 :=
  match Qcompare q 0 with
  | Eq => Zero false
  | Gt => round_mag false q
  | Lt => round_mag true (- q)
  end.

Definition sign (x : f32) : bool :=
  match x with
  | Zero s | Inf s | Fin s _ _ => s
  | NaN => false
  end.

Definition neg (x : f32) : f32 :=
  match x with
  | Zero s => Zero (negb s)
  | Inf s => Inf (negb s)
  | NaN => NaN
  | Fin s m e => Fin (negb s) m e
  end.

Definition abs (x : f32) : f32 :=
  match x with
  | Zero _ => Zero false
  | Inf _ => Inf false
  | NaN => NaN
  | Fin _ m e => Fin false m e
  end.

Definition mul (x y : f32) : f32 :=
  match x, y with
  | NaN, _ | _, NaN => NaN
  | Inf _, Zero _ | Zero _, Inf _ => NaN
  | Inf s1, (Inf s2 | Fin s2 _ _) => Inf (xorb s1 s2)
  | Fin s1 _ _, Inf s2 => Inf (xorb s1 s2)
  | Zero s1, (Zero s2 | Fin s2 _ _) => Zero (xorb s1 s2)
  | Fin s1 _ _, Zero s2 => Zero (xorb s1 s2)
  | Fin s1 m1 e1, Fin s2 m2 e2 =>
      round_mag (xorb s1 s2) (mag m1 e1 * mag m2 e2)
  end.

Definition div (x y : f32) : f32 :=
  match x, y with
  | NaN, _ | _, NaN => NaN
  | Inf _, Inf _ | Zero _, Zero _ => NaN
  | Inf s1, (Zero s2 | Fin s2 _ _) => Inf (xorb s1 s2)
  | (Zero s1 | Fin s1 _ _), Inf s2 => Zero (xorb s1 s2)
  | Zero s1, Fin s2 _ _ => Zero (xorb s1 s2)
  | Fin s1 _ _, Zero s2 => Inf (xorb s1 s2)
  | Fin s1 m1 e1, Fin s2 m2 e2 =>
      round_mag (xorb s1 s2) (mag m1 e1 / mag m2 e2)
  end.

Definition add (x y : f32) : f32 :=
  match x, y with
  | NaN, _ | _, NaN => NaN
  | Inf s1, Inf s2 => if Bool.eqb s1 s2 then x else NaN
  | Inf _, _ => x
  | _, Inf _ => y
  | Zero s1, Zero s2 => Zero (s1 && s2)
  | Zero _, Fin _ _ _ => y
  | Fin _ _ _, Zero _ => x
  | Fin _ _ _, Fin _ _ _ => round (val x + val y)
  end.

Definition sub (x y : f32) : f32 := add x (neg y).

(** [operator<]: false as soon as an operand is a NaN. *)
Definition ltb (x y : f32) : bool :=
  match x, y with
  | NaN, _ | _, NaN => false
  | Inf s1, Inf s2 => s1 && negb s2
  | Inf s1, _ => s1
  | _, Inf s2 => negb s2
  | _, _ => negb (Qle_bool (val y) (val x))
  end.

(** [operator==] *)
Definition eqb (x y : f32) : bool :=
  match x, y with
  | NaN, _ | _, NaN => false
  | Inf s1, Inf s2 => Bool.eqb s1 s2
  | Inf _, _ | _, Inf _ => false
  | _, _ => Qeq_bool (val x) (val y)
  end.

(** [operator<=] *)
Definition leb (x y : f32) : bool :=
  match x, y with
  | NaN, _ | _, NaN => false
  | Inf s1, Inf s2 => s1 || negb s2
  | Inf s1, _ => s1
  | _, Inf s2 => negb s2
  | _, _ => Qle_bool (val x) (val y)
  end.

Definition finite (x : f32) : bool :=
  match x with
  | Zero _ | Fin _ _ _ => true
  | Inf _ | NaN => false
  end.

Definition is_nan (x : f32) : bool :=
  match x with
  | NaN => true
  | _ => false
  end.

(** The integer obtained by discarding the fractional part. *)
Definition trunc (x : f32) : Z :=
  match x with
  | Fin false m e => Qfloor (mag m e)
  | Fin true m e => - Qfloor (mag m e)
  | _ => 0
  end.

(** Conversion to [uint8_t]: the fractional part is discarded; the result
    is defined only when the truncated value fits. *)
Definition to_u8 (x : f32) : option Z :=
  if finite x && (0 <=? trunc x) && (trunc x <=? 255)
  then Some (trunc x) else None.

(** The functions of the C library, whose results the standard does not
    fix to the bit. *)
Record Libm : Type := mkLibm {
  cosf : f32 -> f32;
  sinf : f32 -> f32;
  powf : f32 -> f32 -> f32
}.

(** [std::numbers::pi_v<float>] is the float nearest to pi, 0x40490FDB. *)
Definition pi_f : f32 := Fin false 13176795 (-22).

(** *** Vocabulary for stating properties of floats *)

(** [x] is a representable finite float whose value lies in [[lo, hi]]. *)
Definition in_range (lo hi : Q) (x : f32) : Prop :=
  finite x = true /\ valid x = true /\ (lo <= val x /\ val x <= hi)%Q.

(** The rational [q] is the value of some float. *)
Definition representable (q : Q) : Prop :=
  exists x, finite x = true /\ valid x = true /\ (val x == q)%Q.

(** A strictly positive float: a positive finite number or [+inf]. *)
Definition positive_float (x : f32) : Prop :=
  match x with
  | Inf false => True
  | Fin false m e => valid x = true
  | _ => False
  end.

(** The integer nearest to [x], halves away from zero ([std::round]). *)
Definition nearest (x : f32) : Z :=
  match x with
  | Fin false m e => Qfloor (mag m e + (1 # 2))
  | Fin true m e => - Qfloor (mag m e + (1 # 2))
  | _ => 0
  end.

(** The IEEE encoding of a float, for comparing against known bit
    patterns (NaN as the default quiet NaN). *)
Definition bits (x : f32) : Z :=
  let sbit (s : bool) := if s then 2 ^ 31 else 0 in
  match x with
  | Zero s => sbit s
  | Inf s => sbit s + 255 * 2 ^ 23
  | NaN => 255 * 2 ^ 23 + 2 ^ 22
  | Fin s m e =>
      if Zpos m <? 2 ^ 23 then sbit s + Zpos m
      else sbit s + (e + 150) * 2 ^ 23 + (Zpos m - 2 ^ 23)
  end.

End B32.

#[export] Instance b32_ops : FloatOps B32.f32 := {
  f_lit := B32.round;
  f_pi := B32.pi_f;
  f_of_int := fun z => B32.round (inject_Z z);
  f_add := B32.add;
  f_sub := B32.sub;
  f_mul := B32.mul;
  f_div := B32.div;
  f_ltb := B32.ltb;
  f_abs := B32.abs;
  f_to_u8 := B32.to_u8
}.

(** Each C library gives an instance of [MathLib]; it is never chosen
    implicitly. *)
Definition b32_lib (lm : B32.Libm) : MathLib B32.f32 := {|
  f_cos := B32.cosf lm;
  f_sin := B32.sinf lm;
  f_pow := B32.powf lm
|}.

(** *** Vocabulary for the claims about the binary32 program *)

(** The clock part of a simulation state is sound: the time scale is a
    strictly positive float and the simulated time a representable one. *)
Definition clock_ok (s : Sim (F := B32.f32)) : Prop :=
  B32.positive_float (timeScale s) /\ B32.valid (totalSimTime s) = true.

(** The nearest point of [[0, 1]] to a ratio. *)
Definition clamp_unit (ratio : B32.f32) : B32.f32 :=
  if B32.ltb ratio (B32.round 0) then B32.round 0
  else if B32.ltb (B32.round 1) ratio then B32.round 1
  else ratio.

(** The colour ramp as the specification words it: each float channel is
    scaled by 255, rounded to the nearest integer and clamped to
    [[0, 255]]. *)
Definition colorFromRatio_rounded (ratio : B32.f32) : sf.Color :=
  let byte (c : B32.f32) : Z :=
    Z.max 0 (Z.min 255 (B32.nearest (B32.mul c (B32.round (inject_Z 255)))))
  in
  sf.rgb (byte (channel_r ratio)) (byte (channel_g ratio))
         (byte (channel_b ratio)).

(** The C library's cosine is accurate at [x]: its result is a finite
    float within [eps] of the cosine of the value of [x]. *)
Definition cos_accurate (lm : B32.Libm) (eps : Q) (x : B32.f32) : Prop :=
  B32.finite (B32.cosf lm x) = true /\
  (Rabs (Q2R (B32.val (B32.cosf lm x)) - cos (Q2R (B32.val x)))
   <= Q2R eps)%R.

(** ** Exact real arithmetic *)

Module Ideal.

Local Open Scope R_scope.

Definition lit (q : Q) : R := IZR (Qnum q) / IZR (Zpos (Qden q)).

Definition ltb (x y : R) : bool := if Rlt_dec x y then true else false.

(** Truncation toward zero. *)
Definition trunc (x : R) : Z :=
  if Rle_dec 0 x then Int_part x else (- Int_part (- x))%Z.

Definition to_u8 (x : R) : option Z :=
  let t := trunc x in
  if ((0 <=? t) && (t <=? 255))%Z then Some t else None.

End Ideal.

#[export] Instance ideal_ops : FloatOps R := {
  f_lit := Ideal.lit;
  f_pi := PI;
  f_of_int := IZR;
  f_add := Rplus;
  f_sub := Rminus;
  f_mul := Rmult;
  f_div := Rdiv;
  f_ltb := Ideal.ltb;
  f_abs := Rabs;
  f_to_u8 := Ideal.to_u8
}.

#[export] Instance ideal_lib : MathLib R := {
  f_cos := cos;
  f_sin := sin;
  f_pow := Rpower
}.

(** ** The binary32 model against known bit patterns *)

Example bits_literals :
  B32.bits (B32.round (12 # 10)) = 0x3f99999a%Z /\
  B32.bits (B32.round (981 # 100)) = 0x411cf5c3%Z /\
  B32.bits (B32.round (8 # 10)) = 0x3f4ccccd%Z /\
  B32.bits B32.pi_f = 0x40490fdb%Z /\
  B32.bits (B32.round 1) = 0x3f800000%Z.
Proof. vm_compute. repeat split. Qed.

Example bits_rounding :
  B32.bits (B32.div (B32.round 60) (B32.round 51)) = 0x3f969697%Z /\
  B32.bits (B32.round (inject_Z 16777217)) = 0x4b800000%Z /\
  B32.bits (B32.round (inject_Z 16777219)) = 0x4b800002%Z /\
  B32.bits (B32.round (B32.two_p (-150))) = 0%Z /\
  B32.bits (B32.round (3 * B32.two_p (-150))) = 2%Z /\
  B32.bits (B32.round (B32.two_p 128)) = 0x7f800000%Z /\
  B32.bits (B32.sub (B32.round (1 # 10)) (B32.round (1 # 10))) = 0%Z.
Proof. vm_compute. repeat split. Qed.

Example bits_program :
  B32.bits (angularFreq 0) = 0x40a78d36%Z /\
  B32.bits (angularFreq 24) = 0x40f7f9f5%Z /\
  B32.bits maxVisualLength = 0x44480000%Z /\
  getColorFromRatio (ops := b32_ops) (colorRatio 0) = Some (sf.rgb 255 0 0) /\
  getColorFromRatio (ops := b32_ops) (colorRatio 12) = Some (sf.rgb 0 255 0) /\
  getColorFromRatio (ops := b32_ops) (colorRatio 24) = Some (sf.rgb 0 0 255).
Proof. vm_compute. repeat split. Qed.

(** ** Facts about binary32 rounding *)

Module B32Facts.
Import B32.
Local Open Scope Q_scope.

Lemma two_p_pos (e : Z) : 0 < two_p e.
Proof. apply Qpower_0_lt. reflexivity. Qed.

Lemma two_p_plus (a b : Z) : two_p (a + b) == two_p a * two_p b.
Proof. apply Qpower_plus. discriminate. Qed.

Lemma two_p_succ (e : Z) : two_p (e + 1) == 2 * two_p e.
Proof. rewrite two_p_plus. unfold two_p at 2. simpl. ring. Qed.

Lemma two_p_le (a b : Z) : (a <= b)%Z -> two_p a <= two_p b.
Proof. intro. apply Qpower_le_compat_l; [assumption | discriminate]. Qed.

Lemma two_p_lt (a b : Z) : (a < b)%Z -> two_p a < two_p b.
Proof. intro. apply Qpower_lt_compat_l; [assumption | reflexivity]. Qed.

Lemma two_p_le_inv (a b : Z) : two_p a <= two_p b -> (a <= b)%Z.
Proof. intro. apply Qpower_le_compat_l_inv with (q := 2); [assumption | reflexivity]. Qed.

Lemma two_p_lt_inv (a b : Z) : two_p a < two_p b -> (a < b)%Z.
Proof. intro. apply Qpower_lt_compat_l_inv with (q := 2); [assumption | reflexivity]. Qed.

Lemma two_p_inject (n : Z) : (0 <= n)%Z -> inject_Z (2 ^ n) == two_p n.
Proof. intro. unfold two_p. now rewrite Zpower_Qpower. Qed.

Lemma two_p_minus (a b : Z) : two_p (a - b) == two_p a / two_p b.
Proof.
  unfold Z.sub. rewrite two_p_plus. unfold two_p. rewrite Qpower_opp. reflexivity.
Qed.

(** [ilog2] brackets its argument between consecutive powers of two. *)
Lemma ilog2_spec (a : Q) :
  0 < a -> two_p (ilog2 a) <= a /\ a < two_p (ilog2 a + 1).
Proof.
  intros Ha. destruct a as [n d].
  assert (Hn : (0 < n)%Z).
  { unfold Qlt in Ha. simpl in Ha. lia. }
  unfold ilog2. cbn [Qnum Qden].
  set (ln := Z.log2 n). set (ld := Z.log2 (Zpos d)).
  assert (Hln : (0 <= ln)%Z) by apply Z.log2_nonneg.
  assert (Hld : (0 <= ld)%Z) by apply Z.log2_nonneg.
  destruct (Z.log2_spec n Hn) as [Hn1 Hn2]. fold ln in Hn1, Hn2.
  destruct (Z.log2_spec (Zpos d) eq_refl) as [Hd1 Hd2]. fold ld in Hd1, Hd2.
  assert (Ea : n # d == inject_Z n / inject_Z (Zpos d)) by apply Qmake_Qdiv.
  assert (Hdpos : 0 < inject_Z (Zpos d)) by reflexivity.
  assert (Qn1 : two_p ln <= inject_Z n).
  { rewrite <- two_p_inject by assumption. now rewrite <- Zle_Qle. }
  assert (Qn2 : inject_Z n < two_p (ln + 1)).
  { rewrite <- two_p_inject by lia. rewrite <- Zlt_Qlt. unfold Z.succ in Hn2. assumption. }
  assert (Qd1 : two_p ld <= inject_Z (Zpos d)).
  { rewrite <- two_p_inject by assumption. now rewrite <- Zle_Qle. }
  assert (Qd2 : inject_Z (Zpos d) < two_p (ld + 1)).
  { rewrite <- two_p_inject by lia. rewrite <- Zlt_Qlt. unfold Z.succ in Hd2. assumption. }
  assert (Hup : n # d < two_p (ln - ld + 1)).
  { rewrite Ea. apply Qlt_shift_div_r; [assumption|].
    replace (ln - ld + 1)%Z with ((ln + 1) + - ld)%Z by ring.
    rewrite two_p_plus.
    pose proof (two_p_plus (- ld) ld) as E.
    replace (- ld + ld)%Z with 0%Z in E by ring. change (two_p 0) with 1 in E.
    pose proof (two_p_pos (- ld)). pose proof (two_p_pos (ln + 1)).
    pose proof (two_p_pos ld).
    assert (1 <= two_p (- ld) * inject_Z (Zpos d)) by (rewrite E; nra).
    clear - H2 Qn2 H0. nra. }
  assert (Hlo : two_p (ln - ld - 1) < n # d).
  { rewrite Ea. apply Qlt_shift_div_l; [assumption|].
    replace (ln - ld - 1)%Z with (ln + - (ld + 1))%Z by ring.
    rewrite two_p_plus.
    pose proof (two_p_plus (- (ld + 1)) (ld + 1)) as E.
    replace (- (ld + 1) + (ld + 1))%Z with 0%Z in E by ring. change (two_p 0) with 1 in E.
    pose proof (two_p_pos (- (ld + 1))). pose proof (two_p_pos ln).
    pose proof (two_p_pos (ld + 1)).
    assert (two_p (- (ld + 1)) * inject_Z (Zpos d) < 1) by (rewrite E; nra).
    clear - H2 Qn1 H0. nra. }
  destruct (Qle_bool (two_p (ln - ld)) (n # d)) eqn:Hb.
  - apply Qle_bool_iff in Hb. split; assumption.
  - split.
    + apply Qlt_le_weak. assumption.
    + replace (ln - ld - 1 + 1)%Z with (ln - ld)%Z by ring.
      apply Qnot_le_lt. intro Hc. apply Qle_bool_iff in Hc. congruence.
Qed.

Lemma ilog2_unique (a : Q) (l : Z) :
  two_p l <= a -> a < two_p (l + 1) -> ilog2 a = l.
Proof.
  intros H1 H2.
  assert (Ha : 0 < a) by (pose proof (two_p_pos l); lra).
  destruct (ilog2_spec Ha) as [H3 H4].
  assert (ilog2 a < l + 1)%Z.
  { apply two_p_lt_inv. lra. }
  assert (l < ilog2 a + 1)%Z.
  { apply two_p_lt_inv. lra. }
  lia.
Qed.

Lemma ilog2_mono (a b : Q) : 0 < a -> a <= b -> (ilog2 a <= ilog2 b)%Z.
Proof.
  intros Ha Hab.
  destruct (ilog2_spec Ha) as [H1 _].
  assert (Hb : 0 < b) by lra.
  destruct (ilog2_spec Hb) as [_ H2].
  assert (ilog2 a < ilog2 b + 1)%Z by (apply two_p_lt_inv; lra).
  lia.
Qed.

Lemma fexp_ge_emin (a : Q) : (emin <= fexp a)%Z.
Proof. unfold fexp. lia. Qed.

Lemma fexp_mono (a b : Q) : 0 < a -> a <= b -> (fexp a <= fexp b)%Z.
Proof.
  intros Ha Hab. pose proof (ilog2_mono Ha Hab). unfold fexp. lia.
Qed.

(** Above the subnormal range the scaled magnitude has [prec] bits. *)
Lemma fexp_scaled_lower (a : Q) :
  0 < a -> (emin < fexp a)%Z -> two_p (prec - 1) <= a / two_p (fexp a).
Proof.
  intros Ha He.
  assert (E : fexp a = (ilog2 a - (prec - 1))%Z) by (unfold fexp in *; lia).
  destruct (ilog2_spec Ha) as [H1 _].
  apply Qle_shift_div_l; [apply two_p_pos|].
  rewrite <- two_p_plus. rewrite E.
  replace (prec - 1 + (ilog2 a - (prec - 1)))%Z with (ilog2 a) by ring.
  assumption.
Qed.

Lemma fexp_scaled_upper (a : Q) :
  0 < a -> a / two_p (fexp a) < two_p prec.
Proof.
  intros Ha.
  destruct (ilog2_spec Ha) as [_ H2].
  apply Qlt_shift_div_r; [apply two_p_pos|].
  rewrite <- two_p_plus.
  eapply Qlt_le_trans; [exact H2|].
  apply two_p_le. unfold fexp, prec. lia.
Qed.

(** *** Nearest-even rounding to an integer *)

Lemma rne_floor (y : Q) : (Qfloor y <= rne y <= Qfloor y + 1)%Z.
Proof.
  unfold rne. destruct (Qcompare _ _); [destruct (Z.even _)| |]; lia.
Qed.

Lemma rne_Z (z : Z) : rne (inject_Z z) = z.
Proof.
  unfold rne. rewrite Qfloor_Z.
  assert (E : inject_Z z - inject_Z z == 0) by ring.
  assert (C : (inject_Z z - inject_Z z ?= 1 # 2) = Lt).
  { rewrite E. reflexivity. }
  now rewrite C.
Qed.

Lemma rne_mono (y1 y2 : Q) : y1 <= y2 -> (rne y1 <= rne y2)%Z.
Proof.
  intros Hy.
  pose proof (Qfloor_resp_le _ _ Hy) as Hf.
  pose proof (rne_floor y1) as B1. pose proof (rne_floor y2) as B2.
  destruct (Z.eq_dec (Qfloor y1) (Qfloor y2)) as [E|NE]; [|lia].
  unfold rne in *. rewrite <- E in *. clear E Hf.
  destruct (Qcompare_spec (y1 - inject_Z (Qfloor y1)) (1 # 2)) as [C1|C1|C1];
    destruct (Qcompare_spec (y2 - inject_Z (Qfloor y1)) (1 # 2)) as [C2|C2|C2];
    try destruct (Z.even (Qfloor y1)); try lia; exfalso; lra.
Qed.

Lemma rne_compat (y1 y2 : Q) : y1 == y2 -> rne y1 = rne y2.
Proof.
  intro E. apply Z.le_antisymm; apply rne_mono; lra.
Qed.

Lemma rne_le_Z (y : Q) (z : Z) : y <= inject_Z z -> (rne y <= z)%Z.
Proof. intro H. rewrite <- (rne_Z z). now apply rne_mono. Qed.

Lemma rne_ge_Z (y : Q) (z : Z) : inject_Z z <= y -> (z <= rne y)%Z.
Proof. intro H. rewrite <- (rne_Z z). now apply rne_mono. Qed.

Lemma rne_pos (y : Q) : 1 # 2 < y -> (1 <= rne y)%Z.
Proof.
  intro Hy.
  pose proof (Qfloor_le y) as F1. pose proof (Qlt_floor y) as F2.
  assert (0 <= Qfloor y)%Z.
  { assert (inject_Z 0 <= y) by (change (inject_Z 0) with 0; lra).
    apply Qfloor_resp_le in H. now rewrite Qfloor_Z in H. }
  pose proof (rne_floor y) as B.
  destruct (Z.eq_dec (Qfloor y) 0) as [E|NE]; [|lia].
  unfold rne. rewrite E.
  assert (C : (y - inject_Z 0 ?= 1 # 2) = Gt).
  { apply Qgt_alt. change (inject_Z 0) with 0. lra. }
  rewrite C. lia.
Qed.

Lemma rne_zero (y : Q) : 0 <= y -> y <= 1 # 2 -> rne y = 0%Z.
Proof.
  intros H0 H1.
  assert (E : Qfloor y = 0%Z).
  { assert (A : (0 <= Qfloor y)%Z).
    { assert (inject_Z 0 <= y) by (change (inject_Z 0) with 0; lra).
      apply Qfloor_resp_le in H. now rewrite Qfloor_Z in H. }
    assert (B : (Qfloor y < 1)%Z).
    { pose proof (Qfloor_le y). rewrite Zlt_Qlt. change (inject_Z 1) with 1. lra. }
    lia. }
  unfold rne. rewrite E. change (inject_Z 0) with 0.
  destruct (Qcompare_spec (y - 0) (1 # 2)); try reflexivity. lra.
Qed.

(** *** Packing a rounded significand *)

Lemma mag_pos (m : positive) (e : Z) : 0 < mag m e.
Proof.
  unfold mag. pose proof (two_p_pos e).
  assert (0 < inject_Z (Zpos m)) by reflexivity. nra.
Qed.

Lemma valid_Fin (s : bool) (m : positive) (e : Z) :
  valid (Fin s m e) = true <->
  (Zpos m < 2 ^ prec /\ emin <= e /\ e <= emax)%Z.
Proof.
  unfold valid. rewrite !andb_true_iff, Z.ltb_lt, !Z.leb_le. tauto.
Qed.

Lemma pack_cases (s : bool) (n e : Z) :
  (0 <= n <= 2 ^ prec)%Z -> (emin <= e)%Z ->
  (n = 0%Z /\ pack s n e = Zero s) \/
  ((0 < n)%Z /\ pack s n e = Inf s /\
     (emax < e \/ (n = 2 ^ prec /\ emax <= e))%Z) \/
  ((0 < n)%Z /\ exists m' e',
     pack s n e = Fin s m' e' /\ valid (Fin s m' e') = true /\
     mag m' e' == inject_Z n * two_p e).
Proof.
  intros Hn He. unfold pack.
  destruct (Z.leb_spec n 0) as [H0|H0].
  - left. split; [lia | reflexivity].
  - right.
    destruct (Z.eqb_spec n (2 ^ prec)) as [E|NE].
    + destruct (Z.ltb_spec emax (e + 1)) as [Ho|Ho].
      * left. repeat split; trivial. right. split; [assumption | lia].
      * right. split; [assumption|].
        exists (Z.to_pos (2 ^ (prec - 1))), (e + 1)%Z.
        split; [reflexivity|]. split.
        { apply valid_Fin. split; [reflexivity | lia]. }
        unfold mag. rewrite E, two_p_succ.
        change (inject_Z (Zpos (Z.to_pos (2 ^ (prec - 1))))) with (inject_Z (2 ^ 23)).
        change (inject_Z (2 ^ prec)) with (2 * inject_Z (2 ^ 23)). ring.
    + destruct (Z.ltb_spec emax e) as [Ho|Ho].
      * left. repeat split; trivial. now left.
      * right. split; [assumption|].
        exists (Z.to_pos n), e. split; [reflexivity|]. split.
        { apply valid_Fin. rewrite Z2Pos.id by assumption. lia. }
        unfold mag. rewrite Z2Pos.id by assumption. reflexivity.
Qed.

(** *** What [round_mag] returns *)

Lemma round_mag_cases (s : bool) (a : Q) :
  0 < a ->
  let e := fexp a in
  let n := rne (a / two_p e) in
  (emin <= e)%Z /\ (0 <= n <= 2 ^ prec)%Z /\
  ((emin < e)%Z -> (2 ^ (prec - 1) <= n)%Z) /\
  ((n = 0%Z /\ round_mag s a = Zero s) \/
   ((0 < n)%Z /\ round_mag s a = Inf s /\
      two_p (emax + prec) <= inject_Z n * two_p e) \/
   ((0 < n)%Z /\ exists m' e',
      round_mag s a = Fin s m' e' /\ valid (Fin s m' e') = true /\
      mag m' e' == inject_Z n * two_p e)).
Proof.
  intros Ha e n.
  assert (He : (emin <= e)%Z) by apply fexp_ge_emin.
  assert (Hy : 0 <= a / two_p e).
  { apply Qle_shift_div_l; [apply two_p_pos | lra]. }
  assert (Hn0 : (0 <= n)%Z).
  { apply rne_ge_Z. exact Hy. }
  assert (Hn1 : (n <= 2 ^ prec)%Z).
  { apply rne_le_Z. rewrite two_p_inject by (unfold prec; lia).
    apply Qlt_le_weak. now apply fexp_scaled_upper. }
  assert (Hn2 : (emin < e)%Z -> (2 ^ (prec - 1) <= n)%Z).
  { intro H. apply rne_ge_Z. rewrite two_p_inject by (unfold prec; lia).
    now apply fexp_scaled_lower. }
  split; [assumption|]. split; [lia|]. split; [assumption|].
  destruct (@pack_cases s n e) as [C|[C|C]]; try lia.
  - left. exact C.
  - right; left. destruct C as (Hp & Hr & Ho). repeat split; trivial.
    assert (Te : 0 < two_p e) by apply two_p_pos.
    destruct Ho as [Ho|[Ho1 Ho2]].
    + specialize (Hn2 ltac:(unfold emin, emax in *; lia)).
      assert (two_p (prec - 1) <= inject_Z n).
      { rewrite <- two_p_inject by (unfold prec; lia). now rewrite <- Zle_Qle. }
      assert (two_p (emax + 1) <= two_p e) by (apply two_p_le; lia).
      replace (emax + prec)%Z with ((prec - 1) + (emax + 1))%Z by ring.
      rewrite two_p_plus.
      pose proof (two_p_pos (prec - 1)). pose proof (two_p_pos (emax + 1)).
      nra.
    + rewrite Ho1. rewrite two_p_inject by (unfold prec; lia).
      assert (two_p emax <= two_p e) by (apply two_p_le; lia).
      replace (emax + prec)%Z with (prec + emax)%Z by ring.
      rewrite two_p_plus.
      pose proof (two_p_pos prec). nra.
  - right; right. exact C.
Qed.

(** A representable magnitude is an integer at every finer scale. *)
Lemma mag_scaled (m : positive) (eB e : Z) :
  (e <= eB)%Z ->
  mag m eB / two_p e == inject_Z (Zpos m * 2 ^ (eB - e)).
Proof.
  intro H. unfold mag. rewrite inject_Z_mult.
  rewrite two_p_inject by lia. rewrite two_p_minus.
  field. pose proof (two_p_pos e). lra.
Qed.

Lemma mag_lt_two_p (m : positive) (e : Z) :
  (Zpos m < 2 ^ prec)%Z -> mag m e < two_p (prec + e).
Proof.
  intro H. unfold mag. rewrite two_p_plus.
  assert (inject_Z (Zpos m) < two_p prec).
  { rewrite <- two_p_inject by (unfold prec; lia). now rewrite <- Zlt_Qlt. }
  pose proof (two_p_pos e). nra.
Qed.

(** Rounding never crosses a representable upper bound. *)
Lemma round_mag_le (s : bool) (a : Q) (mB : positive) (eB : Z) :
  0 < a -> a <= mag mB eB -> valid (Fin s mB eB) = true ->
  round_mag s a = Zero s \/
  exists m e, round_mag s a = Fin s m e /\ valid (Fin s m e) = true /\
              mag m e <= mag mB eB.
Proof.
  intros Ha Hab HB. apply valid_Fin in HB. destruct HB as (HB1 & HB2 & HB3).
  destruct (@round_mag_cases s a Ha) as (He & Hn & Hn2 & C).
  set (e := fexp a) in *. set (n := rne (a / two_p e)) in *.
  assert (Te : 0 < two_p e) by apply two_p_pos.
  assert (HeB : (e <= eB)%Z).
  { unfold e, fexp. apply Z.max_lub; [assumption|].
    destruct (ilog2_spec Ha) as [H1 _].
    pose proof (@mag_lt_two_p mB eB HB1) as H2.
    assert (ilog2 a < prec + eB)%Z by (apply two_p_lt_inv; lra).
    lia. }
  assert (Hval : inject_Z n * two_p e <= mag mB eB).
  { assert (Hk : (n <= Zpos mB * 2 ^ (eB - e))%Z).
    { apply rne_le_Z. rewrite <- mag_scaled by assumption.
      apply Qle_shift_div_l; [assumption|].
      assert (E : a / two_p e * two_p e == a) by (field; lra).
      rewrite E. assumption. }
    rewrite Zle_Qle in Hk. rewrite <- mag_scaled in Hk by assumption.
    assert (E2 : mag mB eB / two_p e * two_p e == mag mB eB) by (field; lra).
    revert Hk E2. generalize (mag mB eB / two_p e). intros. nra. }
  destruct C as [(_ & C)|[(Hp & C & Ho)|(Hp & m' & e' & C & Hv & Hm)]].
  - now left.
  - exfalso.
    pose proof (@mag_lt_two_p mB eB HB1) as H2.
    assert (two_p (prec + eB) <= two_p (emax + prec)) by (apply two_p_le; lia).
    lra.
  - right. exists m', e'. repeat split; trivial. rewrite Hm. assumption.
Qed.

(** Rounding never crosses a representable lower bound. *)
Lemma round_mag_ge (s : bool) (a : Q) (mA : positive) (eA : Z) :
  mag mA eA <= a -> valid (Fin s mA eA) = true ->
  round_mag s a = Inf s \/
  exists m e, round_mag s a = Fin s m e /\ valid (Fin s m e) = true /\
              mag mA eA <= mag m e.
Proof.
  intros Hab HA. apply valid_Fin in HA. destruct HA as (HA1 & HA2 & HA3).
  assert (Ha : 0 < a) by (pose proof (mag_pos mA eA); lra).
  destruct (@round_mag_cases s a Ha) as (He & Hn & Hn2 & C).
  set (e := fexp a) in *. set (n := rne (a / two_p e)) in *.
  assert (Te : 0 < two_p e) by apply two_p_pos.
  assert (Hval : mag mA eA <= inject_Z n * two_p e).
  { destruct (Z_le_gt_dec e eA) as [Hle|Hgt].
    - assert (Hk : (Zpos mA * 2 ^ (eA - e) <= n)%Z).
      { apply rne_ge_Z. rewrite <- mag_scaled by assumption.
        apply Qle_shift_div_r; [assumption|].
        assert (E : a / two_p e * two_p e == a) by (field; lra).
        rewrite E. assumption. }
      rewrite Zle_Qle in Hk. rewrite <- mag_scaled in Hk by assumption.
      assert (E2 : mag mA eA / two_p e * two_p e == mag mA eA) by (field; lra).
      revert Hk E2. generalize (mag mA eA / two_p e). intros. nra.
    - specialize (Hn2 ltac:(lia)).
      assert (two_p (prec - 1) <= inject_Z n).
      { rewrite <- two_p_inject by (unfold prec; lia). now rewrite <- Zle_Qle. }
      pose proof (@mag_lt_two_p mA eA HA1) as H2.
      assert (two_p (prec + eA) <= two_p ((prec - 1) + e)) by (apply two_p_le; lia).
      rewrite (two_p_plus (prec - 1) e) in H0.
      assert (two_p (prec - 1) * two_p e <= inject_Z n * two_p e).
      { apply Qmult_le_compat_r; [assumption | lra]. }
      lra. }
  destruct C as [(Hz & C)|[(Hp & C & Ho)|(Hp & m' & e' & C & Hv & Hm)]].
  - exfalso. rewrite Hz in Hval. pose proof (mag_pos mA eA).
    change (inject_Z 0) with 0 in Hval. lra.
  - now left.
  - right. exists m', e'. repeat split; trivial. rewrite Hm. assumption.
Qed.

(** Anything above half the smallest subnormal rounds away from zero. *)
Lemma round_mag_nonzero (s : bool) (a : Q) :
  two_p (emin - 1) < a ->
  round_mag s a = Inf s \/
  exists m e, round_mag s a = Fin s m e /\ valid (Fin s m e) = true.
Proof.
  intros Hlow.
  assert (Ha : 0 < a) by (pose proof (two_p_pos (emin - 1)); lra).
  destruct (@round_mag_cases s a Ha) as (He & Hn & Hn2 & C).
  set (e := fexp a) in *. set (n := rne (a / two_p e)) in *.
  destruct C as [(Hz & C)|[(Hp & C & Ho)|(Hp & m' & e' & C & Hv & Hm)]].
  - exfalso.
    destruct (Z.eq_dec e emin) as [E|NE].
    + assert (1 <= n)%Z; [|lia].
      apply rne_pos. rewrite E.
      apply Qlt_shift_div_l; [apply two_p_pos|].
      pose proof (two_p_succ (emin - 1)) as T.
      replace (emin - 1 + 1)%Z with emin in T by ring. rewrite T. lra.
    + specialize (Hn2 ltac:(lia)). unfold prec in Hn2. lia.
  - now left.
  - right. exists m', e'. split; assumption.
Qed.

(** *** Rounding against representable bounds *)

Lemma representable_pos (q : Q) :
  representable q -> 0 < q ->
  exists m e, q == mag m e /\ (forall s, valid (Fin s m e) = true).
Proof.
  intros (x & Hf & Hv & E) Hq.
  destruct x as [s|s| |s m e]; simpl in *; try discriminate; try lra.
  pose proof (mag_pos m e).
  destruct s; [lra|].
  exists m, e. split; [now symmetry | intro; exact Hv].
Qed.

Lemma representable_neg (q : Q) :
  representable q -> q < 0 ->
  exists m e, - q == mag m e /\ (forall s, valid (Fin s m e) = true).
Proof.
  intros (x & Hf & Hv & E) Hq.
  destruct x as [s|s| |s m e]; simpl in *; try discriminate; try lra.
  pose proof (mag_pos m e).
  destruct s; [|lra].
  exists m, e. split; [lra | intro; exact Hv].
Qed.

Lemma representable_val (x : f32) :
  finite x = true -> valid x = true -> representable (val x).
Proof. intros. exists x. repeat split; trivial; reflexivity. Qed.

(** The result of [round_mag] carries the requested sign. *)
Lemma round_mag_shape (s : bool) (a : Q) :
  0 < a ->
  round_mag s a = Zero s \/ round_mag s a = Inf s \/
  exists m e, round_mag s a = Fin s m e /\ valid (Fin s m e) = true.
Proof.
  intro Ha.
  destruct (@round_mag_cases s a Ha) as (_ & _ & _ & C).
  destruct C as [(_ & C)|[(_ & C & _)|(_ & m & e & C & Hv & _)]].
  - now left.
  - right; now left.
  - right; right. exists m, e. now split.
Qed.

Lemma round_mag_lower (s : bool) (a lo : Q) :
  0 < a -> lo <= (if s then - a else a) -> representable lo ->
  round_mag s a = Inf false \/
  (finite (round_mag s a) = true /\ valid (round_mag s a) = true /\
   lo <= val (round_mag s a)).
Proof.
  intros Ha Hlo Hrep. destruct s.
  - assert (Hneg : lo < 0) by lra.
    destruct (representable_neg Hrep Hneg) as (m & e & E & Hv).
    destruct (@round_mag_le true a m e Ha ltac:(lra) (Hv true))
      as [R|(m' & e' & R & Hv' & Hm)]; right; rewrite R; simpl.
    + repeat split; trivial. lra.
    + repeat split; trivial. lra.
  - destruct (Qlt_le_dec 0 lo) as [Hp|Hn].
    + destruct (representable_pos Hrep Hp) as (m & e & E & Hv).
      destruct (@round_mag_ge false a m e ltac:(lra) (Hv false))
        as [R|(m' & e' & R & Hv' & Hm)].
      * now left.
      * right. rewrite R. simpl. repeat split; trivial. lra.
    + destruct (@round_mag_shape false a Ha) as [R|[R|(m & e & R & Hv)]].
      * right. rewrite R. simpl. repeat split; trivial.
      * now left.
      * right. rewrite R. simpl. repeat split; trivial.
        pose proof (mag_pos m e). lra.
Qed.

Lemma round_mag_upper (s : bool) (a hi : Q) :
  0 < a -> (if s then - a else a) <= hi -> representable hi ->
  round_mag s a = Inf true \/
  (finite (round_mag s a) = true /\ valid (round_mag s a) = true /\
   val (round_mag s a) <= hi).
Proof.
  intros Ha Hhi Hrep. destruct s.
  - destruct (Qlt_le_dec hi 0) as [Hn|Hp].
    + destruct (representable_neg Hrep Hn) as (m & e & E & Hv).
      destruct (@round_mag_ge true a m e ltac:(lra) (Hv true))
        as [R|(m' & e' & R & Hv' & Hm)].
      * now left.
      * right. rewrite R. simpl. repeat split; trivial. lra.
    + destruct (@round_mag_shape true a Ha) as [R|[R|(m & e & R & Hv)]].
      * right. rewrite R. simpl. repeat split; trivial.
      * now left.
      * right. rewrite R. simpl. repeat split; trivial.
        pose proof (mag_pos m e). lra.
  - assert (Hpos : 0 < hi) by lra.
    destruct (representable_pos Hrep Hpos) as (m & e & E & Hv).
    destruct (@round_mag_le false a m e Ha ltac:(lra) (Hv false))
      as [R|(m' & e' & R & Hv' & Hm)]; right; rewrite R; simpl.
    + repeat split; trivial. lra.
    + repeat split; trivial. lra.
Qed.

Lemma round_mag_in_range (s : bool) (a lo hi : Q) :
  0 < a -> lo <= (if s then - a else a) -> (if s then - a else a) <= hi ->
  representable lo -> representable hi ->
  in_range lo hi (round_mag s a).
Proof.
  intros Ha Hlo Hhi Rlo Rhi.
  destruct (round_mag_lower s Ha Hlo Rlo) as [L|(Lf & Lv & L)];
    destruct (round_mag_upper s Ha Hhi Rhi) as [U|(Uf & Uv & U)].
  - congruence.
  - rewrite L in Uf. discriminate.
  - rewrite U in Lf. discriminate.
  - repeat split; assumption.
Qed.

Lemma round_lower (q lo : Q) :
  lo <= q -> representable lo ->
  round q = Inf false \/
  (finite (round q) = true /\ valid (round q) = true /\ lo <= val (round q)).
Proof.
  intros Hlo Hrep. unfold round.
  destruct (Qcompare_spec q 0) as [E|L|G].
  - right. simpl. repeat split; trivial. lra.
  - apply round_mag_lower; trivial; lra.
  - apply round_mag_lower; trivial; lra.
Qed.

Lemma round_upper (q hi : Q) :
  q <= hi -> representable hi ->
  round q = Inf true \/
  (finite (round q) = true /\ valid (round q) = true /\ val (round q) <= hi).
Proof.
  intros Hhi Hrep. unfold round.
  destruct (Qcompare_spec q 0) as [E|L|G].
  - right. simpl. repeat split; trivial. lra.
  - apply round_mag_upper; trivial; lra.
  - apply round_mag_upper; trivial; lra.
Qed.

Lemma round_in_range (q lo hi : Q) :
  lo <= q -> q <= hi -> representable lo -> representable hi ->
  in_range lo hi (round q).
Proof.
  intros Hlo Hhi Rlo Rhi. unfold round.
  destruct (Qcompare_spec q 0) as [E|L|G].
  - repeat split; simpl; trivial; lra.
  - apply round_mag_in_range; trivial; lra.
  - apply round_mag_in_range; trivial; lra.
Qed.

(** Every operation returns a representable float. *)
Lemma round_mag_valid (s : bool) (a : Q) : 0 < a -> valid (round_mag s a) = true.
Proof.
  intro Ha.
  destruct (@round_mag_shape s a Ha) as [R|[R|(m & e & R & Hv)]];
    rewrite R; trivial.
Qed.

Lemma round_valid (q : Q) : valid (round q) = true.
Proof.
  unfold round. destruct (Qcompare_spec q 0); trivial;
    apply round_mag_valid; lra.
Qed.

(** *** The operations on floats in range *)

Lemma val_neg (x : f32) : val (neg x) == - val x.
Proof. destruct x as [s|s| |[|] m e]; simpl; ring. Qed.

Lemma finite_neg (x : f32) : finite (neg x) = finite x.
Proof. now destruct x. Qed.

Lemma valid_neg (x : f32) : valid (neg x) = valid x.
Proof. now destruct x. Qed.

Lemma val_Fin (s : bool) (m : positive) (e : Z) :
  val (Fin s m e) == (if s then - mag m e else mag m e).
Proof. destruct s; reflexivity. Qed.

Lemma mul_in_range (x y : f32) (lo hi : Q) :
  finite x = true -> finite y = true ->
  lo <= val x * val y -> val x * val y <= hi ->
  representable lo -> representable hi ->
  in_range lo hi (mul x y).
Proof.
  intros Fx Fy Hlo Hhi Rlo Rhi.
  destruct x as [s1|s1| |s1 m1 e1]; try discriminate;
    destruct y as [s2|s2| |s2 m2 e2]; try discriminate.
  - unfold in_range. simpl in *. repeat split; trivial; lra.
  - revert Hlo Hhi. generalize (val (Fin s2 m2 e2)). intros.
    unfold in_range. simpl in *. repeat split; trivial; lra.
  - revert Hlo Hhi. generalize (val (Fin s1 m1 e1)). intros.
    unfold in_range. simpl in *. repeat split; trivial; lra.
  - unfold mul.
    pose proof (mag_pos m1 e1). pose proof (mag_pos m2 e2).
    rewrite !val_Fin in Hlo, Hhi.
    apply round_mag_in_range; trivial; try nra;
      destruct s1, s2; simpl xorb; cbv iota; nra.
Qed.

Lemma add_in_range (x y : f32) (lo hi : Q) :
  finite x = true -> finite y = true ->
  valid x = true -> valid y = true ->
  lo <= val x + val y -> val x + val y <= hi ->
  representable lo -> representable hi ->
  in_range lo hi (add x y).
Proof.
  intros Fx Fy Vx Vy Hlo Hhi Rlo Rhi.
  destruct x as [s1|s1| |s1 m1 e1]; try discriminate;
    destruct y as [s2|s2| |s2 m2 e2]; try discriminate.
  - unfold in_range. simpl in *. repeat split; trivial; lra.
  - revert Hlo Hhi. unfold add, in_range. change (val (Zero s1)) with 0.
    intros. repeat split; trivial; lra.
  - revert Hlo Hhi. unfold add, in_range. change (val (Zero s2)) with 0.
    intros. repeat split; trivial; lra.
  - unfold add. apply round_in_range; trivial.
Qed.

Lemma sub_in_range (x y : f32) (lo hi : Q) :
  finite x = true -> finite y = true ->
  valid x = true -> valid y = true ->
  lo <= val x - val y -> val x - val y <= hi ->
  representable lo -> representable hi ->
  in_range lo hi (sub x y).
Proof.
  intros Fx Fy Vx Vy Hlo Hhi Rlo Rhi. unfold sub.
  apply add_in_range; trivial;
    rewrite ?finite_neg, ?valid_neg, ?val_neg; trivial; lra.
Qed.

Lemma val_abs (x : f32) : val (abs x) == Qabs (val x).
Proof.
  destruct x as [s|s| |s m e]; try reflexivity.
  pose proof (mag_pos m e).
  destruct s; cbn [val abs].
  - rewrite Qabs_neg by lra. ring.
  - rewrite Qabs_pos by lra. reflexivity.
Qed.

Lemma abs_in_range (x : f32) (c : Q) :
  in_range (- c) c x -> in_range 0 c (abs x).
Proof.
  intros (Fx & Vx & L & U).
  repeat split.
  - now destruct x.
  - now destruct x.
  - rewrite val_abs. apply Qabs_nonneg.
  - rewrite val_abs. apply Qabs_Qle_condition. split; assumption.
Qed.

Lemma abs_in_range_pos (x : f32) (lo hi : Q) :
  0 <= lo -> in_range lo hi x -> in_range lo hi (abs x).
Proof.
  intros H0 (Fx & Vx & L & U).
  assert (E : val (abs x) == val x).
  { rewrite val_abs. apply Qabs_pos. lra. }
  repeat split; try (now destruct x); rewrite E; assumption.
Qed.

Lemma abs_in_range_neg (x : f32) (lo hi : Q) :
  hi <= 0 -> in_range lo hi x -> in_range (- hi) (- lo) (abs x).
Proof.
  intros H0 (Fx & Vx & L & U).
  assert (E : val (abs x) == - val x).
  { rewrite val_abs. apply Qabs_neg. lra. }
  repeat split; try (now destruct x); rewrite E; lra.
Qed.

Lemma ltb_finite (x y : f32) :
  finite x = true -> finite y = true ->
  ltb x y = true <-> val x < val y.
Proof.
  intros Fx Fy.
  assert (E : ltb x y = negb (Qle_bool (val y) (val x))).
  { destruct x; try discriminate; destruct y; try discriminate; reflexivity. }
  rewrite E, negb_true_iff. split.
  - intro Hb. apply Qnot_le_lt. intro Hc. apply Qle_bool_iff in Hc. congruence.
  - intro Hlt. destruct (Qle_bool (val y) (val x)) eqn:Hb; trivial.
    apply Qle_bool_iff in Hb. lra.
Qed.

Lemma leb_finite (x y : f32) :
  finite x = true -> finite y = true ->
  leb x y = true <-> val x <= val y.
Proof.
  intros Fx Fy.
  assert (E : leb x y = Qle_bool (val x) (val y)).
  { destruct x; try discriminate; destruct y; try discriminate; reflexivity. }
  rewrite E. apply Qle_bool_iff.
Qed.

Lemma representable_round (q : Q) :
  finite (round q) = true -> val (round q) == q -> representable q.
Proof.
  intros Hf Hv. exists (round q). repeat split; trivial. apply round_valid.
Qed.

Ltac rep := apply representable_round; vm_compute; reflexivity.

Lemma in_range_weaken (lo hi lo' hi' : Q) (x : f32) :
  in_range lo hi x -> lo' <= lo -> hi <= hi' -> in_range lo' hi' x.
Proof. intros (F & V & L & U) H1 H2. repeat split; trivial; lra. Qed.

Lemma in_range_of_leb (lo hi x : f32) :
  finite lo = true -> finite hi = true -> valid x = true ->
  leb lo x = true -> leb x hi = true ->
  in_range (val lo) (val hi) x.
Proof.
  intros Flo Fhi Vx L U.
  assert (Fx : finite x = true).
  { destruct x as [s|s| |s m e]; trivial;
      destruct lo, hi; try discriminate; destruct s; discriminate. }
  repeat split; trivial.
  - now apply leb_finite in L.
  - now apply leb_finite in U.
Qed.

(** *** Truncation *)

Lemma trunc_nonneg_range (lo hi : Q) (a b : Z) (x : f32) :
  in_range lo hi x -> 0 <= lo -> inject_Z a <= lo -> hi < inject_Z b + 1 ->
  (a <= trunc x <= b)%Z.
Proof.
  intros (F & V & L & U) H0 Ha Hb.
  assert (Hab : forall v : Q, lo <= v -> v <= hi -> (a <= Qfloor v <= b)%Z).
  { intros v Lv Uv. split.
    - rewrite <- (Qfloor_Z a). apply Qfloor_resp_le. lra.
    - pose proof (Qfloor_le v) as Fl.
      assert (inject_Z (Qfloor v) < inject_Z (b + 1)).
      { rewrite inject_Z_plus. change (inject_Z 1) with 1. lra. }
      rewrite <- Zlt_Qlt in H. lia. }
  destruct x as [s|s| |s m e]; try discriminate.
  - simpl in *. exact (Hab 0 L U).
  - pose proof (mag_pos m e). destruct s; cbn [val trunc] in *; [lra|].
    now apply Hab.
Qed.

Lemma trunc_small_neg (lo : Q) (x : f32) :
  in_range lo 0 x -> - (1) < lo -> trunc x = 0%Z.
Proof.
  intros (F & V & L & U) H1.
  destruct x as [s|s| |s m e]; try discriminate; trivial.
  pose proof (mag_pos m e). destruct s; cbn [val trunc] in *; [|lra].
  assert (E : Qfloor (mag m e) = 0%Z).
  { assert (A : (0 <= Qfloor (mag m e))%Z).
    { rewrite <- (Qfloor_Z 0). apply Qfloor_resp_le. change (inject_Z 0) with 0. lra. }
    assert (B : (Qfloor (mag m e) < 1)%Z).
    { pose proof (Qfloor_le (mag m e)). rewrite Zlt_Qlt.
      change (inject_Z 1) with 1. lra. }
    lia. }
  rewrite E. reflexivity.
Qed.

Lemma to_u8_some (x : f32) :
  finite x = true -> (0 <= trunc x <= 255)%Z -> to_u8 x = Some (trunc x).
Proof.
  intros F [H0 H1]. unfold to_u8. rewrite F.
  apply Z.leb_le in H0, H1. now rewrite H0, H1.
Qed.

(** *** [std::max] against zero *)

Lemma max_zero_in_range (lo hi lo' : Q) (t : f32) :
  in_range lo hi t -> 0 <= lo' -> lo' <= hi -> (lo' <= lo \/ lo' == 0) ->
  in_range lo' hi (if ltb (Zero false) t then t else Zero false).
Proof.
  intros (F & V & L & U) H0 H1 H2.
  destruct (ltb (Zero false) t) eqn:Hb.
  - apply ltb_finite in Hb; trivial. simpl in Hb.
    repeat split; trivial; destruct H2; lra.
  - assert (val t <= 0).
    { apply Qnot_lt_le. intro Hc.
      assert (ltb (Zero false) t = true) by (apply ltb_finite; trivial).
      congruence. }
    repeat split; trivial; simpl; destruct H2; lra.
Qed.

Lemma max_zero_neg (lo hi : Q) (t : f32) :
  in_range lo hi t -> hi <= 0 ->
  (if ltb (Zero false) t then t else Zero false) = Zero false.
Proof.
  intros (F & V & L & U) H0.
  destruct (ltb (Zero false) t) eqn:Hb; trivial.
  apply ltb_finite in Hb; trivial. simpl in Hb. lra.
Qed.

(** *** Operations against a constant *)

Lemma mul_const_range (x c : f32) (k lo hi lo' hi' : Q) :
  in_range lo hi x -> finite c = true -> val c == k -> 0 <= k ->
  lo' <= lo * k -> hi * k <= hi' ->
  representable lo' -> representable hi' ->
  in_range lo' hi' (mul x c).
Proof.
  intros (F & V & L & U) Fc Ec Hk H1 H2 R1 R2.
  apply mul_in_range; trivial; rewrite Ec; nra.
Qed.

Lemma const_sub_range (x c : f32) (k lo hi lo' hi' : Q) :
  in_range lo hi x -> finite c = true -> valid c = true -> val c == k ->
  lo' <= k - hi -> k - lo <= hi' ->
  representable lo' -> representable hi' ->
  in_range lo' hi' (sub c x).
Proof.
  intros (F & V & L & U) Fc Vc Ec H1 H2 R1 R2.
  apply sub_in_range; trivial; rewrite Ec; lra.
Qed.

Lemma sub_const_range (x c : f32) (k lo hi lo' hi' : Q) :
  in_range lo hi x -> finite c = true -> valid c = true -> val c == k ->
  lo' <= lo - k -> hi - k <= hi' ->
  representable lo' -> representable hi' ->
  in_range lo' hi' (sub x c).
Proof.
  intros (F & V & L & U) Fc Vc Ec H1 H2 R1 R2.
  apply sub_in_range; trivial; rewrite Ec; lra.
Qed.

(** *** The colour ramp on binary32 *)

Section ColorRamp.


(** A channel in [[lo, hi]] with [0 <= lo] scales to a byte between the
    truncations of the scaled bounds. *)
Lemma scale_u8_range (c : f32) (lo hi : Q) (a b : Z) :
  in_range lo hi c -> 0 <= lo ->
  representable (lo * 255) -> representable (hi * 255) ->
  inject_Z a <= lo * 255 -> hi * 255 < inject_Z b + 1 ->
  (0 <= a)%Z -> (b <= 255)%Z ->
  scale_u8 c = Some (trunc (mul c (round (inject_Z 255)))) /\
  (a <= trunc (mul c (round (inject_Z 255))) <= b)%Z.
Proof.
  intros Hc H0 R1 R2 Ha Hb Ha0 Hb255.
  assert (Hs : in_range (lo * 255) (hi * 255) (mul c (round (inject_Z 255)))).
  { eapply mul_const_range with (k := 255); try exact Hc; trivial;
      try lra; vm_compute; reflexivity || discriminate. }
  assert (Ht : (a <= trunc (mul c (round (inject_Z 255))) <= b)%Z).
  { eapply trunc_nonneg_range; try exact Hs; trivial. lra. }
  split; [|exact Ht].
  unfold scale_u8. cbn [f_to_u8 f_mul f_of_int b32_ops].
  apply to_u8_some; [apply Hs | lia].
Qed.

(** A channel in [(-1/255, 0]] scales to the byte 0. *)
Lemma scale_u8_small_neg (c : f32) (lo : Q) :
  in_range lo 0 c -> - (1) < lo * 255 ->
  representable (lo * 255) ->
  scale_u8 c = Some 0%Z /\ trunc (mul c (round (inject_Z 255))) = 0%Z.
Proof.
  intros Hc Hl R1.
  assert (Hs : in_range (lo * 255) 0 (mul c (round (inject_Z 255)))).
  { eapply mul_const_range with (k := 255); try exact Hc; trivial;
      try lra; try rep; vm_compute; reflexivity || discriminate. }
  assert (Ht : trunc (mul c (round (inject_Z 255))) = 0%Z).
  { eapply trunc_small_neg; [exact Hs | assumption]. }
  split; [|exact Ht].
  unfold scale_u8. cbn [f_to_u8 f_mul f_of_int b32_ops].
  rewrite to_u8_some; [now rewrite Ht | apply Hs | lia].
Qed.

(** The three channels are the source's expressions over binary32. *)
Lemma channel_r_b32 (ratio : f32) :
  channel_r ratio =
  let t := sub (round 1) (mul ratio (round 2)) in
  if ltb (Zero false) t then t else Zero false.
Proof. reflexivity. Qed.

Lemma channel_g_b32 (ratio : f32) :
  channel_g ratio =
  sub (round 1) (mul (abs (sub ratio (round (1 # 2)))) (round 2)).
Proof. reflexivity. Qed.

Lemma channel_b_b32 (ratio : f32) :
  channel_b ratio =
  let t := mul (sub ratio (round (1 # 2))) (round 2) in
  if ltb (Zero false) t then t else Zero false.
Proof. reflexivity. Qed.

Ltac const := vm_compute; reflexivity || discriminate.

Ltac step_mul2 H :=
  eapply mul_const_range with (k := 2); [exact H | const | const | lra | | | | ].
Ltac step_1sub H :=
  eapply const_sub_range with (k := 1); [exact H | const | const | const | | | | ].
Ltac step_subhalf H :=
  eapply sub_const_range with (k := 1 # 2); [exact H | const | const | const | | | | ].

(** Channels of a ratio in [[0, 1]], each in [[0, 1]]. *)
Lemma channels_unit (ratio : f32) :
  in_range 0 1 ratio ->
  in_range 0 1 (channel_r ratio) /\
  in_range 0 1 (channel_g ratio) /\
  in_range 0 1 (channel_b ratio).
Proof.
  intro H.
  assert (D : in_range (- (1 # 2)) (1 # 2) (sub ratio (round (1 # 2)))).
  { step_subhalf H; try rep; lra. }
  split; [|split].
  - rewrite channel_r_b32. cbv zeta.
    assert (M : in_range 0 2 (mul ratio (round 2))).
    { step_mul2 H; try rep; lra. }
    assert (S : in_range (- (1)) 1 (sub (round 1) (mul ratio (round 2)))).
    { step_1sub M; try rep; lra. }
    eapply max_zero_in_range; [exact S | lra | lra | right; reflexivity].
  - rewrite channel_g_b32.
    assert (A : in_range 0 (1 # 2) (abs (sub ratio (round (1 # 2))))).
    { now apply abs_in_range. }
    assert (M : in_range 0 1 (mul (abs (sub ratio (round (1 # 2)))) (round 2))).
    { step_mul2 A; try rep; lra. }
    step_1sub M; try rep; lra.
  - rewrite channel_b_b32. cbv zeta.
    assert (M : in_range (- (1)) 1 (mul (sub ratio (round (1 # 2))) (round 2))).
    { step_mul2 D; try rep; lra. }
    eapply max_zero_in_range; [exact M | lra | lra | right; reflexivity].
Qed.



(** Just above 1 the red channel is exactly [+0], green dips at most
    1/256 below zero and blue exceeds 1 by at most 1/256. *)
Lemma channels_above (ratio : f32) :
  in_range 1 (513 # 512) ratio ->
  channel_r ratio = Zero false /\
  in_range (- (1 # 256)) 0 (channel_g ratio) /\
  in_range 1 (257 # 256) (channel_b ratio).
Proof.
  intro H.
  assert (D : in_range (1 # 2) (257 # 512) (sub ratio (round (1 # 2)))).
  { step_subhalf H; try rep; lra. }
  split; [|split].
  - rewrite channel_r_b32. cbv zeta.
    assert (M : in_range 2 (513 # 256) (mul ratio (round 2))).
    { step_mul2 H; try rep; lra. }
    assert (S : in_range (- (513 # 256)) (- (1))
                  (sub (round 1) (mul ratio (round 2)))).
    { step_1sub M; try rep; lra. }
    eapply max_zero_neg; [exact S | lra].
  - rewrite channel_g_b32.
    assert (A : in_range (1 # 2) (257 # 512) (abs (sub ratio (round (1 # 2))))).
    { apply abs_in_range_pos; [lra | exact D]. }
    assert (M : in_range 1 (257 # 256)
                  (mul (abs (sub ratio (round (1 # 2)))) (round 2))).
    { step_mul2 A; try rep; lra. }
    step_1sub M; try rep; lra.
  - rewrite channel_b_b32. cbv zeta.
    assert (M : in_range 1 (257 # 256) (mul (sub ratio (round (1 # 2))) (round 2))).
    { step_mul2 D; try rep; lra. }
    eapply max_zero_in_range; [exact M | lra | lra | left; lra].
Qed.

(** Just below 0 the mirror image holds. *)
Lemma channels_below (ratio : f32) :
  in_range (- (1 # 512)) 0 ratio ->
  in_range 1 (257 # 256) (channel_r ratio) /\
  in_range (- (1 # 256)) 0 (channel_g ratio) /\
  channel_b ratio = Zero false.
Proof.
  intro H.
  assert (D : in_range (- (257 # 512)) (- (1 # 2)) (sub ratio (round (1 # 2)))).
  { step_subhalf H; try rep; lra. }
  split; [|split].
  - rewrite channel_r_b32. cbv zeta.
    assert (M : in_range (- (1 # 256)) 0 (mul ratio (round 2))).
    { step_mul2 H; try rep; lra. }
    assert (S : in_range 1 (257 # 256) (sub (round 1) (mul ratio (round 2)))).
    { step_1sub M; try rep; lra. }
    eapply max_zero_in_range; [exact S | lra | lra | left; lra].
  - rewrite channel_g_b32.
    assert (A : in_range (1 # 2) (257 # 512) (abs (sub ratio (round (1 # 2))))).
    { eapply in_range_weaken; [apply (abs_in_range_neg (lo := - (257 # 512)) (hi := - (1 # 2))); [lra | exact D] | lra | lra]. }
    assert (M : in_range 1 (257 # 256)
                  (mul (abs (sub ratio (round (1 # 2)))) (round 2))).
    { step_mul2 A; try rep; lra. }
    step_1sub M; try rep; lra.
  - rewrite channel_b_b32. cbv zeta.
    assert (M : in_range (- (257 # 256)) (- (1))
                  (mul (sub ratio (round (1 # 2))) (round 2))).
    { step_mul2 D; try rep; lra. }
    eapply max_zero_neg; [exact M | lra].
Qed.

(** The colour of a ratio in [[0, 1]]: three truncated bytes. *)
Lemma color_unit (ratio : f32) :
  in_range 0 1 ratio ->
  let byte c := trunc (mul c (round (inject_Z 255))) in
  getColorFromRatio ratio =
    Some (sf.rgb (byte (channel_r ratio))
                 (byte (channel_g ratio))
                 (byte (channel_b ratio))) /\
  (0 <= byte (channel_r ratio) <= 255)%Z /\
  (0 <= byte (channel_g ratio) <= 255)%Z /\
  (0 <= byte (channel_b ratio) <= 255)%Z.
Proof.
  intros H byte.
  destruct (channels_unit H) as (Hr & Hg & Hb).
  assert (S : forall c, in_range 0 1 c ->
            scale_u8 c = Some (byte c) /\ (0 <= byte c <= 255)%Z).
  { intros c Hc.
    apply scale_u8_range with (lo := 0) (hi := 1);
      [exact Hc | lra | rep | rep | vm_compute; discriminate
      | vm_compute; reflexivity | lia | lia]. }
  destruct (S _ Hr) as [Er Br], (S _ Hg) as [Eg Bg], (S _ Hb) as [Eb Bb].
  unfold getColorFromRatio. rewrite Er, Eg, Eb. auto.
Qed.

Lemma color_above (ratio : f32) :
  in_range 1 (513 # 512) ratio ->
  getColorFromRatio ratio = Some (sf.rgb 0 0 255).
Proof.
  intro H. destruct (channels_above H) as (Er & Hg & Hb).
  unfold getColorFromRatio. rewrite Er.
  assert (Sg : scale_u8 (channel_g ratio)
               = Some 0%Z).
  { apply (@scale_u8_small_neg _ _ Hg); [vm_compute; reflexivity | rep]. }
  assert (Sb : scale_u8 (channel_b ratio)
               = Some (trunc (mul (channel_b ratio)
                                  (round (inject_Z 255)))) /\
               (255 <= trunc (mul (channel_b ratio)
                                  (round (inject_Z 255))) <= 255)%Z).
  { apply scale_u8_range with (lo := 1) (hi := 257 # 256);
      [exact Hb | lra | rep | rep | vm_compute; discriminate
      | vm_compute; reflexivity | lia | lia]. }
  destruct Sb as [Eb Bb].
  rewrite Sg, Eb.
  replace (trunc (mul (channel_b ratio) (round (inject_Z 255))))
    with 255%Z by lia.
  reflexivity.
Qed.

Lemma color_below (ratio : f32) :
  in_range (- (1 # 512)) 0 ratio ->
  getColorFromRatio ratio = Some (sf.rgb 255 0 0).
Proof.
  intro H. destruct (channels_below H) as (Hr & Hg & Eb).
  unfold getColorFromRatio. rewrite Eb.
  assert (Sg : scale_u8 (channel_g ratio)
               = Some 0%Z).
  { apply (@scale_u8_small_neg _ _ Hg); [vm_compute; reflexivity | rep]. }
  assert (Sr : scale_u8 (channel_r ratio)
               = Some (trunc (mul (channel_r ratio)
                                  (round (inject_Z 255)))) /\
               (255 <= trunc (mul (channel_r ratio)
                                  (round (inject_Z 255))) <= 255)%Z).
  { apply scale_u8_range with (lo := 1) (hi := 257 # 256);
      [exact Hr | lra | rep | rep | vm_compute; discriminate
      | vm_compute; reflexivity | lia | lia]. }
  destruct Sr as [Er Br].
  rewrite Sg, Er.
  replace (trunc (mul (channel_r ratio) (round (inject_Z 255))))
    with 255%Z by lia.
  reflexivity.
Qed.

End ColorRamp.

(** *** Validity is preserved by the arithmetic *)

Lemma mul_valid (x y : f32) : valid (mul x y) = true.
Proof.
  destruct x as [s1|s1| |s1 m1 e1], y as [s2|s2| |s2 m2 e2]; trivial.
  unfold mul. apply round_mag_valid.
  pose proof (mag_pos m1 e1). pose proof (mag_pos m2 e2). nra.
Qed.

Lemma div_valid (x y : f32) : valid (div x y) = true.
Proof.
  destruct x as [s1|s1| |s1 m1 e1], y as [s2|s2| |s2 m2 e2]; trivial.
  unfold div. apply round_mag_valid.
  pose proof (mag_pos m1 e1). pose proof (mag_pos m2 e2).
  apply Qlt_shift_div_l; lra.
Qed.

Lemma add_valid (x y : f32) :
  valid x = true -> valid y = true -> valid (add x y) = true.
Proof.
  intros Vx Vy.
  destruct x as [s1|s1| |s1 m1 e1], y as [s2|s2| |s2 m2 e2]; trivial.
  - simpl. now destruct (Bool.eqb s1 s2).
  - unfold add. apply round_valid.
Qed.

(** *** Strictly positive floats and the speed keys *)

Lemma positive_float_ltb (x : f32) :
  positive_float x -> ltb (Zero false) x = true.
Proof.
  destruct x as [s|[|]| |[|] m e]; simpl; try contradiction; trivial.
  intros _. pose proof (mag_pos m e).
  destruct (Qle_bool (mag m e) 0) eqn:Hb; trivial.
  apply Qle_bool_iff in Hb. lra.
Qed.

Lemma positive_float_valid (x : f32) : positive_float x -> valid x = true.
Proof. destruct x as [s|[|]| |[|] m e]; simpl; try contradiction; trivial. Qed.

Lemma lit_12_10 : round (12 # 10) = Fin false 10066330 (-23).
Proof. vm_compute. reflexivity. Qed.

Lemma lit_12_10_bounds :
  1 <= mag 10066330 (-23) /\ mag 10066330 (-23) < 2.
Proof.
  split.
  - apply Qle_bool_iff. vm_compute. reflexivity.
  - apply Qnot_le_lt. intro H. apply Qle_bool_iff in H. vm_compute in H.
    discriminate.
Qed.

Lemma mag_ge_smallest (m : positive) (e : Z) :
  (emin <= e)%Z -> two_p emin <= mag m e.
Proof.
  intro He. unfold mag.
  assert (1 <= inject_Z (Zpos m)).
  { change 1 with (inject_Z 1). rewrite <- Zle_Qle. lia. }
  pose proof (two_p_le He). pose proof (two_p_pos emin). nra.
Qed.

(** [timeScale *= 1.2f] keeps a positive scale positive. *)
Lemma mul_speed_positive (x : f32) :
  positive_float x -> positive_float (mul x (round (12 # 10))).
Proof.
  rewrite lit_12_10. intro Hv.
  destruct x as [s|[|]| |[|] m e]; cbn [positive_float] in Hv;
    try contradiction; [exact I|].
  apply valid_Fin in Hv. destruct Hv as (_ & He & _).
  pose proof (mag_ge_smallest m He) as Hm.
  destruct lit_12_10_bounds as [Hc _].
  assert (Hlow : mag 1 emin <= mag m e * mag 10066330 (-23)).
  { unfold mag at 1. change (inject_Z 1) with 1.
    pose proof (two_p_pos emin). nra. }
  unfold mul. simpl xorb.
  destruct (@round_mag_ge false _ 1%positive emin Hlow eq_refl)
    as [R|(m' & e' & R & Hv' & _)]; rewrite R; [exact I | exact Hv'].
Qed.

(** [timeScale /= 1.2f] keeps a positive scale positive: the quotient of
    the smallest subnormal by 1.2 is above half of it and rounds back up
    to it. *)
Lemma div_speed_positive (x : f32) :
  positive_float x -> positive_float (div x (round (12 # 10))).
Proof.
  rewrite lit_12_10. intro Hv.
  destruct x as [s|[|]| |[|] m e]; cbn [positive_float] in Hv;
    try contradiction; [exact I|].
  apply valid_Fin in Hv. destruct Hv as (_ & He & _).
  pose proof (mag_ge_smallest m He) as Hm.
  destruct lit_12_10_bounds as [Hc1 Hc2].
  assert (Hlow : two_p (emin - 1) < mag m e / mag 10066330 (-23)).
  { apply Qlt_shift_div_l; [lra|].
    pose proof (two_p_succ (emin - 1)) as T.
    replace (emin - 1 + 1)%Z with emin in T by ring.
    pose proof (two_p_pos (emin - 1)). nra. }
  unfold div. simpl xorb.
  destruct (@round_mag_nonzero false _ Hlow)
    as [R|(m' & e' & R & Hv')]; rewrite R; [exact I | exact Hv'].
Qed.

(** *** Adding a non-negative increment *)

Lemma ltb_irrefl (x : f32) : ltb x x = false.
Proof.
  assert (Q : forall q, negb (Qle_bool q q) = false).
  { intro q. apply negb_false_iff. apply Qle_bool_iff. lra. }
  destruct x as [s|[|]| |s m e]; trivial; apply Q.
Qed.

(** The product of a non-negative float and a positive one is a NaN, a
    zero, [+inf] or a positive number. *)
Lemma mul_nonneg_shape (dt ts : f32) :
  leb (Zero false) dt = true -> positive_float ts ->
  mul dt ts = NaN \/ (exists s, mul dt ts = Zero s) \/
  mul dt ts = Inf false \/
  exists m e, mul dt ts = Fin false m e /\ valid (Fin false m e) = true.
Proof.
  intros Hdt Hts.
  destruct ts as [s2|[|]| |[|] m2 e2]; simpl in Hts; try contradiction.
  - destruct dt as [s1|[|]| |[|] m1 e1]; simpl in *; try discriminate; auto.
    exfalso. pose proof (mag_pos m1 e1).
    apply Qle_bool_iff in Hdt. lra.
  - destruct dt as [s1|[|]| |[|] m1 e1]; try discriminate.
    + right; left. now exists (xorb s1 false).
    + right; right; now left.
    + exfalso. simpl in Hdt. pose proof (mag_pos m1 e1).
      apply Qle_bool_iff in Hdt. lra.
    + unfold mul. simpl xorb.
      assert (Ha : 0 < mag m1 e1 * mag m2 e2).
      { pose proof (mag_pos m1 e1). pose proof (mag_pos m2 e2). nra. }
      destruct (@round_mag_shape false _ Ha) as [R|[R|(m & e & R & Hv)]];
        rewrite R.
      * right; left. now exists false.
      * right; right; now left.
      * right; right; right. now exists m, e.
Qed.

Lemma add_nonneg_not_less (total inc : f32) :
  valid total = true ->
  (inc = NaN \/ (exists s, inc = Zero s) \/ inc = Inf false \/
   exists m e, inc = Fin false m e /\ valid (Fin false m e) = true) ->
  ltb (add total inc) total = false.
Proof.
  intros Vt [E|[(s & E)|[E|(m & e & E & Vi)]]]; subst inc.
  - now destruct total.
  - destruct total as [s1|s1| |s1 m1 e1]; trivial.
    + apply (ltb_irrefl (Inf s1)).
    + apply (ltb_irrefl (Fin s1 m1 e1)).
  - destruct total as [s1|[|]| |s1 m1 e1]; trivial.
  - destruct total as [s1|s1| |s1 m1 e1]; trivial.
    + simpl. pose proof (mag_pos m e).
      apply negb_false_iff, Qle_bool_iff. lra.
    + apply (ltb_irrefl (Inf s1)).
    + unfold add.
      assert (Hq : val (Fin s1 m1 e1) <= val (Fin s1 m1 e1) + val (Fin false m e)).
      { pose proof (mag_pos m e). simpl val at 3. lra. }
      destruct (round_lower Hq (representable_val (Fin s1 m1 e1) eq_refl Vt))
        as [R|(Fr & Vr & Lr)].
      * rewrite R. reflexivity.
      * destruct (ltb _ (Fin s1 m1 e1)) eqn:Hb; trivial.
        apply ltb_finite in Hb; trivial. lra.
Qed.

(** *** The clock of the frame loop on binary32 *)

Section Clock.

Variable lm : Libm.

Lemma startup_clock_ok (ps : list (Pendulum (F := f32))) :
  clock_ok (startup ps).
Proof. split; reflexivity. Qed.

Lemma handle_event_clock_ok (ev : Event) (s : Sim (F := f32)) :
  clock_ok s -> clock_ok (handle_event ev s).
Proof.
  intros [Hp Hv].
  destruct ev as [|[ | | | | | | | ]| |]; split; cbn; trivial;
    solve [apply mul_speed_positive; assumption
          |apply div_speed_positive; assumption].
Qed.

Lemma poll_events_clock_ok (evs : list Event) (s : Sim (F := f32)) :
  clock_ok s -> clock_ok (poll_events evs s).
Proof.
  revert s. unfold poll_events.
  induction evs as [|ev evs IH]; intros s Hs; cbn [fold_left].
  - exact Hs.
  - apply IH. now apply handle_event_clock_ok.
Qed.

Lemma advance_valid (dt ts total : f32) (p : bool) :
  valid total = true -> valid (advance dt ts p total) = true.
Proof.
  intro Hv. unfold advance. destruct p; trivial.
  cbn [f_add f_mul b32_ops]. apply add_valid; trivial. apply mul_valid.
Qed.

Lemma frame_clock_ok (evs : list Event) (dt : f32) (s : Sim (F := f32)) :
  clock_ok s -> clock_ok (frame (lib := b32_lib lm) evs dt s).
Proof.
  intro Hs. destruct (poll_events_clock_ok evs Hs) as [Hp Hv].
  split; cbn [frame timeScale totalSimTime]; trivial.
  now apply advance_valid.
Qed.

Lemma run_clock_ok (frames : list (list Event * f32)) (s : Sim (F := f32)) :
  clock_ok s -> clock_ok (run (lib := b32_lib lm) frames s).
Proof.
  revert s. induction frames as [|[evs dt] rest IH]; intros s Hs; cbn [run].
  - exact Hs.
  - destruct (windowOpen s); [|exact Hs].
    apply IH. now apply frame_clock_ok.
Qed.

Lemma advance_not_backward (dt ts total : f32) (p : bool) :
  valid total = true -> positive_float ts ->
  leb (Zero false) dt && ltb (advance dt ts p total) total
  = false.
Proof.
  intros Hv Hts.
  destruct (leb (Zero false) dt) eqn:Hdt; trivial. cbn [andb].
  unfold advance. destruct p; [apply ltb_irrefl|].
  cbn [f_add f_mul b32_ops].
  apply add_nonneg_not_less; trivial.
  now apply mul_nonneg_shape.
Qed.

End Clock.

End B32Facts.

(** ** Rounding is monotone *)

Module B32Order.
Import B32 B32Facts.
Local Open Scope Q_scope.

Lemma ilog2_compat (a a' : Q) : 0 < a -> a == a' -> ilog2 a = ilog2 a'.
Proof.
  intros Ha E. assert (Ha' : 0 < a') by lra.
  destruct (ilog2_spec Ha') as [H1 H2].
  apply ilog2_unique; lra.
Qed.

Lemma round_mag_compat (s : bool) (a a' : Q) :
  0 < a -> a == a' -> round_mag s a = round_mag s a'.
Proof.
  intros Ha E. unfold round_mag, fexp.
  rewrite (ilog2_compat Ha E).
  f_equal. apply rne_compat. now rewrite E.
Qed.

Lemma round_compat (q q' : Q) : q == q' -> round q = round q'.
Proof.
  intro E. unfold round.
  destruct (Qcompare_spec q 0) as [H|H|H];
    destruct (Qcompare_spec q' 0) as [H'|H'|H']; try lra; trivial.
  - apply round_mag_compat; lra.
  - apply round_mag_compat; lra.
Qed.

(** The value of a finite rounded magnitude. *)
Lemma round_mag_val (s : bool) (a : Q) :
  0 < a -> finite (round_mag s a) = true ->
  val (round_mag s a)
  == (if s then - (inject_Z (rne (a / two_p (fexp a))) * two_p (fexp a))
      else inject_Z (rne (a / two_p (fexp a))) * two_p (fexp a)).
Proof.
  intros Ha Hf.
  destruct (@round_mag_cases s a Ha) as (_ & _ & _ & C). cbv zeta in C.
  destruct C as [(Hz & C)|[(_ & C & _)|(_ & m & e & C & _ & Hm)]].
  - rewrite C, Hz. change (inject_Z 0) with 0. destruct s; simpl; ring.
  - rewrite C in Hf. discriminate.
  - rewrite C. destruct s; cbn [val]; rewrite Hm; reflexivity.
Qed.

Lemma scaled_mono (a b : Q) :
  0 < a -> a <= b ->
  inject_Z (rne (a / two_p (fexp a))) * two_p (fexp a)
  <= inject_Z (rne (b / two_p (fexp b))) * two_p (fexp b).
Proof.
  intros Ha Hab. assert (Hb : 0 < b) by lra.
  pose proof (fexp_mono Ha Hab) as He.
  destruct (@round_mag_cases false a Ha) as (_ & [_ Hna] & _ & _).
  destruct (@round_mag_cases false b Hb) as (Hemin & _ & Hnb & _).
  cbv zeta in *.
  pose proof (two_p_pos (fexp a)) as Ta. pose proof (two_p_pos (fexp b)) as Tb.
  destruct (Z.eq_dec (fexp a) (fexp b)) as [E|NE].
  - rewrite E in *. apply Qmult_le_compat_r; [|lra].
    rewrite <- Zle_Qle. apply rne_mono.
    apply Qmult_le_compat_r; [assumption|].
    apply Qlt_le_weak, Qinv_lt_0_compat. assumption.
  - assert (Hlt : (fexp a < fexp b)%Z) by lia.
    pose proof (fexp_ge_emin a) as Hea.
    specialize (Hnb ltac:(lia)).
    assert (A : inject_Z (rne (a / two_p (fexp a))) <= two_p prec).
    { rewrite <- (@two_p_inject prec) by (unfold prec; lia).
      now rewrite <- Zle_Qle. }
    assert (B : two_p (prec - 1) <= inject_Z (rne (b / two_p (fexp b)))).
    { rewrite <- (@two_p_inject (prec - 1)) by (unfold prec; lia).
      now rewrite <- Zle_Qle. }
    assert (C : two_p (prec + fexp a) <= two_p (prec - 1 + fexp b))
      by (apply two_p_le; lia).
    rewrite !two_p_plus in C.
    pose proof (two_p_pos prec). pose proof (two_p_pos (prec - 1)).
    assert (A' : inject_Z (rne (a / two_p (fexp a))) * two_p (fexp a)
                 <= two_p prec * two_p (fexp a))
      by (apply Qmult_le_compat_r; lra).
    assert (B' : two_p (prec - 1) * two_p (fexp b)
                 <= inject_Z (rne (b / two_p (fexp b))) * two_p (fexp b))
      by (apply Qmult_le_compat_r; lra).
    lra.
Qed.

Lemma scaled_nonneg (a : Q) :
  0 < a -> 0 <= inject_Z (rne (a / two_p (fexp a))) * two_p (fexp a).
Proof.
  intro Ha.
  destruct (@round_mag_cases false a Ha) as (_ & [Hn _] & _ & _).
  cbv zeta in Hn. rewrite Zle_Qle in Hn. change (inject_Z 0) with 0 in Hn.
  pose proof (two_p_pos (fexp a)). nra.
Qed.

(** Round-to-nearest is monotone on the rationals it takes to finite
    floats. *)
Lemma round_mono (q1 q2 : Q) :
  q1 <= q2 -> finite (round q1) = true -> finite (round q2) = true ->
  val (round q1) <= val (round q2).
Proof.
  intros H F1 F2. unfold round in *.
  destruct (Qcompare_spec q1 0) as [E1|L1|G1];
    destruct (Qcompare_spec q2 0) as [E2|L2|G2]; try lra.
  - rewrite (round_mag_val false G2 F2). simpl val.
    now apply scaled_nonneg.
  - rewrite (round_mag_val true (a := - q1)) by (trivial; lra).
    simpl val. pose proof (@scaled_nonneg (- q1) ltac:(lra)). lra.
  - rewrite (round_mag_val true (a := - q1)) by (trivial; lra).
    rewrite (round_mag_val true (a := - q2)) by (trivial; lra).
    pose proof (@scaled_mono (- q2) (- q1) ltac:(lra) ltac:(lra)). lra.
  - rewrite (round_mag_val true (a := - q1)) by (trivial; lra).
    rewrite (round_mag_val false G2 F2).
    pose proof (@scaled_nonneg (- q1) ltac:(lra)).
    pose proof (@scaled_nonneg q2 G2). lra.
  - rewrite (round_mag_val false G1 F1), (round_mag_val false G2 F2).
    now apply scaled_mono.
Qed.

(** Rounding the value of a float gives that value back. *)
Lemma round_val (x : f32) :
  finite x = true -> valid x = true ->
  finite (round (val x)) = true /\ val (round (val x)) == val x.
Proof.
  intros F V.
  pose proof (representable_val x F V) as R.
  destruct (@round_in_range (val x) (val x) (val x)) as (Fr & _ & L & U);
    trivial; try lra.
  split; [exact Fr | lra].
Qed.

(** *** The operations through the rounding of their exact result *)

Lemma mul_round (x y : f32) :
  finite x = true -> finite y = true ->
  finite (mul x y) = finite (round (val x * val y)) /\
  val (mul x y) == val (round (val x * val y)).
Proof.
  intros Fx Fy.
  destruct x as [s1|s1| |s1 m1 e1]; try discriminate;
    destruct y as [s2|s2| |s2 m2 e2]; try discriminate.
  - assert (E : round (val (Zero s1) * val (Zero s2)) = Zero false)
      by (apply (round_compat (q' := 0)); simpl; ring).
    rewrite E. split; reflexivity.
  - assert (E : round (val (Zero s1) * val (Fin s2 m2 e2)) = Zero false).
    { apply (round_compat (q' := 0)). change (val (Zero s1)) with 0. ring. }
    rewrite E. split; reflexivity.
  - assert (E : round (val (Fin s1 m1 e1) * val (Zero s2)) = Zero false).
    { apply (round_compat (q' := 0)). change (val (Zero s2)) with 0. ring. }
    rewrite E. split; reflexivity.
  - pose proof (mag_pos m1 e1). pose proof (mag_pos m2 e2).
    assert (P : 0 < mag m1 e1 * mag m2 e2) by nra.
    assert (E : round (val (Fin s1 m1 e1) * val (Fin s2 m2 e2))
                = round_mag (xorb s1 s2) (mag m1 e1 * mag m2 e2)).
    { unfold round. rewrite !val_Fin.
      destruct s1, s2; cbn [xorb].
      - assert (X : - mag m1 e1 * - mag m2 e2 == mag m1 e1 * mag m2 e2)
          by ring.
        assert (C : (- mag m1 e1 * - mag m2 e2 ?= 0) = Gt)
          by (apply -> Qgt_alt; rewrite X; exact P).
        rewrite C. apply round_mag_compat; [rewrite X; exact P | exact X].
      - assert (X : - (- mag m1 e1 * mag m2 e2) == mag m1 e1 * mag m2 e2)
          by ring.
        assert (C : (- mag m1 e1 * mag m2 e2 ?= 0) = Lt)
          by (apply -> Qlt_alt; nra).
        rewrite C. apply round_mag_compat; [rewrite X; exact P | exact X].
      - assert (X : - (mag m1 e1 * - mag m2 e2) == mag m1 e1 * mag m2 e2)
          by ring.
        assert (C : (mag m1 e1 * - mag m2 e2 ?= 0) = Lt)
          by (apply -> Qlt_alt; nra).
        rewrite C. apply round_mag_compat; [rewrite X; exact P | exact X].
      - assert (C : (mag m1 e1 * mag m2 e2 ?= 0) = Gt)
          by (apply -> Qgt_alt; exact P).
        rewrite C. reflexivity. }
    rewrite E. split; reflexivity.
Qed.

Lemma add_round (x y : f32) :
  finite x = true -> finite y = true ->
  valid x = true -> valid y = true ->
  finite (add x y) = finite (round (val x + val y)) /\
  val (add x y) == val (round (val x + val y)).
Proof.
  intros Fx Fy Vx Vy.
  destruct x as [s1|s1| |s1 m1 e1]; try discriminate;
    destruct y as [s2|s2| |s2 m2 e2]; try discriminate.
  - assert (E : round (val (Zero s1) + val (Zero s2)) = Zero false)
      by (apply (round_compat (q' := 0)); simpl; ring).
    rewrite E. split; reflexivity.
  - assert (E : round (val (Zero s1) + val (Fin s2 m2 e2))
                = round (val (Fin s2 m2 e2))).
    { apply round_compat. change (val (Zero s1)) with 0. ring. }
    rewrite E. destruct (round_val (Fin s2 m2 e2) Fy Vy) as [F R].
    unfold add. rewrite F, R. split; reflexivity.
  - assert (E : round (val (Fin s1 m1 e1) + val (Zero s2))
                = round (val (Fin s1 m1 e1))).
    { apply round_compat. change (val (Zero s2)) with 0. ring. }
    rewrite E. destruct (round_val (Fin s1 m1 e1) Fx Vx) as [F R].
    unfold add. rewrite F, R. split; reflexivity.
  - unfold add. split; reflexivity.
Qed.

Lemma sub_round (x y : f32) :
  finite x = true -> finite y = true ->
  valid x = true -> valid y = true ->
  finite (sub x y) = finite (round (val x - val y)) /\
  val (sub x y) == val (round (val x - val y)).
Proof.
  intros Fx Fy Vx Vy. unfold sub.
  destruct (@add_round x (neg y)) as [F V];
    rewrite ?finite_neg, ?valid_neg; trivial.
  assert (E : round (val x + val (neg y)) = round (val x - val y)).
  { apply round_compat. rewrite val_neg. ring. }
  rewrite E in F, V. split; assumption.
Qed.

(** Monotonicity of the operations on finite results. *)
Lemma mul_mono_r (x1 x2 c : f32) :
  finite x1 = true -> finite x2 = true -> finite c = true ->
  0 <= val c -> val x1 <= val x2 ->
  finite (mul x1 c) = true -> finite (mul x2 c) = true ->
  val (mul x1 c) <= val (mul x2 c).
Proof.
  intros F1 F2 Fc Hc H M1 M2.
  destruct (mul_round x1 c F1 Fc) as [E1 V1].
  destruct (mul_round x2 c F2 Fc) as [E2 V2].
  rewrite V1, V2. apply round_mono; try congruence. nra.
Qed.

Lemma sub_mono_l (c x1 x2 : f32) :
  finite x1 = true -> finite x2 = true -> finite c = true ->
  valid x1 = true -> valid x2 = true -> valid c = true ->
  val x1 <= val x2 ->
  finite (sub c x1) = true -> finite (sub c x2) = true ->
  val (sub c x2) <= val (sub c x1).
Proof.
  intros F1 F2 Fc V1 V2 Vc H S1 S2.
  destruct (sub_round c x1 Fc F1 Vc V1) as [E1 W1].
  destruct (sub_round c x2 Fc F2 Vc V2) as [E2 W2].
  rewrite W1, W2. apply round_mono; try congruence. lra.
Qed.

Lemma sub_mono_r (x1 x2 c : f32) :
  finite x1 = true -> finite x2 = true -> finite c = true ->
  valid x1 = true -> valid x2 = true -> valid c = true ->
  val x1 <= val x2 ->
  finite (sub x1 c) = true -> finite (sub x2 c) = true ->
  val (sub x1 c) <= val (sub x2 c).
Proof.
  intros F1 F2 Fc V1 V2 Vc H S1 S2.
  destruct (sub_round x1 c F1 Fc V1 Vc) as [E1 W1].
  destruct (sub_round x2 c F2 Fc V2 Vc) as [E2 W2].
  rewrite W1, W2. apply round_mono; try congruence. lra.
Qed.

End B32Order.

(** ** The shape of the colour ramp *)

Module B32Ramp.
Import B32 B32Facts B32Order.
Local Open Scope Q_scope.

Ltac closed := vm_compute; reflexivity || discriminate.

(** Side conditions on constants and on floats known to be in range. *)
Ltac side :=
  match goal with
  | |- finite (round _) = true => closed
  | |- valid (round _) = true => closed
  | |- 0 <= val (round _) => closed
  | H : in_range _ _ ?x |- finite ?x = true => exact (proj1 H)
  | H : in_range _ _ ?x |- valid ?x = true => exact (proj1 (proj2 H))
  end.

(** Every intermediate float of the three channels, for a ratio in
    [[0, 1]]. *)
Lemma ramp_ranges (ratio : f32) :
  in_range 0 1 ratio ->
  in_range 0 2 (mul ratio (round 2)) /\
  in_range (- (1)) 1 (sub (round 1) (mul ratio (round 2))) /\
  in_range (- (1 # 2)) (1 # 2) (sub ratio (round (1 # 2))) /\
  in_range 0 (1 # 2) (abs (sub ratio (round (1 # 2)))) /\
  in_range 0 1 (mul (abs (sub ratio (round (1 # 2)))) (round 2)) /\
  in_range (- (1)) 1 (mul (sub ratio (round (1 # 2))) (round 2)).
Proof.
  intro H.
  assert (M : in_range 0 2 (mul ratio (round 2))).
  { eapply mul_const_range with (k := 2);
      [exact H | closed | closed | lra | lra | lra | rep | rep]. }
  assert (S : in_range (- (1)) 1 (sub (round 1) (mul ratio (round 2)))).
  { eapply const_sub_range with (k := 1);
      [exact M | closed | closed | closed | lra | lra | rep | rep]. }
  assert (D : in_range (- (1 # 2)) (1 # 2) (sub ratio (round (1 # 2)))).
  { eapply sub_const_range with (k := 1 # 2);
      [exact H | closed | closed | closed | lra | lra | rep | rep]. }
  assert (A : in_range 0 (1 # 2) (abs (sub ratio (round (1 # 2))))).
  { now apply abs_in_range. }
  assert (N : in_range 0 1 (mul (abs (sub ratio (round (1 # 2)))) (round 2))).
  { eapply mul_const_range with (k := 2);
      [exact A | closed | closed | lra | lra | lra | rep | rep]. }
  assert (P : in_range (- (1)) 1 (mul (sub ratio (round (1 # 2))) (round 2))).
  { eapply mul_const_range with (k := 2);
      [exact D | closed | closed | lra | lra | lra | rep | rep]. }
  repeat split; first [apply M | apply S | apply D | apply A | apply N | apply P].
Qed.

Lemma scaled_range (c : f32) :
  in_range 0 1 c -> in_range 0 255 (mul c (round (inject_Z 255))).
Proof.
  intro H.
  eapply mul_const_range with (k := 255);
    [exact H | closed | closed | lra | lra | lra | rep | rep].
Qed.

Lemma trunc_mono (x1 x2 : f32) :
  in_range 0 255 x1 -> in_range 0 255 x2 -> val x1 <= val x2 ->
  (trunc x1 <= trunc x2)%Z.
Proof.
  intros (F1 & _ & L1 & _) (F2 & _ & L2 & _) H.
  assert (T : forall x, finite x = true -> 0 <= val x ->
              trunc x = Qfloor (val x)).
  { intros x F L. destruct x as [s|s| |[|] m e]; try discriminate; trivial.
    pose proof (mag_pos m e). cbn [val] in L. lra. }
  rewrite (T x1), (T x2) by assumption. now apply Qfloor_resp_le.
Qed.

Lemma max_zero_val (t : f32) :
  finite t = true ->
  val (if ltb (Zero false) t then t else Zero false)
  == (if Qlt_le_dec 0 (val t) then val t else 0).
Proof.
  intro F. destruct (ltb (Zero false) t) eqn:B.
  - apply ltb_finite in B; trivial. cbn [val] in B.
    destruct (Qlt_le_dec 0 (val t)); [reflexivity | lra].
  - destruct (Qlt_le_dec 0 (val t)) as [H|H]; [|reflexivity].
    assert (ltb (Zero false) t = true) by (apply ltb_finite; trivial).
    congruence.
Qed.

Lemma max_zero_mono (t1 t2 : f32) :
  finite t1 = true -> finite t2 = true -> val t1 <= val t2 ->
  val (if ltb (Zero false) t1 then t1 else Zero false)
  <= val (if ltb (Zero false) t2 then t2 else Zero false).
Proof.
  intros F1 F2 H. rewrite !max_zero_val by assumption.
  destruct (Qlt_le_dec 0 (val t1)), (Qlt_le_dec 0 (val t2)); lra.
Qed.

(** The scaled channel is monotone in the channel. *)
Lemma byte_mono (c1 c2 : f32) :
  in_range 0 1 c1 -> in_range 0 1 c2 -> val c1 <= val c2 ->
  (trunc (mul c1 (round (inject_Z 255)))
   <= trunc (mul c2 (round (inject_Z 255))))%Z.
Proof.
  intros H1 H2 H.
  pose proof (scaled_range H1) as S1. pose proof (scaled_range H2) as S2.
  apply trunc_mono; trivial.
  apply mul_mono_r; try side; trivial.
Qed.

Section Channels.

Variables r1 r2 : f32.
Hypothesis H1 : in_range 0 1 r1.
Hypothesis H2 : in_range 0 1 r2.
Hypothesis Hle : val r1 <= val r2.

Lemma doubled_mono : val (mul r1 (round 2)) <= val (mul r2 (round 2)).
Proof.
  destruct (ramp_ranges H1) as (M1 & _). destruct (ramp_ranges H2) as (M2 & _).
  apply mul_mono_r; try side; trivial.
Qed.

Lemma centred_mono :
  val (sub r1 (round (1 # 2))) <= val (sub r2 (round (1 # 2))).
Proof.
  destruct (ramp_ranges H1) as (_ & _ & D1 & _).
  destruct (ramp_ranges H2) as (_ & _ & D2 & _).
  apply sub_mono_r; try side; trivial.
Qed.

Lemma channel_r_mono : val (channel_r r2) <= val (channel_r r1).
Proof.
  rewrite !channel_r_b32. cbv zeta.
  destruct (ramp_ranges H1) as (M1 & S1 & _).
  destruct (ramp_ranges H2) as (M2 & S2 & _).
  apply max_zero_mono; try side; trivial.
  apply sub_mono_l; try side; trivial.
  apply doubled_mono.
Qed.

Lemma channel_b_mono : val (channel_b r1) <= val (channel_b r2).
Proof.
  rewrite !channel_b_b32. cbv zeta.
  destruct (ramp_ranges H1) as (_ & _ & D1 & _ & _ & P1).
  destruct (ramp_ranges H2) as (_ & _ & D2 & _ & _ & P2).
  apply max_zero_mono; try side; trivial.
  apply mul_mono_r; try side; trivial.
  apply centred_mono.
Qed.

(** Green rises while the ratios are at most one half. *)
Lemma channel_g_rises :
  val r2 <= 1 # 2 -> val (channel_g r1) <= val (channel_g r2).
Proof.
  intro Hh. rewrite !channel_g_b32.
  destruct (ramp_ranges H1) as (_ & _ & D1 & A1 & N1 & _).
  destruct (ramp_ranges H2) as (_ & _ & D2 & A2 & N2 & _).
  assert (G1 : in_range 0 1 (channel_g r1)) by apply (channels_unit H1).
  assert (G2 : in_range 0 1 (channel_g r2)) by apply (channels_unit H2).
  rewrite !channel_g_b32 in G1, G2.
  apply sub_mono_l; try side; trivial.
  apply mul_mono_r; try side; trivial.
  rewrite !val_abs.
  pose proof centred_mono as C.
  assert (E2 : val (sub r2 (round (1 # 2))) <= 0).
  { destruct (@sub_round r2 (round (1 # 2))) as [F V]; try side.
    rewrite V.
    assert (Z0 : val (round 0) == 0) by reflexivity.
    rewrite <- Z0. apply round_mono; [| |reflexivity].
    - assert (val (round (1 # 2)) == 1 # 2) by closed. lra.
    - rewrite <- F. apply D2. }
  rewrite !Qabs_neg by lra. lra.
Qed.

(** Green falls once the ratios are at least one half. *)
Lemma channel_g_falls :
  1 # 2 <= val r1 -> val (channel_g r2) <= val (channel_g r1).
Proof.
  intro Hh. rewrite !channel_g_b32.
  destruct (ramp_ranges H1) as (_ & _ & D1 & A1 & N1 & _).
  destruct (ramp_ranges H2) as (_ & _ & D2 & A2 & N2 & _).
  assert (G1 : in_range 0 1 (channel_g r1)) by apply (channels_unit H1).
  assert (G2 : in_range 0 1 (channel_g r2)) by apply (channels_unit H2).
  rewrite !channel_g_b32 in G1, G2.
  apply sub_mono_l; try side; trivial.
  apply mul_mono_r; try side; trivial.
  rewrite !val_abs.
  pose proof centred_mono as C.
  assert (E1 : 0 <= val (sub r1 (round (1 # 2)))).
  { destruct (@sub_round r1 (round (1 # 2))) as [F V]; try side.
    rewrite V.
    assert (Z0 : val (round 0) == 0) by reflexivity.
    rewrite <- Z0. apply round_mono; [|reflexivity|].
    - assert (val (round (1 # 2)) == 1 # 2) by closed. lra.
    - rewrite <- F. apply D1. }
  rewrite !Qabs_pos by lra. lra.
Qed.

End Channels.

(** Past one half the red channel is [+0]; up to one half the blue
    channel is. *)
Lemma channel_r_off (ratio : f32) :
  in_range (1 # 2) 1 ratio -> channel_r ratio = Zero false.
Proof.
  intro H. rewrite channel_r_b32. cbv zeta.
  assert (M : in_range 1 2 (mul ratio (round 2))).
  { eapply mul_const_range with (k := 2);
      [exact H | closed | closed | lra | lra | lra | rep | rep]. }
  assert (S : in_range (- (1)) 0 (sub (round 1) (mul ratio (round 2)))).
  { eapply const_sub_range with (k := 1);
      [exact M | closed | closed | closed | lra | lra | rep | rep]. }
  eapply max_zero_neg; [exact S | lra].
Qed.

Lemma channel_b_off (ratio : f32) :
  in_range 0 (1 # 2) ratio -> channel_b ratio = Zero false.
Proof.
  intro H. rewrite channel_b_b32. cbv zeta.
  assert (D : in_range (- (1 # 2)) 0 (sub ratio (round (1 # 2)))).
  { eapply sub_const_range with (k := 1 # 2);
      [exact H | closed | closed | closed | lra | lra | rep | rep]. }
  assert (M : in_range (- (1)) 0 (mul (sub ratio (round (1 # 2))) (round 2))).
  { eapply mul_const_range with (k := 2);
      [exact D | closed | closed | lra | lra | lra | rep | rep]. }
  eapply max_zero_neg; [exact M | lra].
Qed.

End B32Ramp.

(** *** The green channel off the ramp *)

Module B32Edge.

Import B32 B32Facts B32Order.

Local Open Scope Q_scope.

(** A float that is not finite, or a finite one at or above [lo]. *)
Lemma round_above (q lo : Q) :
  lo <= q -> representable lo ->
  finite (round q) = false \/
  (finite (round q) = true /\ lo <= val (round q)).
Proof.
  intros H R. destruct (round_lower H R) as [E|(F & _ & L)].
  - left. now rewrite E.
  - right. now split.
Qed.

Lemma round_below (q hi : Q) :
  q <= hi -> representable hi ->
  finite (round q) = false \/
  (finite (round q) = true /\ val (round q) <= hi).
Proof.
  intros H R. destruct (round_upper H R) as [E|(F & _ & L)].
  - left. now rewrite E.
  - right. now split.
Qed.

Lemma finite_abs (x : f32) : finite (abs x) = finite x.
Proof. now destruct x. Qed.

Lemma valid_abs (x : f32) : valid x = true -> valid (abs x) = true.
Proof. now destruct x. Qed.

Lemma mul_not_finite (x c : f32) :
  finite x = false -> finite (mul x c) = false \/ exists s, c = Zero s.
Proof.
  destruct x as [s|s| |s m e]; try discriminate; intros _;
    destruct c as [s'|s'| |s' m' e']; auto; right; now exists s'.
Qed.

Lemma sub_not_finite (c x : f32) :
  finite c = true -> finite x = false -> finite (sub c x) = false.
Proof.
  destruct x as [s|s| |s m e]; try discriminate;
    destruct c as [s'|s'| |s' m' e']; try discriminate; reflexivity.
Qed.

(** The distance of the ratio from one half, when the ratio is finite
    and outside [(-1/256, 257/256)]. *)
Lemma centred_far (ratio : f32) :
  finite ratio = true -> valid ratio = true ->
  val ratio <= - (1 # 256) \/ 257 # 256 <= val ratio ->
  let a := abs (sub ratio (round (1 # 2))) in
  finite a = false \/ (finite a = true /\ 129 # 256 <= val a).
Proof.
  intros F V H a. subst a. rewrite finite_abs.
  assert (Fh : finite (round (1 # 2)) = true) by reflexivity.
  assert (Vh : valid (round (1 # 2)) = true) by reflexivity.
  assert (Eh : val (round (1 # 2)) == 1 # 2) by (vm_compute; reflexivity).
  destruct (sub_round ratio (round (1 # 2)) F Fh V Vh) as [Ef Ev].
  rewrite Ef. rewrite val_abs, Ev.
  destruct H as [H|H].
  - destruct (@round_below (val ratio - val (round (1 # 2))) (- (129 # 256)))
      as [N|[Fr Lr]]; [lra | rep | now left |].
    right. split; [exact Fr|]. rewrite Qabs_neg; lra.
  - destruct (@round_above (val ratio - val (round (1 # 2))) (129 # 256))
      as [N|[Fr Lr]]; [lra | rep | now left |].
    right. split; [exact Fr|]. rewrite Qabs_pos; lra.
Qed.

(** The green channel is then not finite, or at most [-1/128]. *)
Lemma channel_g_far (ratio : f32) :
  finite ratio = true -> valid ratio = true ->
  val ratio <= - (1 # 256) \/ 257 # 256 <= val ratio ->
  finite (channel_g ratio) = false \/
  (finite (channel_g ratio) = true /\ val (channel_g ratio) <= - (1 # 128)).
Proof.
  intros F V H. rewrite channel_g_b32.
  set (a := abs (sub ratio (round (1 # 2)))).
  assert (Va : valid a = true).
  { apply valid_abs. apply add_valid; trivial. }
  assert (F1 : finite (round 1) = true) by reflexivity.
  assert (V1 : valid (round 1) = true) by reflexivity.
  assert (E1 : val (round 1) == 1) by (vm_compute; reflexivity).
  assert (F2 : finite (round 2) = true) by reflexivity.
  assert (E2 : val (round 2) == 2) by (vm_compute; reflexivity).
  assert (Hm : finite (mul a (round 2)) = false \/
               (finite (mul a (round 2)) = true /\
                129 # 128 <= val (mul a (round 2)))).
  { destruct (centred_far ratio F V H) as [N|[Fa La]]; fold a in N || fold a in Fa, La.
    - destruct (mul_not_finite a (round 2) N) as [N'|(s & E)];
        [now left | discriminate E].
    - destruct (mul_round a (round 2) Fa F2) as [Ef Ev]. rewrite Ef, Ev.
      apply round_above; [nra | rep]. }
  destruct Hm as [N|[Fm Lm]].
  - left. now apply sub_not_finite.
  - destruct (sub_round (round 1) (mul a (round 2)) F1 Fm V1 (mul_valid a (round 2))) as [Ef Ev].
    rewrite Ef, Ev. apply round_below; [lra | rep].
Qed.

Lemma trunc_negative (x : f32) :
  finite x = true -> val x <= - (1) -> (trunc x < 0)%Z.
Proof.
  intros F H. destruct x as [s|s| |[|] m e]; try discriminate;
    cbn [val trunc] in *; try lra.
  - assert (1 <= Qfloor (mag m e))%Z; [|lia].
    rewrite <- (Qfloor_Z 1). apply Qfloor_resp_le.
    change (inject_Z 1) with 1. lra.
  - pose proof (mag_pos m e). lra.
Qed.

(** A channel that is not finite or at most [-1/128] has no byte. *)
Lemma scale_u8_undefined (c : f32) :
  finite c = false \/ (finite c = true /\ val c <= - (1 # 128)) ->
  scale_u8 c = None.
Proof.
  intro H. unfold scale_u8. cbn [f_to_u8 f_mul f_of_int b32_ops].
  assert (Fc : finite (round (inject_Z 255)) = true) by reflexivity.
  assert (Ec : val (round (inject_Z 255)) == 255) by (vm_compute; reflexivity).
  unfold to_u8.
  destruct H as [N|[F L]].
  - destruct (mul_not_finite c (round (inject_Z 255)) N) as [N'|(s & E)];
      [now rewrite N' | discriminate E].
  - destruct (mul_round c (round (inject_Z 255)) F Fc) as [Ef Ev].
    destruct (@round_below (val c * val (round (inject_Z 255)))
                           (- (255 # 128)))
      as [N|[Fr Lr]]; [nra | rep | |].
    + rewrite Ef, N. reflexivity.
    + assert (T : (trunc (mul c (round (inject_Z 255))) < 0)%Z).
      { apply trunc_negative; [now rewrite Ef|]. rewrite Ev. lra. }
      apply Z.leb_gt in T. rewrite T, andb_false_r. reflexivity.
Qed.

End B32Edge.

(** ** The colour ramp just outside [[0, 1]] *)

Module B32Band.

Import B32 B32Facts B32Order B32Ramp B32Edge.

Local Open Scope Q_scope.

(** *** Floats lie on a grid *)

(** A float of magnitude at least [2^(g + 23)] is an integer multiple of
    [2^g]. *)
Lemma mag_on_grid (m : positive) (e g : Z) :
  (Zpos m < 2 ^ prec)%Z -> two_p (g + 23) <= mag m e ->
  exists n : Z, mag m e == inject_Z n * two_p g.
Proof.
  intros Hm Hlow.
  assert (He : (g <= e)%Z).
  { destruct (Z_lt_le_dec e g) as [Hlt|]; [exfalso | assumption].
    assert (H1 : inject_Z (Zpos m) < two_p prec).
    { rewrite <- two_p_inject by (unfold prec; lia).
      now rewrite <- Zlt_Qlt. }
    assert (H2 : two_p e <= two_p (g - 1)) by (apply two_p_le; lia).
    pose proof (two_p_plus prec (g - 1)) as E.
    replace (prec + (g - 1))%Z with (g + 23)%Z in E by (unfold prec; ring).
    pose proof (two_p_pos e). pose proof (two_p_pos (g - 1)).
    assert (0 < inject_Z (Zpos m)) by reflexivity.
    unfold mag in Hlow. rewrite E in Hlow.
    assert (inject_Z (Zpos m) * two_p e < two_p prec * two_p (g - 1));
      [|lra].
    apply Qle_lt_trans with (inject_Z (Zpos m) * two_p (g - 1)).
    - apply Qmult_le_l; assumption.
    - apply Qmult_lt_r; assumption. }
  exists (Zpos m * 2 ^ (e - g))%Z.
  unfold mag. rewrite inject_Z_mult, two_p_inject by lia.
  replace e with ((e - g) + g)%Z at 1 by ring.
  rewrite two_p_plus. ring.
Qed.

(** Two grid points that differ are at least one step apart. *)
Lemma above_grid_point (m : positive) (e g n : Z) :
  (Zpos m < 2 ^ prec)%Z -> two_p (g + 23) <= mag m e ->
  inject_Z n * two_p g < mag m e ->
  inject_Z (n + 1) * two_p g <= mag m e.
Proof.
  intros Hm Hlow Hgt.
  destruct (@mag_on_grid m e g Hm Hlow) as (k & Ek).
  rewrite Ek in *. pose proof (two_p_pos g) as P.
  assert (Hk : (n < k)%Z).
  { rewrite Zlt_Qlt. apply Qmult_lt_r with (two_p g); assumption. }
  apply Qmult_le_compat_r; [|lra].
  rewrite <- Zle_Qle. lia.
Qed.

(** *** Every intermediate float of the three channels, for a ratio
    within 1/256 of [[0, 1]] *)

Lemma band_ranges (ratio : f32) :
  in_range (- (1 # 256)) (257 # 256) ratio ->
  in_range (- (1 # 128)) (257 # 128) (mul ratio (round 2)) /\
  in_range (- (129 # 128)) (129 # 128)
           (sub (round 1) (mul ratio (round 2))) /\
  in_range (- (129 # 256)) (129 # 256) (sub ratio (round (1 # 2))) /\
  in_range 0 (129 # 256) (abs (sub ratio (round (1 # 2)))) /\
  in_range 0 (129 # 128)
           (mul (abs (sub ratio (round (1 # 2)))) (round 2)) /\
  in_range (- (129 # 128)) (129 # 128)
           (mul (sub ratio (round (1 # 2))) (round 2)) /\
  in_range (- (1 # 128)) 1 (channel_g ratio) /\
  in_range 0 (129 # 128) (channel_r ratio) /\
  in_range 0 (129 # 128) (channel_b ratio).
Proof.
  intro H.
  assert (M : in_range (- (1 # 128)) (257 # 128) (mul ratio (round 2))).
  { eapply mul_const_range with (k := 2);
      [exact H | closed | closed | lra | lra | lra | rep | rep]. }
  assert (S : in_range (- (129 # 128)) (129 # 128)
                       (sub (round 1) (mul ratio (round 2)))).
  { eapply const_sub_range with (k := 1);
      [exact M | closed | closed | closed | lra | lra | rep | rep]. }
  assert (D : in_range (- (129 # 256)) (129 # 256)
                       (sub ratio (round (1 # 2)))).
  { eapply sub_const_range with (k := 1 # 2);
      [exact H | closed | closed | closed | lra | lra | rep | rep]. }
  assert (A : in_range 0 (129 # 256) (abs (sub ratio (round (1 # 2))))).
  { now apply abs_in_range. }
  assert (N : in_range 0 (129 # 128)
                       (mul (abs (sub ratio (round (1 # 2)))) (round 2))).
  { eapply mul_const_range with (k := 2);
      [exact A | closed | closed | lra | lra | lra | rep | rep]. }
  assert (P : in_range (- (129 # 128)) (129 # 128)
                       (mul (sub ratio (round (1 # 2))) (round 2))).
  { eapply mul_const_range with (k := 2);
      [exact D | closed | closed | lra | lra | lra | rep | rep]. }
  assert (G : in_range (- (1 # 128)) 1 (channel_g ratio)).
  { rewrite channel_g_b32.
    eapply const_sub_range with (k := 1);
      [exact N | closed | closed | closed | lra | lra | rep | rep]. }
  assert (R : in_range 0 (129 # 128) (channel_r ratio)).
  { rewrite channel_r_b32. cbv zeta.
    eapply max_zero_in_range; [exact S | lra | lra | right; reflexivity]. }
  assert (B : in_range 0 (129 # 128) (channel_b ratio)).
  { rewrite channel_b_b32. cbv zeta.
    eapply max_zero_in_range; [exact P | lra | lra | right; reflexivity]. }
  repeat split;
    first [apply M | apply S | apply D | apply A | apply N | apply P
          | apply G | apply R | apply B].
Qed.

Lemma band_scaled (c : f32) :
  in_range (- (1 # 128)) (129 # 128) c ->
  in_range (- (255 # 128)) 257 (mul c (round (inject_Z 255))).
Proof.
  intro H.
  eapply mul_const_range with (k := 255);
    [exact H | closed | closed | lra | lra | lra | rep | rep].
Qed.

Lemma band_scaled_mono (c1 c2 : f32) :
  in_range (- (1 # 128)) (129 # 128) c1 ->
  in_range (- (1 # 128)) (129 # 128) c2 ->
  val c1 <= val c2 ->
  val (mul c1 (round (inject_Z 255))) <= val (mul c2 (round (inject_Z 255))).
Proof.
  intros H1 H2 H.
  pose proof (band_scaled H1) as S1. pose proof (band_scaled H2) as S2.
  apply mul_mono_r; try side; trivial.
Qed.

Section BandChannels.

Variables r1 r2 : f32.
Hypothesis H1 : in_range (- (1 # 256)) (257 # 256) r1.
Hypothesis H2 : in_range (- (1 # 256)) (257 # 256) r2.
Hypothesis Hle : val r1 <= val r2.

Lemma band_doubled_mono :
  val (mul r1 (round 2)) <= val (mul r2 (round 2)).
Proof.
  destruct (band_ranges H1) as (M1 & _). destruct (band_ranges H2) as (M2 & _).
  apply mul_mono_r; try side; trivial.
Qed.

Lemma band_centred_mono :
  val (sub r1 (round (1 # 2))) <= val (sub r2 (round (1 # 2))).
Proof.
  destruct (band_ranges H1) as (_ & _ & D1 & _).
  destruct (band_ranges H2) as (_ & _ & D2 & _).
  apply sub_mono_r; try side; trivial.
Qed.

Lemma band_red_falls : val (channel_r r2) <= val (channel_r r1).
Proof.
  rewrite !channel_r_b32. cbv zeta.
  destruct (band_ranges H1) as (M1 & S1 & _).
  destruct (band_ranges H2) as (M2 & S2 & _).
  apply max_zero_mono; try side; trivial.
  apply sub_mono_l; try side; trivial.
  apply band_doubled_mono.
Qed.

Lemma band_blue_rises : val (channel_b r1) <= val (channel_b r2).
Proof.
  rewrite !channel_b_b32. cbv zeta.
  destruct (band_ranges H1) as (_ & _ & D1 & _ & _ & P1 & _).
  destruct (band_ranges H2) as (_ & _ & D2 & _ & _ & P2 & _).
  apply max_zero_mono; try side; trivial.
  apply mul_mono_r; try side; trivial.
  apply band_centred_mono.
Qed.

Lemma band_green_rises :
  val r2 <= 1 # 2 -> val (channel_g r1) <= val (channel_g r2).
Proof.
  intro Hh.
  destruct (band_ranges H1) as (_ & _ & D1 & A1 & N1 & _ & G1 & _).
  destruct (band_ranges H2) as (_ & _ & D2 & A2 & N2 & _ & G2 & _).
  rewrite !channel_g_b32 in *.
  apply sub_mono_l; try side; trivial.
  apply mul_mono_r; try side; trivial.
  rewrite !val_abs.
  pose proof band_centred_mono as C.
  assert (E2 : val (sub r2 (round (1 # 2))) <= 0).
  { destruct (@sub_round r2 (round (1 # 2))) as [F V]; try side.
    rewrite V.
    assert (Z0 : val (round 0) == 0) by reflexivity.
    rewrite <- Z0. apply round_mono; [| |reflexivity].
    - assert (val (round (1 # 2)) == 1 # 2) by closed. lra.
    - rewrite <- F. apply D2. }
  rewrite !Qabs_neg by lra. lra.
Qed.

Lemma band_green_falls :
  1 # 2 <= val r1 -> val (channel_g r2) <= val (channel_g r1).
Proof.
  intro Hh.
  destruct (band_ranges H1) as (_ & _ & D1 & A1 & N1 & _ & G1 & _).
  destruct (band_ranges H2) as (_ & _ & D2 & A2 & N2 & _ & G2 & _).
  rewrite !channel_g_b32 in *.
  apply sub_mono_l; try side; trivial.
  apply mul_mono_r; try side; trivial.
  rewrite !val_abs.
  pose proof band_centred_mono as C.
  assert (E1 : 0 <= val (sub r1 (round (1 # 2)))).
  { destruct (@sub_round r1 (round (1 # 2))) as [F V]; try side.
    rewrite V.
    assert (Z0 : val (round 0) == 0) by reflexivity.
    rewrite <- Z0. apply round_mono; [|reflexivity|].
    - assert (val (round (1 # 2)) == 1 # 2) by closed. lra.
    - rewrite <- F. apply D1. }
  rewrite !Qabs_pos by lra. lra.
Qed.

End BandChannels.

End B32Band.

(** ** Where the colour stops being defined *)

Module B32Thresholds.

Import B32 B32Facts B32Order B32Ramp B32Edge B32Band.

Local Open Scope Q_scope.

(** Comparisons of closed rationals. *)
Ltac qclosed :=
  first [ apply Qle_bool_iff; vm_compute; reflexivity
        | apply Qlt_alt; vm_compute; reflexivity
        | vm_compute; reflexivity ].

Lemma scale_u8_zero : scale_u8 (Zero false) = Some 0%Z.
Proof. vm_compute. reflexivity. Qed.

(** A scaled channel in [(-1, 0]] is the byte 0. *)
Lemma scaled_small_neg (c : f32) (lo : Q) :
  in_range lo 0 (mul c (round (inject_Z 255))) -> - (1) < lo ->
  scale_u8 c = Some 0%Z.
Proof.
  intros Hs Hl.
  assert (Ht : trunc (mul c (round (inject_Z 255))) = 0%Z).
  { eapply trunc_small_neg; [exact Hs | assumption]. }
  unfold scale_u8. cbn [f_to_u8 f_mul f_of_int b32_ops].
  rewrite to_u8_some; [now rewrite Ht | apply Hs | lia].
Qed.

(** A scaled channel in [[255, 256)] is the byte 255. *)
Lemma scaled_full (c : f32) (hi : Q) :
  in_range 255 hi (mul c (round (inject_Z 255))) -> hi < 256 ->
  scale_u8 c = Some 255%Z.
Proof.
  intros Hs Hh.
  assert (Ht : (255 <= trunc (mul c (round (inject_Z 255))) <= 255)%Z).
  { eapply trunc_nonneg_range; [exact Hs | lra | | ].
    - change (inject_Z 255) with 255. lra.
    - change (inject_Z 255 + 1) with 256. exact Hh. }
  unfold scale_u8. cbn [f_to_u8 f_mul f_of_int b32_ops].
  rewrite to_u8_some; [|apply Hs | lia].
  f_equal. lia.
Qed.

(** A scaled channel at or below -1 has no byte. *)
Lemma scaled_negative (c : f32) :
  finite (mul c (round (inject_Z 255))) = true ->
  val (mul c (round (inject_Z 255))) <= - (1) ->
  scale_u8 c = None.
Proof.
  intros F H.
  unfold scale_u8. cbn [f_to_u8 f_mul f_of_int b32_ops]. unfold to_u8.
  pose proof (trunc_negative _ F H) as T.
  apply Z.leb_gt in T. rewrite T, andb_false_r. reflexivity.
Qed.

Lemma green_undefined (ratio : f32) :
  scale_u8 (channel_g ratio) = None -> getColorFromRatio ratio = None.
Proof.
  intro G. unfold getColorFromRatio. rewrite G.
  destruct (scale_u8 (channel_r ratio)); reflexivity.
Qed.

(** Just above 1, up to the float [0x3f804040], the colour is blue. *)
Lemma upper_edge_defined (ratio : f32) :
  in_range 1 (131329 # 131072) ratio ->
  getColorFromRatio ratio = Some (sf.rgb 0 0 255).
Proof.
  intro H.
  assert (Hb : in_range (- (1 # 256)) (257 # 256) ratio).
  { eapply in_range_weaken; [exact H | lra | lra]. }
  assert (H1 : in_range (- (1 # 256)) (257 # 256) (round 1)).
  { repeat split; qclosed. }
  assert (HU : in_range (- (1 # 256)) (257 # 256) (round (131329 # 131072))).
  { repeat split; qclosed. }
  assert (V1 : val (round 1) == 1) by qclosed.
  assert (VU : val (round (131329 # 131072)) == 131329 # 131072) by qclosed.
  destruct H as (F & V & L & U).
  assert (L1 : val (round 1) <= val ratio) by (rewrite V1; exact L).
  assert (LU : val ratio <= val (round (131329 # 131072)))
    by (rewrite VU; exact U).
  destruct (band_ranges Hb) as (M & _ & _ & _ & _ & _ & G & R & B).
  destruct (band_ranges H1) as (_ & _ & _ & _ & _ & _ & G1 & R1 & B1).
  destruct (band_ranges HU) as (_ & _ & _ & _ & _ & _ & GU & RU & BU).
  assert (Er : channel_r ratio = Zero false).
  { rewrite channel_r_b32. cbv zeta.
    assert (M' : in_range 2 (257 # 128) (mul ratio (round 2))).
    { destruct M as (FM & VM & _ & UM). repeat split; trivial.
      assert (E : val (mul (round 1) (round 2)) == 2) by qclosed.
      pose proof (band_doubled_mono H1 Hb L1) as Mo. lra. }
    assert (S : in_range (- (129 # 128)) (- (1))
                         (sub (round 1) (mul ratio (round 2)))).
    { eapply const_sub_range with (k := 1);
        [exact M' | closed | closed | closed | lra | lra | rep | rep]. }
    eapply max_zero_neg; [exact S | lra]. }
  assert (Eg : scale_u8 (channel_g ratio) = Some 0%Z).
  { apply scaled_small_neg
      with (lo := val (mul (channel_g (round (131329 # 131072)))
                           (round (inject_Z 255)))); [|qclosed].
    assert (Gw : in_range (- (1 # 128)) (129 # 128) (channel_g ratio)).
    { eapply in_range_weaken; [exact G | lra | lra]. }
    assert (GUw : in_range (- (1 # 128)) (129 # 128)
                           (channel_g (round (131329 # 131072)))).
    { eapply in_range_weaken; [exact GU | lra | lra]. }
    assert (G1w : in_range (- (1 # 128)) (129 # 128) (channel_g (round 1))).
    { eapply in_range_weaken; [exact G1 | lra | lra]. }
    destruct (band_scaled Gw) as (Fs & Vs & _).
    repeat split; trivial.
    - apply band_scaled_mono; trivial.
      apply (band_green_falls Hb HU LU). lra.
    - assert (E : val (mul (channel_g (round 1)) (round (inject_Z 255))) == 0)
        by qclosed.
      assert (Mo : val (mul (channel_g ratio) (round (inject_Z 255)))
                   <= val (mul (channel_g (round 1)) (round (inject_Z 255)))).
      { apply band_scaled_mono; trivial.
        apply (band_green_falls H1 Hb L1). rewrite V1. lra. }
      lra. }
  assert (Eb : scale_u8 (channel_b ratio) = Some 255%Z).
  { apply scaled_full
      with (hi := val (mul (channel_b (round (131329 # 131072)))
                           (round (inject_Z 255)))); [|qclosed].
    assert (Bw : in_range (- (1 # 128)) (129 # 128) (channel_b ratio)).
    { eapply in_range_weaken; [exact B | lra | lra]. }
    assert (BUw : in_range (- (1 # 128)) (129 # 128)
                           (channel_b (round (131329 # 131072)))).
    { eapply in_range_weaken; [exact BU | lra | lra]. }
    assert (B1w : in_range (- (1 # 128)) (129 # 128) (channel_b (round 1))).
    { eapply in_range_weaken; [exact B1 | lra | lra]. }
    destruct (band_scaled Bw) as (Fs & Vs & _).
    repeat split; trivial.
    - assert (E : val (mul (channel_b (round 1)) (round (inject_Z 255)))
                  == 255) by qclosed.
      assert (Mo : val (mul (channel_b (round 1)) (round (inject_Z 255)))
                   <= val (mul (channel_b ratio) (round (inject_Z 255)))).
      { apply band_scaled_mono; trivial. apply (band_blue_rises H1 Hb L1). }
      lra.
    - apply band_scaled_mono; trivial.
      apply (band_blue_rises Hb HU LU). }
  unfold getColorFromRatio. rewrite Er, scale_u8_zero, Eg, Eb. reflexivity.
Qed.

(** From the next float, [0x3f804041], the green channel scales to -1 or
    below. *)
Lemma upper_edge_undefined (ratio : f32) :
  in_range (8405057 # 8388608) (257 # 256) ratio ->
  getColorFromRatio ratio = None.
Proof.
  intro H.
  assert (Hb : in_range (- (1 # 256)) (257 # 256) ratio).
  { eapply in_range_weaken; [exact H | lra | lra]. }
  assert (HU : in_range (- (1 # 256)) (257 # 256)
                        (round (8405057 # 8388608))).
  { repeat split; qclosed. }
  assert (VU : val (round (8405057 # 8388608)) == 8405057 # 8388608)
    by qclosed.
  destruct H as (F & V & L & U).
  assert (LU : val (round (8405057 # 8388608)) <= val ratio)
    by (rewrite VU; exact L).
  destruct (band_ranges Hb) as (_ & _ & _ & _ & _ & _ & G & _).
  destruct (band_ranges HU) as (_ & _ & _ & _ & _ & _ & GU & _).
  assert (Gw : in_range (- (1 # 128)) (129 # 128) (channel_g ratio)).
  { eapply in_range_weaken; [exact G | lra | lra]. }
  assert (GUw : in_range (- (1 # 128)) (129 # 128)
                         (channel_g (round (8405057 # 8388608)))).
  { eapply in_range_weaken; [exact GU | lra | lra]. }
  apply green_undefined. apply scaled_negative; [apply (band_scaled Gw)|].
  assert (E : val (mul (channel_g (round (8405057 # 8388608)))
                       (round (inject_Z 255))) <= - (1)) by qclosed.
  assert (Mo : val (mul (channel_g ratio) (round (inject_Z 255)))
               <= val (mul (channel_g (round (8405057 # 8388608)))
                           (round (inject_Z 255)))).
  { apply band_scaled_mono; trivial.
    apply (band_green_falls HU Hb LU). rewrite VU. lra. }
  lra.
Qed.

(** Just below 0, down to the float [0xbb008080], the colour is red. *)
Lemma lower_edge_defined (ratio : f32) :
  in_range (- (65793 # 33554432)) 0 ratio ->
  getColorFromRatio ratio = Some (sf.rgb 255 0 0).
Proof.
  intro H.
  assert (Hb : in_range (- (1 # 256)) (257 # 256) ratio).
  { eapply in_range_weaken; [exact H | lra | lra]. }
  assert (H0 : in_range (- (1 # 256)) (257 # 256) (round 0)).
  { repeat split; qclosed. }
  assert (HL : in_range (- (1 # 256)) (257 # 256)
                        (round (- (65793 # 33554432)))).
  { repeat split; qclosed. }
  assert (V0 : val (round 0) == 0) by qclosed.
  assert (VL : val (round (- (65793 # 33554432))) == - (65793 # 33554432))
    by qclosed.
  destruct H as (F & V & L & U).
  assert (L0 : val ratio <= val (round 0)) by (rewrite V0; exact U).
  assert (LL : val (round (- (65793 # 33554432))) <= val ratio)
    by (rewrite VL; exact L).
  destruct (band_ranges Hb) as (_ & _ & D & _ & _ & P & G & R & B).
  destruct (band_ranges H0) as (_ & _ & _ & _ & _ & _ & G0 & R0 & B0).
  destruct (band_ranges HL) as (_ & _ & _ & _ & _ & _ & GL & RL & BL).
  assert (Eb : channel_b ratio = Zero false).
  { rewrite channel_b_b32. cbv zeta.
    assert (P' : in_range (- (129 # 128)) (- (1))
                          (mul (sub ratio (round (1 # 2))) (round 2))).
    { destruct P as (FP & VP & LP & _). repeat split; trivial.
      assert (E : val (mul (sub (round 0) (round (1 # 2))) (round 2))
                  == - (1)) by qclosed.
      destruct (band_ranges H0) as (_ & _ & D0 & _ & _ & P0 & _).
      assert (Mo : val (mul (sub ratio (round (1 # 2))) (round 2))
                   <= val (mul (sub (round 0) (round (1 # 2))) (round 2))).
      { apply mul_mono_r; try side; trivial.
        apply (band_centred_mono Hb H0 L0). }
      lra. }
    eapply max_zero_neg; [exact P' | lra]. }
  assert (Eg : scale_u8 (channel_g ratio) = Some 0%Z).
  { apply scaled_small_neg
      with (lo := val (mul (channel_g (round (- (65793 # 33554432))))
                           (round (inject_Z 255)))); [|qclosed].
    assert (Gw : in_range (- (1 # 128)) (129 # 128) (channel_g ratio)).
    { eapply in_range_weaken; [exact G | lra | lra]. }
    assert (GLw : in_range (- (1 # 128)) (129 # 128)
                           (channel_g (round (- (65793 # 33554432))))).
    { eapply in_range_weaken; [exact GL | lra | lra]. }
    assert (G0w : in_range (- (1 # 128)) (129 # 128) (channel_g (round 0))).
    { eapply in_range_weaken; [exact G0 | lra | lra]. }
    destruct (band_scaled Gw) as (Fs & Vs & _).
    repeat split; trivial.
    - apply band_scaled_mono; trivial.
      apply (band_green_rises HL Hb LL). lra.
    - assert (E : val (mul (channel_g (round 0)) (round (inject_Z 255))) == 0)
        by qclosed.
      assert (Mo : val (mul (channel_g ratio) (round (inject_Z 255)))
                   <= val (mul (channel_g (round 0)) (round (inject_Z 255)))).
      { apply band_scaled_mono; trivial.
        apply (band_green_rises Hb H0 L0). rewrite V0. lra. }
      lra. }
  assert (Er : scale_u8 (channel_r ratio) = Some 255%Z).
  { apply scaled_full
      with (hi := val (mul (channel_r (round (- (65793 # 33554432))))
                           (round (inject_Z 255)))); [|qclosed].
    assert (Rw : in_range (- (1 # 128)) (129 # 128) (channel_r ratio)).
    { eapply in_range_weaken; [exact R | lra | lra]. }
    assert (RLw : in_range (- (1 # 128)) (129 # 128)
                           (channel_r (round (- (65793 # 33554432))))).
    { eapply in_range_weaken; [exact RL | lra | lra]. }
    assert (R0w : in_range (- (1 # 128)) (129 # 128) (channel_r (round 0))).
    { eapply in_range_weaken; [exact R0 | lra | lra]. }
    destruct (band_scaled Rw) as (Fs & Vs & _).
    repeat split; trivial.
    - assert (E : val (mul (channel_r (round 0)) (round (inject_Z 255)))
                  == 255) by qclosed.
      assert (Mo : val (mul (channel_r (round 0)) (round (inject_Z 255)))
                   <= val (mul (channel_r ratio) (round (inject_Z 255)))).
      { apply band_scaled_mono; trivial. apply (band_red_falls Hb H0 L0). }
      lra.
    - apply band_scaled_mono; trivial.
      apply (band_red_falls HL Hb LL). }
  unfold getColorFromRatio. rewrite Er, Eg, Eb, scale_u8_zero. reflexivity.
Qed.

(** From the next float below, [0xbb008081], the green channel scales to
    -1 or below. *)
Lemma lower_edge_undefined (ratio : f32) :
  in_range (- (1 # 256)) (- (8421505 # 4294967296)) ratio ->
  getColorFromRatio ratio = None.
Proof.
  intro H.
  assert (Hb : in_range (- (1 # 256)) (257 # 256) ratio).
  { eapply in_range_weaken; [exact H | lra | lra]. }
  assert (HL : in_range (- (1 # 256)) (257 # 256)
                        (round (- (8421505 # 4294967296)))).
  { repeat split; qclosed. }
  assert (VL : val (round (- (8421505 # 4294967296)))
               == - (8421505 # 4294967296)) by qclosed.
  destruct H as (F & V & L & U).
  assert (LL : val ratio <= val (round (- (8421505 # 4294967296))))
    by (rewrite VL; exact U).
  destruct (band_ranges Hb) as (_ & _ & _ & _ & _ & _ & G & _).
  destruct (band_ranges HL) as (_ & _ & _ & _ & _ & _ & GL & _).
  assert (Gw : in_range (- (1 # 128)) (129 # 128) (channel_g ratio)).
  { eapply in_range_weaken; [exact G | lra | lra]. }
  assert (GLw : in_range (- (1 # 128)) (129 # 128)
                         (channel_g (round (- (8421505 # 4294967296))))).
  { eapply in_range_weaken; [exact GL | lra | lra]. }
  apply green_undefined. apply scaled_negative; [apply (band_scaled Gw)|].
  assert (E : val (mul (channel_g (round (- (8421505 # 4294967296))))
                       (round (inject_Z 255))) <= - (1)) by qclosed.
  assert (Mo : val (mul (channel_g ratio) (round (inject_Z 255)))
               <= val (mul (channel_g (round (- (8421505 # 4294967296))))
                           (round (inject_Z 255)))).
  { apply band_scaled_mono; trivial.
    apply (band_green_rises Hb HL LL). rewrite VL. lra. }
  lra.
Qed.

End B32Thresholds.

(** ** The oscillator *)

Section Oscillator.

Context {F : Type} {ops : FloatOps F} {lib : MathLib F}.

Lemma update_update (t u : F) (p : Pendulum) :
  update t (update u p) = update t p.
Proof. reflexivity. Qed.

Lemma update_after_updates (t : F) (us : list F) (p : Pendulum) :
  update t (fold_left (fun q u => update u q) us p) = update t p.
Proof.
  revert p. induction us as [|u us IH]; intro p; cbn [fold_left].
  - reflexivity.
  - rewrite IH. apply update_update.
Qed.

Lemma updates_keep_config (us : list F) (p : Pendulum) :
  let p' := fold_left (fun q u => update u q) us p in
  m_angularFrequency p' = m_angularFrequency p /\
  m_visualLength p' = m_visualLength p /\
  m_amplitudeRad p' = m_amplitudeRad p /\
  m_pivotPoint p' = m_pivotPoint p /\
  m_string0 p' = m_string0 p.
Proof.
  revert p. induction us as [|u us IH]; intro p; cbn [fold_left].
  - repeat split.
  - destruct (IH (update u p)) as (H1 & H2 & H3 & H4 & H5).
    cbv zeta. rewrite H1, H2, H3, H4, H5. repeat split.
Qed.

(** On a default-constructed pendulum the loop body builds
    [pendulum_at]. *)
Lemma setup_at_default (i : Z) :
  setup_at i Pendulum_default
  = option_map (pendulum_at i) (getColorFromRatio (colorRatio i)).
Proof.
  unfold setup_at, pendulum_at.
  now destruct (getColorFromRatio (colorRatio i)).
Qed.

End Oscillator.

(** C1: for every configuration (amplitude A, angular frequency w, visual
    length L, pivot P) and every time t, [update t] puts the bob, and the
    bob end of the string, at
    (P.x + L * sin (A * cos (w * t)), P.y + L * cos (A * cos (w * t))),
    whatever arithmetic interprets the float operations. *)
Theorem update_sets_bob_position :
  forall (F : Type) (ops : FloatOps F) (lib : MathLib F) (A w L : F) (P : sf.Vector2 F)
         (c : sf.Color) (p0 : Pendulum) (t : F),
    let p := update t (setup w L A P c p0) in
    let angle := f_mul A (f_cos (f_mul w t)) in
    let pos :=
      sf.mkVector2 (f_add (sf.x P) (f_mul L (f_sin angle)))
                   (f_add (sf.y P) (f_mul L (f_cos angle))) in
    currentAngle (setup w L A P c p0) t = angle /\
    sf.shapePosition (m_bob p) = pos /\
    sf.position (m_string1 p) = pos.
Proof. intros. repeat split. Qed.

(** C6: [update] is a function of the configuration and the time alone.
    Two pendulums set up with the same configuration get the same
    position at the same time, whatever their earlier state and colour;
    and an update after any sequence of earlier updates, at times in any
    order, gives the very state of that update alone, so repeating a call
    changes nothing and nothing accumulates. *)
Theorem update_deterministic_idempotent :
  forall (F : Type) (ops : FloatOps F) (lib : MathLib F) (A w L : F) (P : sf.Vector2 F)
         (c c' : sf.Color) (p0 q0 p : Pendulum) (t : F) (earlier : list F),
    sf.shapePosition (m_bob (update t (setup w L A P c p0))) =
    sf.shapePosition (m_bob (update t (setup w L A P c' q0))) /\
    update t (update t p) = update t p /\
    update t (fold_left (fun q u => update u q) earlier p) = update t p.
Proof.
  intros. split; [reflexivity|]. split.
  - apply update_update.
  - apply update_after_updates.
Qed.

(** C10: [update] writes the position of the bob and of the bob end of
    the string and nothing else; in particular the four configuration
    fields and the pivot end of the string keep, through any sequence of
    updates, the values [setup] gave them. *)
Theorem update_frame :
  forall (F : Type) (ops : FloatOps F) (lib : MathLib F) (A w L : F) (P : sf.Vector2 F)
         (c : sf.Color) (p0 p : Pendulum) (t : F) (times : list F),
    (let q := update t p in
     m_angularFrequency q = m_angularFrequency p /\
     m_visualLength q = m_visualLength p /\
     m_amplitudeRad q = m_amplitudeRad p /\
     m_pivotPoint q = m_pivotPoint p /\
     m_string0 q = m_string0 p /\
     sf.color (m_string1 q) = sf.color (m_string1 p) /\
     sf.radius (m_bob q) = sf.radius (m_bob p) /\
     sf.origin (m_bob q) = sf.origin (m_bob p) /\
     sf.fillColor (m_bob q) = sf.fillColor (m_bob p) /\
     sf.outlineThickness (m_bob q) = sf.outlineThickness (m_bob p) /\
     sf.outlineColor (m_bob q) = sf.outlineColor (m_bob p)) /\
    (let q := fold_left (fun q u => update u q) times (setup w L A P c p0) in
     m_angularFrequency q = w /\
     m_visualLength q = L /\
     m_amplitudeRad q = A /\
     m_pivotPoint q = P /\
     sf.position (m_string0 q) = P).
Proof.
  intros. split.
  - repeat split.
  - destruct (updates_keep_config times (setup w L A P c p0))
      as (H1 & H2 & H3 & H4 & H5).
    cbv zeta. rewrite H1, H2, H3, H4, H5. repeat split.
Qed.

(** ** The simulation clock *)

Section ClockGeneric.

Context {F : Type} {ops : FloatOps F} {lib : MathLib F}.

Lemma advance_paused_iter (dt ts total : F) (n : nat) :
  Nat.iter n (advance dt ts true) total = total.
Proof. induction n as [|n IH]; cbn [Nat.iter]; [reflexivity | exact IH]. Qed.

Lemma paused_frames_keep_time (dts : list F) (ps : list Pendulum)
    (total ts : F) (w : bool) :
  totalSimTime
    (fold_left (fun st d => frame [] d st) dts (mkSim ps total ts true w))
  = total.
Proof.
  revert ps. induction dts as [|d dts IH]; intro ps; cbn [fold_left].
  - reflexivity.
  - apply IH.
Qed.

Lemma handle_event_timeScale (ev : Event) (s : Sim) :
  timeScale (handle_event ev s) = timeScale s \/
  timeScale (handle_event ev s) = f_mul (timeScale s) (f_lit (12 # 10)) \/
  timeScale (handle_event ev s) = f_div (timeScale s) (f_lit (12 # 10)).
Proof. destruct ev as [|[ | | | | | | | ]| |]; cbn; auto. Qed.

End ClockGeneric.

Lemma add_zero_b32 (x : B32.f32) :
  (B32.add (B32.Zero false) x = x \/
   (x = B32.Zero true /\ B32.add (B32.Zero false) x = B32.Zero false)) /\
  B32.eqb (B32.add (B32.Zero false) x) x = negb (B32.is_nan x).
Proof.
  destruct x as [[|]|[|]| |s m e];
    (split; [(left; reflexivity) || (right; split; reflexivity)|]);
    try reflexivity.
  change (Qeq_bool (B32.val (B32.Fin s m e)) (B32.val (B32.Fin s m e)) = true).
  apply Qeq_bool_iff. reflexivity.
Qed.

(** C4: while paused, advancing the clock any number of times leaves the
    simulated time as it was; unpaused, it adds [dt * timeScale]; and a
    reset followed by an unpaused advance gives [0 + dt * timeScale].
    On binary32 that sum is the float [dt * timeScale] itself, except
    that a product [-0] yields [+0], and it compares equal to the product
    with [==] whenever the product is not a NaN; in exact arithmetic it
    is [dt * timeScale]. *)
Theorem clock_advance_reset :
  forall (F : Type) (ops : FloatOps F) (lib : MathLib F) (dt ts total : F)
         (n : nat) (ps : list Pendulum) (w : bool) (dts : list F) (s : Sim),
    Nat.iter n (advance dt ts true) total = total /\
    totalSimTime
      (fold_left (fun st d => frame [] d st) dts (mkSim ps total ts true w))
    = total /\
    advance dt ts false total = f_add total (f_mul dt ts) /\
    totalSimTime (frame [] dt (mkSim ps total ts false w))
    = f_add total (f_mul dt ts) /\
    totalSimTime (reset s) = f_lit 0 /\
    advance dt ts false (totalSimTime (reset s))
    = f_add (f_lit 0) (f_mul dt ts) /\
    (forall (dt ts : B32.f32) (s : Sim),
       let t' := advance dt ts false (totalSimTime (reset s)) in
       (t' = B32.mul dt ts \/
        (B32.mul dt ts = B32.Zero true /\ t' = B32.Zero false)) /\
       B32.eqb t' (B32.mul dt ts) = negb (B32.is_nan (B32.mul dt ts))) /\
    (forall (dt ts : R) (s : Sim),
       advance dt ts false (totalSimTime (reset s)) = (dt * ts)%R).
Proof.
  intros. split; [apply advance_paused_iter|].
  split; [apply paused_frames_keep_time|].
  repeat (split; [reflexivity|]). split.
  - intros dt' ts' s'. cbv zeta. apply add_zero_b32.
  - intros dt' ts' s'. cbn. unfold Ideal.lit. cbn. lra.
Qed.

(** C9: in every state reached from startup through any frames and
    events, at a frame boundary or between two events of a frame,
    [timeScale] is a strictly positive float.  It starts at
    [1.0f] and an event leaves it alone, multiplies it by [1.2f] or
    divides it by [1.2f]; round-to-nearest never takes such a product or
    quotient of a positive float to zero, the quotient of the smallest
    subnormal rounding back to it.  So for a frame time [dt >= 0] the
    advanced clock is never less than the clock before. *)
Theorem timeScale_stays_positive :
  forall (lm : B32.Libm) (ps : list Pendulum)
         (frames : list (list Event * B32.f32)) (evs : list Event)
         (ev : Event) (dt : B32.f32) (paused : bool),
    let s := run (lib := b32_lib lm) frames (startup ps) in
    timeScale (startup ps) = B32.round 1 /\
    (timeScale (handle_event ev s) = timeScale s \/
     timeScale (handle_event ev s)
       = B32.mul (timeScale s) (B32.round (12 # 10)) \/
     timeScale (handle_event ev s)
       = B32.div (timeScale s) (B32.round (12 # 10))) /\
    B32.ltb (B32.round 0) (timeScale s) = true /\
    B32.ltb (B32.round 0) (timeScale (poll_events evs s)) = true /\
    B32.leb (B32.round 0) dt &&
      B32.ltb (advance dt (timeScale s) paused (totalSimTime s))
              (totalSimTime s) = false.
Proof.
  intros lm ps frames evs ev dt paused s.
  assert (Hs : clock_ok s).
  { apply B32Facts.run_clock_ok, B32Facts.startup_clock_ok. }
  destruct (B32Facts.poll_events_clock_ok evs Hs) as [Hp' _].
  destruct Hs as [Hp Hv].
  split; [reflexivity|]. split.
  - exact (handle_event_timeScale ev s).
  - split; [|split].
    + now apply B32Facts.positive_float_ltb.
    + now apply B32Facts.positive_float_ltb.
    + now apply B32Facts.advance_not_backward.
Qed.

(** ** The colour ramp *)

Lemma in_range_of_float_bounds (lo hi : Q) (x : B32.f32) :
  B32.finite (B32.round lo) = true -> B32.finite (B32.round hi) = true ->
  (B32.val (B32.round lo) == lo)%Q -> (B32.val (B32.round hi) == hi)%Q ->
  B32.valid x = true ->
  B32.leb (B32.round lo) x = true -> B32.leb x (B32.round hi) = true ->
  B32.in_range lo hi x.
Proof.
  intros Fl Fh El Eh Vx L U.
  destruct (@B32Facts.in_range_of_leb (B32.round lo) (B32.round hi) x
              Fl Fh Vx L U) as (F & V & A & B).
  repeat split; trivial.
  - now rewrite <- El.
  - now rewrite <- Eh.
Qed.

(** C8, the claim as stated fails: at ratio 0.25 the red and green float
    channels are 0.5, scaled to 127.5, which the cast truncates to 127
    where rounding to nearest gives 128. *)
Lemma colorFromRatio_rounded_fails :
  B32.leb (B32.round 0) (B32.round (1 # 4)) = true /\
  B32.leb (B32.round (1 # 4)) (B32.round 1) = true /\
  getColorFromRatio (B32.round (1 # 4)) = Some (sf.rgb 127 127 0) /\
  colorFromRatio_rounded (B32.round (1 # 4)) = sf.rgb 128 128 0 /\
  getColorFromRatio (B32.round (1 # 4))
  <> Some (colorFromRatio_rounded (B32.round (1 # 4))).
Proof.
  assert (E1 : getColorFromRatio (B32.round (1 # 4)) = Some (sf.rgb 127 127 0))
    by (vm_compute; reflexivity).
  assert (E2 : colorFromRatio_rounded (B32.round (1 # 4)) = sf.rgb 128 128 0)
    by (vm_compute; reflexivity).
  repeat split; trivial; try (vm_compute; reflexivity).
  rewrite E1, E2. discriminate.
Qed.

(** C8 as amended: for every float ratio in [[0, 1]] each output byte is
    the float channel (r = max(0, 1 - 2*ratio), g = 1 - |ratio - 0.5|*2,
    b = max(0, (ratio - 0.5)*2)) times 255 with its fractional part
    discarded; it lies in 0..255 without any clamping. *)
Theorem colorFromRatio_truncates :
  forall ratio : B32.f32,
    B32.valid ratio = true ->
    B32.leb (B32.round 0) ratio = true ->
    B32.leb ratio (B32.round 1) = true ->
    let byte c := B32.trunc (B32.mul c (B32.round (inject_Z 255))) in
    getColorFromRatio ratio =
      Some (sf.rgb (byte (channel_r ratio)) (byte (channel_g ratio))
                   (byte (channel_b ratio))) /\
    (0 <= byte (channel_r ratio) <= 255)%Z /\
    (0 <= byte (channel_g ratio) <= 255)%Z /\
    (0 <= byte (channel_b ratio) <= 255)%Z.
Proof.
  intros ratio Hv H0 H1.
  apply B32Facts.color_unit.
  apply in_range_of_float_bounds; trivial; vm_compute; reflexivity.
Qed.

Lemma colorFromRatio_truncates_witness :
  getColorFromRatio (B32.round (3 # 4)) =
    Some (sf.rgb
            (B32.trunc (B32.mul (channel_r (B32.round (3 # 4)))
                                (B32.round (inject_Z 255))))
            (B32.trunc (B32.mul (channel_g (B32.round (3 # 4)))
                                (B32.round (inject_Z 255))))
            (B32.trunc (B32.mul (channel_b (B32.round (3 # 4)))
                                (B32.round (inject_Z 255))))).
Proof.
  apply (colorFromRatio_truncates (B32.round (3 # 4)));
    vm_compute; reflexivity.
Defined.

(** C7, the claim as stated fails: the ratio 2 lies outside [[0, 1]], its
    nearest point 1 has the colour (0, 0, 255), but at 2 the green and
    blue channels scale to -510 and 765, which no [uint8_t] holds, so the
    conversion is undefined. *)
Lemma colorFromRatio_clamp_fails :
  B32.leb (B32.round 2) (B32.round 1) = false /\
  clamp_unit (B32.round 2) = B32.round 1 /\
  getColorFromRatio (clamp_unit (B32.round 2)) = Some (sf.rgb 0 0 255) /\
  B32.mul (channel_g (B32.round 2)) (B32.round (inject_Z 255))
    = B32.round (inject_Z (-510)) /\
  B32.mul (channel_b (B32.round 2)) (B32.round (inject_Z 255))
    = B32.round (inject_Z 765) /\
  getColorFromRatio (B32.round 2) = None /\
  getColorFromRatio (B32.round 2)
  <> getColorFromRatio (clamp_unit (B32.round 2)).
Proof.
  assert (E1 : getColorFromRatio (B32.round 2) = None)
    by (vm_compute; reflexivity).
  assert (E2 : getColorFromRatio (clamp_unit (B32.round 2))
               = Some (sf.rgb 0 0 255)) by (vm_compute; reflexivity).
  repeat split; trivial; try (vm_compute; reflexivity).
  rewrite E1, E2. discriminate.
Qed.

Lemma colour_undefined_above (ratio : B32.f32) :
  B32.finite ratio = true -> B32.valid ratio = true ->
  (131329 # 131072 < B32.val ratio)%Q ->
  getColorFromRatio ratio = None.
Proof.
  intros F V H.
  assert (G : (8405057 # 8388608 <= B32.val ratio)%Q).
  { destruct ratio as [s|s| |[|] m e]; try discriminate; cbn [B32.val] in *.
    - pose proof (B32Facts.mag_pos m e). lra.
    - apply B32Facts.valid_Fin in V. destruct V as (Hm & _).
      assert (T : (B32.two_p (-23) == 1 # 8388608)%Q) by reflexivity.
      pose proof (@B32Band.above_grid_point m e (-23) 8405056 Hm) as A.
      change (-23 + 23)%Z with 0%Z in A. change (B32.two_p 0) with 1%Q in A.
      rewrite T in A.
      assert (E1 : (inject_Z 8405056 * (1 # 8388608) == 131329 # 131072)%Q)
        by reflexivity.
      assert (E2 : (inject_Z (8405056 + 1) * (1 # 8388608)
                    == 8405057 # 8388608)%Q) by reflexivity.
      rewrite E1, E2 in A. apply A; lra. }
  destruct (Qlt_le_dec (257 # 256) (B32.val ratio)) as [Hfar|Hnear].
  - apply B32Thresholds.green_undefined, B32Edge.scale_u8_undefined.
    apply B32Edge.channel_g_far; trivial. right. lra.
  - apply B32Thresholds.upper_edge_undefined. repeat split; trivial.
Qed.

Lemma colour_undefined_below (ratio : B32.f32) :
  B32.finite ratio = true -> B32.valid ratio = true ->
  (B32.val ratio < - (65793 # 33554432))%Q ->
  getColorFromRatio ratio = None.
Proof.
  intros F V H.
  assert (G : (B32.val ratio <= - (8421505 # 4294967296))%Q).
  { destruct ratio as [s|s| |[|] m e]; try discriminate; cbn [B32.val] in *.
    - apply B32Facts.valid_Fin in V. destruct V as (Hm & _).
      assert (T : (B32.two_p (-32) == 1 # 4294967296)%Q) by reflexivity.
      pose proof (@B32Band.above_grid_point m e (-32) 8421504 Hm) as A.
      change (-32 + 23)%Z with (-9)%Z in A.
      assert (T9 : (B32.two_p (-9) == 1 # 512)%Q) by reflexivity.
      rewrite T, T9 in A.
      assert (E1 : (inject_Z 8421504 * (1 # 4294967296)
                    == 65793 # 33554432)%Q) by reflexivity.
      assert (E2 : (inject_Z (8421504 + 1) * (1 # 4294967296)
                    == 8421505 # 4294967296)%Q) by reflexivity.
      rewrite E1, E2 in A.
      assert (8421505 # 4294967296 <= B32.mag m e)%Q by (apply A; lra).
      lra.
    - pose proof (B32Facts.mag_pos m e). lra. }
  destruct (Qlt_le_dec (B32.val ratio) (- (1 # 256))) as [Hfar|Hnear].
  - apply B32Thresholds.green_undefined, B32Edge.scale_u8_undefined.
    apply B32Edge.channel_g_far; trivial. left. lra.
  - apply B32Thresholds.lower_edge_undefined. repeat split; trivial.
Qed.

(** C7 as amended: [getColorFromRatio] has no clamp of its own, and the
    floats on which it is defined form one interval: from [0xbb008080],
    just below 0, to [0x3f804040], just above 1.  On that interval it
    returns the colour of the nearest point of [[0, 1]], every byte in
    0..255, because the truncating cast absorbs the excess; for every
    other float, NaN and the infinities included, the conversion to a
    byte is undefined. *)
Theorem colorFromRatio_defined_range :
  forall ratio : B32.f32,
    B32.valid ratio = true ->
    B32.bits (B32.round (- (65793 # 33554432))) = 0xbb008080%Z /\
    B32.bits (B32.round (131329 # 131072)) = 0x3f804040%Z /\
    if B32.leb (B32.round (- (65793 # 33554432))) ratio
       && B32.leb ratio (B32.round (131329 # 131072))
    then getColorFromRatio ratio = getColorFromRatio (clamp_unit ratio) /\
         exists c, getColorFromRatio ratio = Some c /\
                   (0 <= sf.r c <= 255)%Z /\ (0 <= sf.g c <= 255)%Z /\
                   (0 <= sf.b c <= 255)%Z
    else getColorFromRatio ratio = None.
Proof.
  intros ratio V.
  split; [vm_compute; reflexivity|]. split; [vm_compute; reflexivity|].
  destruct (B32.finite ratio) eqn:F.
  2:{ destruct ratio as [s|[|]| |s m e];
        [discriminate F | | | | discriminate F]; vm_compute; reflexivity. }
  assert (FL : B32.finite (B32.round (- (65793 # 33554432))) = true)
    by (vm_compute; reflexivity).
  assert (FU : B32.finite (B32.round (131329 # 131072)) = true)
    by (vm_compute; reflexivity).
  assert (VL : (B32.val (B32.round (- (65793 # 33554432)))
                == - (65793 # 33554432))%Q) by (vm_compute; reflexivity).
  assert (VU : (B32.val (B32.round (131329 # 131072))
                == 131329 # 131072)%Q) by (vm_compute; reflexivity).
  assert (F0 : B32.finite (B32.round 0) = true) by reflexivity.
  assert (F1 : B32.finite (B32.round 1) = true) by reflexivity.
  assert (V1 : (B32.val (B32.round 1) == 1)%Q) by (vm_compute; reflexivity).
  destruct (Qlt_le_dec (B32.val ratio) (- (65793 # 33554432))) as [Hlow|HL].
  { assert (B : B32.leb (B32.round (- (65793 # 33554432))) ratio = false).
    { destruct (B32.leb _ ratio) eqn:B; trivial.
      apply (B32Facts.leb_finite _ ratio FL F) in B. lra. }
    rewrite B. cbn [andb]. now apply colour_undefined_below. }
  destruct (Qlt_le_dec (131329 # 131072) (B32.val ratio)) as [Hhigh|HU].
  { assert (B : B32.leb ratio (B32.round (131329 # 131072)) = false).
    { destruct (B32.leb ratio _) eqn:B; trivial.
      apply (B32Facts.leb_finite ratio _ F FU) in B. lra. }
    rewrite B, andb_false_r. now apply colour_undefined_above. }
  assert (BL : B32.leb (B32.round (- (65793 # 33554432))) ratio = true).
  { apply B32Facts.leb_finite; trivial. lra. }
  assert (BU : B32.leb ratio (B32.round (131329 # 131072)) = true).
  { apply B32Facts.leb_finite; trivial. lra. }
  rewrite BL, BU. cbn [andb].
  destruct (Qlt_le_dec (B32.val ratio) 0) as [Hneg|Hnn].
  - assert (C : clamp_unit ratio = B32.round 0).
    { unfold clamp_unit.
      assert (B : B32.ltb ratio (B32.round 0) = true)
        by (apply B32Facts.ltb_finite; trivial).
      now rewrite B. }
    assert (E : getColorFromRatio ratio = Some (sf.rgb 255 0 0)).
    { apply B32Thresholds.lower_edge_defined. repeat split; trivial. lra. }
    rewrite C, E. split; [vm_compute; reflexivity|].
    exists (sf.rgb 255 0 0). cbn. repeat split; lia.
  - assert (B0 : B32.ltb ratio (B32.round 0) = false).
    { destruct (B32.ltb ratio (B32.round 0)) eqn:B; trivial.
      apply B32Facts.ltb_finite in B; trivial. cbn in B. lra. }
    destruct (Qlt_le_dec 1 (B32.val ratio)) as [Hbig|Hle].
    + assert (C : clamp_unit ratio = B32.round 1).
      { unfold clamp_unit. rewrite B0.
        assert (B : B32.ltb (B32.round 1) ratio = true).
        { apply B32Facts.ltb_finite; trivial. rewrite V1. exact Hbig. }
        now rewrite B. }
      assert (E : getColorFromRatio ratio = Some (sf.rgb 0 0 255)).
      { apply B32Thresholds.upper_edge_defined. repeat split; trivial. lra. }
      rewrite C, E. split; [vm_compute; reflexivity|].
      exists (sf.rgb 0 0 255). cbn. repeat split; lia.
    + assert (C : clamp_unit ratio = ratio).
      { unfold clamp_unit. rewrite B0.
        destruct (B32.ltb (B32.round 1) ratio) eqn:B; trivial.
        apply B32Facts.ltb_finite in B; trivial. rewrite V1 in B. lra. }
      rewrite C. split; [reflexivity|].
      assert (R : B32.in_range 0 1 ratio) by (repeat split; trivial).
      destruct (B32Facts.color_unit R) as (E & Br & Bg & Bb).
      eexists. split; [exact E|]. cbn [sf.r sf.g sf.b sf.rgb].
      repeat split; lia.
Qed.

Lemma colorFromRatio_defined_range_witness :
  getColorFromRatio (B32.round (- (1 # 511)))
  = getColorFromRatio (clamp_unit (B32.round (- (1 # 511)))) /\
  getColorFromRatio (B32.round (512 # 511))
  = getColorFromRatio (clamp_unit (B32.round (512 # 511))) /\
  getColorFromRatio (B32.round (511 # 509)) = None.
Proof.
  pose proof (colorFromRatio_defined_range (B32.round (- (1 # 511)))
                (B32Facts.round_valid _)) as (_ & _ & A).
  pose proof (colorFromRatio_defined_range (B32.round (512 # 511))
                (B32Facts.round_valid _)) as (_ & _ & B).
  pose proof (colorFromRatio_defined_range (B32.round (511 # 509))
                (B32Facts.round_valid _)) as (_ & _ & C).
  assert (Ea : B32.leb (B32.round (- (65793 # 33554432)))
                       (B32.round (- (1 # 511)))
               && B32.leb (B32.round (- (1 # 511)))
                          (B32.round (131329 # 131072)) = true)
    by (vm_compute; reflexivity).
  assert (Eb : B32.leb (B32.round (- (65793 # 33554432)))
                       (B32.round (512 # 511))
               && B32.leb (B32.round (512 # 511))
                          (B32.round (131329 # 131072)) = true)
    by (vm_compute; reflexivity).
  assert (Ec : B32.leb (B32.round (- (65793 # 33554432)))
                       (B32.round (511 # 509))
               && B32.leb (B32.round (511 # 509))
                          (B32.round (131329 # 131072)) = false)
    by (vm_compute; reflexivity).
  rewrite Ea in A. rewrite Eb in B. rewrite Ec in C.
  split; [exact (proj1 A)|]. split; [exact (proj1 B) | exact C].
Defined.

(** ** Angular frequencies *)

Section Frequencies.

Lemma range_forallb (f : Z -> bool) (n : nat) :
  forallb f (map Z.of_nat (seq 0 n)) = true ->
  forall i : Z, (0 <= i < Z.of_nat n)%Z -> f i = true.
Proof.
  intros H i Hi. rewrite forallb_forall in H. apply H.
  apply in_map_iff. exists (Z.to_nat i). split; [lia|].
  apply in_seq. lia.
Qed.

(** On binary32 the 25 angular frequencies are positive finite floats,
    strictly increasing. *)
Lemma angularFreq_b32_table :
  forallb
    (fun i : Z =>
       match angularFreq i with
       | B32.Fin false _ _ => true
       | _ => false
       end &&
       forallb (fun j : Z =>
                  implb (i <? j)%Z (B32.ltb (angularFreq i) (angularFreq j)))
               (map Z.of_nat (seq 0 25)))
    (map Z.of_nat (seq 0 25)) = true.
Proof. vm_compute. reflexivity. Qed.

Lemma angularFreq_b32_increasing (i j : Z) :
  (0 <= i)%Z -> (i < j)%Z -> (j < NUM_PENDULUMS)%Z ->
  B32.ltb (angularFreq i) (angularFreq j) = true.
Proof.
  intros H0 Hij HN. unfold NUM_PENDULUMS in HN.
  pose proof (@range_forallb _ 25 angularFreq_b32_table i ltac:(lia)) as Hi.
  cbv beta in Hi. apply andb_true_iff in Hi. destruct Hi as [_ Hi].
  pose proof (@range_forallb _ 25 Hi j ltac:(lia)) as Hj.
  cbv beta in Hj.
  assert (E : (i <? j)%Z = true) by (apply Z.ltb_lt; lia).
  rewrite E in Hj. exact Hj.
Qed.

Lemma angularFreq_b32_positive (i : Z) :
  (0 <= i < NUM_PENDULUMS)%Z ->
  exists m e, angularFreq i = B32.Fin false m e.
Proof.
  intros Hi. unfold NUM_PENDULUMS in Hi.
  pose proof (@range_forallb _ 25 angularFreq_b32_table i ltac:(lia)) as H.
  cbv beta in H. apply andb_true_iff in H. destruct H as [H _].
  destruct (angularFreq i) as [s|s| |[|] m e]; try discriminate.
  now exists m, e.
Qed.

Local Open Scope R_scope.

Lemma ideal_lit_Z (z : Z) : Ideal.lit (inject_Z z) = IZR z.
Proof. unfold Ideal.lit. cbn. field. Qed.

Lemma angularFreq_ideal (i : Z) :
  (0 <= i)%Z ->
  angularFreq (ops := ideal_ops) i = 2 * PI * IZR (50 + i) / 60.
Proof.
  intro Hi. unfold angularFreq, period, pi, TOTAL_PERIOD_S, BASE_OSCILLATIONS.
  cbn [f_div f_mul f_lit f_pi f_of_int ideal_ops].
  change (Ideal.lit 2) with (Ideal.lit (inject_Z 2)).
  change (Ideal.lit 60) with (Ideal.lit (inject_Z 60)).
  rewrite !ideal_lit_Z.
  assert (IZR (50 + i) <> 0).
  { apply not_0_IZR. lia. }
  field. assumption.
Qed.

Lemma angularFreq_ideal_increasing (i j : Z) :
  (0 <= i)%Z -> (i < j)%Z ->
  angularFreq (ops := ideal_ops) i < angularFreq (ops := ideal_ops) j.
Proof.
  intros H0 Hij. rewrite !angularFreq_ideal by lia.
  assert (IZR (50 + i) < IZR (50 + j)) by (apply IZR_lt; lia).
  pose proof PI_RGT_0. nra.
Qed.

(** C3: for indices i < j in [[0, N)], the angular frequency of
    oscillator i is strictly below that of oscillator j, both as the
    binary32 floats the program computes and in exact arithmetic. *)
Theorem angularFreq_strictly_increasing :
  forall i j : Z,
    (0 <= i)%Z -> (i < j)%Z -> (j < NUM_PENDULUMS)%Z ->
    B32.ltb (angularFreq i) (angularFreq j) = true /\
    angularFreq (ops := ideal_ops) i < angularFreq (ops := ideal_ops) j.
Proof.
  intros i j H0 Hij HN. split.
  - now apply angularFreq_b32_increasing.
  - now apply angularFreq_ideal_increasing.
Qed.

Lemma angularFreq_strictly_increasing_witness :
  (0 <= 0)%Z /\ (0 < 1)%Z /\ (1 < NUM_PENDULUMS)%Z /\
  B32.ltb (angularFreq 0) (angularFreq 1) = true /\
  angularFreq (ops := ideal_ops) 0 < angularFreq (ops := ideal_ops) 1.
Proof.
  assert (A : (0 <= 0)%Z) by lia.
  assert (B : (0 < 1)%Z) by lia.
  assert (C : (1 < NUM_PENDULUMS)%Z) by reflexivity.
  exact (conj A (conj B (conj C (angularFreq_strictly_increasing A B C)))).
Defined.

End Frequencies.

(** ** The cosine near whole and half turns *)

Section CosineNearTurns.

Local Open Scope R_scope.

(** Nine digits of pi, from the Machin-like series of the library. *)
Lemma PI_bounds : 314159265 / 100000000 < PI < 314159266 / 100000000.
Proof.
  pose proof (PI_2_3_7_ineq 4) as [Lo Hi].
  unfold sum_f_R0, tg_alt, PI_2_3_7_tg, Ratan_seq in Lo, Hi.
  cbn [Nat.mul Nat.add pow INR] in Lo, Hi.
  split; lra.
Qed.

Lemma sin_sqr_le (z : R) : Rabs z <= 1 -> sin z * sin z <= z * z.
Proof.
  intro Hz. pose proof PI2_1 as P.
  assert (Hpos : forall u, 0 < u -> u <= 1 -> sin u * sin u <= u * u).
  { intros u H0 H1.
    assert (0 <= sin u) by (apply sin_ge_0; lra).
    pose proof (sin_lt_x u H0). nra. }
  destruct (Rtotal_order z 0) as [N|[E|Q]].
  - rewrite Rabs_left in Hz by assumption.
    pose proof (Hpos (- z) ltac:(lra) Hz) as H. rewrite sin_neg in H. nra.
  - subst z. rewrite sin_0. lra.
  - rewrite Rabs_right in Hz by lra. now apply Hpos.
Qed.

Lemma cos_lower (y d : R) :
  Rabs y <= d -> d <= 1 -> 1 - d * d / 2 <= cos y.
Proof.
  intros Hy Hd.
  replace y with (2 * (y / 2)) by field. rewrite cos_2a_sin.
  assert (Hz : Rabs (y / 2) <= 1).
  { unfold Rdiv. rewrite Rabs_mult, (Rabs_right (/ 2)) by lra.
    pose proof (Rabs_pos y). lra. }
  pose proof (@sin_sqr_le (y / 2) Hz) as S.
  assert (Hyy : y * y <= d * d).
  { pose proof (Rabs_pos y).
    assert (E : y * y = Rabs y * Rabs y).
    { unfold Rabs. destruct (Rcase_abs y); ring. }
    rewrite E. nra. }
  nra.
Qed.

Lemma cos_turns (x : R) (k : Z) :
  (0 <= k)%Z -> cos (x + 2 * PI * IZR k) = cos x.
Proof.
  intro Hk.
  replace (x + 2 * PI * IZR k) with (x + 2 * INR (Z.to_nat k) * PI).
  - apply cos_period.
  - rewrite INR_IZR_INZ, Z2Nat.id by assumption. ring.
Qed.

(** Within [d] of [n] half turns the cosine is within [d^2 / 2] of 1 for
    even [n] and of -1 for odd [n]. *)
Lemma cos_near_half_turns (x d : R) (n : Z) :
  (0 <= n)%Z -> Rabs (x - PI * IZR n) <= d -> d <= 1 ->
  if Z.even n then 1 - d * d / 2 <= cos x <= 1
  else - 1 <= cos x <= - 1 + d * d / 2.
Proof.
  intros Hn Hx Hd.
  pose proof (@cos_lower (x - PI * IZR n) d Hx Hd) as L.
  pose proof (COS_bound x) as [C0 C1].
  pose proof (Z.div2_odd n) as E. rewrite <- Z.negb_even in E.
  assert (Hh : (0 <= Z.div2 n)%Z) by (apply Z.div2_nonneg; assumption).
  destruct (Z.even n); cbn [negb Z.b2z] in E.
  - split; [|assumption].
    replace (cos x) with (cos (x - PI * IZR n)); [assumption|].
    rewrite <- (@cos_turns (x - PI * IZR n) (Z.div2 n) Hh).
    f_equal. rewrite E at 1. rewrite Z.add_0_r, mult_IZR. ring.
  - split; [assumption|].
    assert (Ec : cos (x - PI * IZR n) = - cos x).
    { rewrite <- (@cos_turns (x - PI * IZR n) (Z.div2 n) Hh).
      replace (x - PI * IZR n + 2 * PI * IZR (Z.div2 n)) with (x - PI)
        by (rewrite E at 1; rewrite plus_IZR, mult_IZR; ring).
      pose proof (neg_cos (x - PI)) as N.
      replace (x - PI + PI) with x in N by ring. lra. }
    rewrite Ec in L. lra.
Qed.

Lemma Q2R_inject_Z (z : Z) : Q2R (inject_Z z) = IZR z.
Proof. unfold Q2R. cbn. field. Qed.

(** A rational bracketed by the bounds on pi is near [n] half turns. *)
Lemma near_half_turns (X : Q) (n : Z) :
  (0 <= n)%Z ->
  (inject_Z n * (314159266 # 100000000) - (1 # 16384) <= X)%Q ->
  (X <= inject_Z n * (314159265 # 100000000) + (1 # 16384))%Q ->
  Rabs (Q2R X - PI * IZR n) <= / 16384.
Proof.
  intros Hn Lo Hi.
  apply Qle_Rle in Lo. apply Qle_Rle in Hi.
  rewrite Q2R_minus, Q2R_mult, Q2R_inject_Z in Lo.
  rewrite Q2R_plus, Q2R_mult, Q2R_inject_Z in Hi.
  assert (E1 : Q2R (314159266 # 100000000) = 314159266 / 100000000)
    by reflexivity.
  assert (E2 : Q2R (314159265 # 100000000) = 314159265 / 100000000)
    by reflexivity.
  assert (E3 : Q2R (1 # 16384) = / 16384) by (unfold Q2R; cbn; field).
  rewrite E1, E3 in Lo. rewrite E2, E3 in Hi.
  destruct PI_bounds as [P1 P2].
  assert (Hk : 0 <= IZR n) by (apply IZR_le; assumption).
  apply Rabs_le. split; nra.
Qed.

End CosineNearTurns.

(** ** The binary32 angles after the total period *)

Section RealignmentB32.

(** The arguments [w_i * 60] of the cosine are finite floats within
    [2^-14] of [50 + i] whole turns, and the arguments [w_i * 30] within
    [2^-14] of [50 + i] half turns. *)
Lemma realign_args_table :
  forallb
    (fun i : Z =>
       B32.finite (B32.mul (angularFreq i) (B32.round 60)) &&
       Qle_bool (inject_Z (2 * (50 + i)) * (314159266 # 100000000)
                 - (1 # 16384))
                (B32.val (B32.mul (angularFreq i) (B32.round 60))) &&
       Qle_bool (B32.val (B32.mul (angularFreq i) (B32.round 60)))
                (inject_Z (2 * (50 + i)) * (314159265 # 100000000)
                 + (1 # 16384)) &&
       B32.finite (B32.mul (angularFreq i)
                           (B32.div (B32.round 60) (B32.round 2))) &&
       Qle_bool (inject_Z (50 + i) * (314159266 # 100000000) - (1 # 16384))
                (B32.val (B32.mul (angularFreq i)
                                  (B32.div (B32.round 60) (B32.round 2)))) &&
       Qle_bool (B32.val (B32.mul (angularFreq i)
                                  (B32.div (B32.round 60) (B32.round 2))))
                (inject_Z (50 + i) * (314159265 # 100000000) + (1 # 16384)))
    (map Z.of_nat (seq 0 25)) = true.
Proof. vm_compute. reflexivity. Qed.

Local Open Scope R_scope.

Lemma cos_at_total_period (i : Z) :
  (0 <= i < NUM_PENDULUMS)%Z ->
  B32.finite (B32.mul (angularFreq i) (B32.round 60)) = true /\
  1 - / 536870912
  <= cos (Q2R (B32.val (B32.mul (angularFreq i) (B32.round 60)))) <= 1.
Proof.
  intro Hi. unfold NUM_PENDULUMS in Hi.
  pose proof (@range_forallb _ 25 realign_args_table i ltac:(lia)) as T.
  cbv beta in T.
  destruct (proj1 (andb_true_iff _ _) T) as [T1 _]. clear T.
  destruct (proj1 (andb_true_iff _ _) T1) as [T2 _]. clear T1.
  destruct (proj1 (andb_true_iff _ _) T2) as [T3 _]. clear T2.
  destruct (proj1 (andb_true_iff _ _) T3) as [T4 Hi']. clear T3.
  destruct (proj1 (andb_true_iff _ _) T4) as [Fx Lo]. clear T4.
  apply (proj1 (Qle_bool_iff _ _)) in Lo, Hi'.
  split; [exact Fx|].
  assert (Hn : (0 <= 2 * (50 + i))%Z) by lia.
  pose proof (@near_half_turns _ (2 * (50 + i)) Hn Lo Hi') as N.
  pose proof (@cos_near_half_turns _ (/ 16384) (2 * (50 + i)) Hn N
                ltac:(lra)) as C.
  rewrite Z.even_mul in C. cbn [Z.even orb] in C.
  lra.
Qed.

Lemma cos_at_half_period (i : Z) :
  (0 <= i < NUM_PENDULUMS)%Z ->
  let x := B32.mul (angularFreq i) (B32.div (B32.round 60) (B32.round 2)) in
  B32.finite x = true /\
  if Z.even i then 1 - / 536870912 <= cos (Q2R (B32.val x)) <= 1
  else - 1 <= cos (Q2R (B32.val x)) <= - 1 + / 536870912.
Proof.
  intros Hi x. subst x. unfold NUM_PENDULUMS in Hi.
  pose proof (@range_forallb _ 25 realign_args_table i ltac:(lia)) as T.
  cbv beta in T.
  destruct (proj1 (andb_true_iff _ _) T) as [T1 Hi']. clear T.
  destruct (proj1 (andb_true_iff _ _) T1) as [T2 Lo]. clear T1.
  destruct (proj1 (andb_true_iff _ _) T2) as [_ Fx]. clear T2.
  apply (proj1 (Qle_bool_iff _ _)) in Lo, Hi'.
  split; [exact Fx|].
  assert (Hn : (0 <= 50 + i)%Z) by lia.
  pose proof (@near_half_turns _ (50 + i) Hn Lo Hi') as N.
  pose proof (@cos_near_half_turns _ (/ 16384) (50 + i) Hn N
                ltac:(lra)) as C.
  rewrite Z.even_add in C. change (Z.even 50) with true in C.
  destruct (Z.even i); cbn [Bool.eqb] in C; lra.
Qed.

Lemma Rabs_le_both (a b : R) : Rabs a <= b -> - b <= a <= b.
Proof. unfold Rabs. destruct (Rcase_abs a); lra. Qed.

Lemma Q2R_make (n : Z) (d : positive) : Q2R (n # d) = IZR n / IZR (Zpos d).
Proof. reflexivity. Qed.

(** With a cosine accurate to [2^-23] where the exact cosine is within
    [2^-29] of [sgn], the angle is within [2^-24] of [sgn * amplitude]. *)
Lemma angle_near_amplitude (lm : B32.Libm) (x : B32.f32) (sgn : Z) :
  sgn = 1%Z \/ sgn = (-1)%Z ->
  cos_accurate lm (1 # 8388608) x ->
  Rabs (cos (Q2R (B32.val x)) - IZR sgn) <= / 536870912 ->
  B32.in_range
    (inject_Z sgn * B32.val (maxAmplitudeRad (ops := b32_ops))
     - (1 # 16777216))%Q
    (inject_Z sgn * B32.val (maxAmplitudeRad (ops := b32_ops))
     + (1 # 16777216))%Q
    (B32.mul maxAmplitudeRad (B32.cosf lm x)).
Proof.
  intros Hs [Fc Hc] Hx.
  assert (E8 : Q2R (1 # 8388608) = / 8388608)
    by (rewrite Q2R_make; lra).
  rewrite E8 in Hc.
  assert (B : Rabs (Q2R (B32.val (B32.cosf lm x)) - IZR sgn)
              <= Q2R (65 # 536870912)).
  { rewrite Q2R_make.
    apply Rabs_le_both in Hc. apply Rabs_le_both in Hx. apply Rabs_le. lra. }
  assert (Bq : (inject_Z sgn - (65 # 536870912)
                <= B32.val (B32.cosf lm x)
                <= inject_Z sgn + (65 # 536870912))%Q).
  { apply Rabs_le_both in B. rewrite <- Q2R_inject_Z in B.
    split; apply Rle_Qle.
    - rewrite Q2R_minus. lra.
    - rewrite Q2R_plus. lra. }
  clear B Hc Hx E8.
  assert (EA : (B32.val (maxAmplitudeRad (ops := b32_ops))
                == 12883977 # 33554432)%Q) by (vm_compute; reflexivity).
  assert (FA : B32.finite (maxAmplitudeRad (ops := b32_ops)) = true)
    by (vm_compute; reflexivity).
  destruct Hs; subst sgn.
  - apply B32Facts.mul_in_range; trivial;
      [rewrite EA; change (inject_Z 1) with 1%Q in *; lra
      |rewrite EA; change (inject_Z 1) with 1%Q in *; lra
      |B32Facts.rep | B32Facts.rep].
  - apply B32Facts.mul_in_range; trivial;
      [rewrite EA; change (inject_Z (-1)) with (-1)%Q in *; lra
      |rewrite EA; change (inject_Z (-1)) with (-1)%Q in *; lra
      |B32Facts.rep | B32Facts.rep].
Qed.

End RealignmentB32.

Section Realignment.

(** ** Phase realignment *)

Lemma currentAngle_b32_at_zero (lm : B32.Libm) (i : Z) (c : sf.Color) :
  (0 <= i < NUM_PENDULUMS)%Z ->
  currentAngle (lib := b32_lib lm) (pendulum_at (lib := b32_lib lm) i c)
               (B32.round 0)
  = B32.mul maxAmplitudeRad (B32.cosf lm (B32.Zero false)).
Proof.
  intro Hi. destruct (angularFreq_b32_positive Hi) as (m & e & E).
  unfold currentAngle, pendulum_at, setup.
  cbn [m_amplitudeRad m_angularFrequency f_mul f_cos b32_ops b32_lib].
  rewrite E. reflexivity.
Qed.

Local Open Scope R_scope.

Lemma cos_whole_turns (k : Z) : (0 <= k)%Z -> cos (2 * PI * IZR k) = 1.
Proof.
  intro Hk.
  replace (2 * PI * IZR k) with (0 + 2 * INR (Z.to_nat k) * PI).
  - rewrite cos_period. apply cos_0.
  - rewrite INR_IZR_INZ, Z2Nat.id by assumption. ring.
Qed.

Lemma currentAngle_ideal_at_zero (i : Z) (c : sf.Color) :
  currentAngle (pendulum_at (ops := ideal_ops) i c) (f_lit 0) = maxAmplitudeRad.
Proof.
  unfold currentAngle, pendulum_at, setup.
  cbn [m_amplitudeRad m_angularFrequency f_mul f_cos f_lit ideal_ops ideal_lib].
  change (Ideal.lit 0) with (Ideal.lit (inject_Z 0)). rewrite ideal_lit_Z.
  rewrite Rmult_0_r, cos_0. ring.
Qed.

Lemma currentAngle_ideal_at_total_period (i : Z) (c : sf.Color) :
  (0 <= i)%Z ->
  currentAngle (pendulum_at (ops := ideal_ops) i c) TOTAL_PERIOD_S
  = maxAmplitudeRad.
Proof.
  intro Hi. unfold currentAngle, pendulum_at, setup.
  cbn [m_amplitudeRad m_angularFrequency f_mul f_cos ideal_ops ideal_lib].
  rewrite angularFreq_ideal by assumption.
  unfold TOTAL_PERIOD_S. cbn [f_lit ideal_ops].
  change (Ideal.lit 60) with (Ideal.lit (inject_Z 60)). rewrite ideal_lit_Z.
  replace (2 * PI * IZR (50 + i) / 60 * 60) with (2 * PI * IZR (50 + i))
    by field.
  rewrite cos_whole_turns by lia. ring.
Qed.

Lemma amplitude_times_one :
  B32.mul (maxAmplitudeRad (ops := b32_ops)) (B32.round 1) = maxAmplitudeRad.
Proof. vm_compute. reflexivity. Qed.

(** With an accurate [cosf] the binary32 angle at the total period is
    within [2^-24] of the amplitude. *)
Lemma angle_b32_at_total_period (lm : B32.Libm) (i : Z) (c : sf.Color) :
  (0 <= i < NUM_PENDULUMS)%Z ->
  cos_accurate lm (1 # 8388608) (B32.mul (angularFreq i) TOTAL_PERIOD_S) ->
  B32.in_range
    (B32.val (maxAmplitudeRad (ops := b32_ops)) - (1 # 16777216))%Q
    (B32.val (maxAmplitudeRad (ops := b32_ops)) + (1 # 16777216))%Q
    (currentAngle (lib := b32_lib lm) (pendulum_at (lib := b32_lib lm) i c)
                  TOTAL_PERIOD_S).
Proof.
  intros Hi Hc.
  destruct (cos_at_total_period Hi) as [_ C].
  change (currentAngle (lib := b32_lib lm)
            (pendulum_at (lib := b32_lib lm) i c) TOTAL_PERIOD_S)
    with (B32.mul maxAmplitudeRad
            (B32.cosf lm (B32.mul (angularFreq i) (B32.round 60)))).
  change (TOTAL_PERIOD_S (ops := b32_ops)) with (B32.round 60) in Hc.
  pose proof (@angle_near_amplitude lm _ 1%Z (or_introl eq_refl) Hc) as A.
  assert (E : forall q : Q, (inject_Z 1 * q == q)%Q)
    by (intro q; change (inject_Z 1) with 1%Q; ring).
  eapply B32Facts.in_range_weaken; [apply A | |].
  - apply Rabs_le. lra.
  - rewrite E. apply Qle_refl.
  - rewrite E. apply Qle_refl.
Qed.

(** A [cosf] that returns 1 is accurate wherever the exact cosine is
    within [2^-29] of 1. *)
Lemma cos_accurate_one (sinf : B32.f32 -> B32.f32)
    (powf : B32.f32 -> B32.f32 -> B32.f32) (x : B32.f32) :
  1 - / 536870912 <= cos (Q2R (B32.val x)) <= 1 ->
  cos_accurate (B32.mkLibm (fun _ => B32.round 1) sinf powf)
               (1 # 8388608) x.
Proof.
  intro C. split; [reflexivity|]. cbn [B32.cosf].
  assert (E : Q2R (B32.val (B32.round 1)) = 1) by (unfold Q2R; cbn; field).
  assert (E8 : Q2R (1 # 8388608) = / 8388608) by (unfold Q2R; cbn; field).
  rewrite E, E8. apply Rabs_le. lra.
Qed.

(** C5: for oscillators i and j in [[0, N)] the angle computed by
    [update] coincides at t = 0 and at t = totalPeriodS, within floating
    tolerance.  At t = 0 the binary32 angles are the same float,
    whatever the C library: every frequency is a positive finite float,
    its product with [+0] is [+0], and both angles are
    [amplitude * cos(+0)]; the pendulums compared are the ones the
    initialisation loop builds.  At t = totalPeriodS the binary32
    argument [w_i * 60] of the cosine is a float within [2^-14] of
    [50 + i] whole turns, so its exact cosine is within [2^-29] of 1;
    with a C library whose [cosf] is within [2^-23] of the exact cosine
    at these arguments, the binary32 angles of two oscillators differ by
    at most [2^-23] and each is within [2^-24] of the amplitude, and
    where [cosf] returns 1 the angle is the amplitude itself.  In exact
    arithmetic the angles at both instants equal the amplitude:
    oscillator i has then completed [50 + i] whole turns. *)
Theorem phases_realign :
  forall (lm : B32.Libm) (i j : Z) (c c' : sf.Color),
    (0 <= i < NUM_PENDULUMS)%Z -> (0 <= j < NUM_PENDULUMS)%Z ->
    setup_at (lib := b32_lib lm) i Pendulum_default
    = option_map (pendulum_at (lib := b32_lib lm) i)
                 (getColorFromRatio (ops := b32_ops) (colorRatio i)) /\
    currentAngle (lib := b32_lib lm) (pendulum_at (lib := b32_lib lm) i c)
                 (f_lit 0)
    = currentAngle (lib := b32_lib lm) (pendulum_at (lib := b32_lib lm) j c')
                   (f_lit 0) /\
    currentAngle (pendulum_at (ops := ideal_ops) i c) (f_lit 0)
    = currentAngle (pendulum_at (ops := ideal_ops) j c') (f_lit 0) /\
    currentAngle (pendulum_at (ops := ideal_ops) i c) TOTAL_PERIOD_S
    = currentAngle (pendulum_at (ops := ideal_ops) j c') TOTAL_PERIOD_S /\
    currentAngle (pendulum_at (ops := ideal_ops) i c) TOTAL_PERIOD_S
    = maxAmplitudeRad /\
    1 - / 536870912
    <= cos (Q2R (B32.val (B32.mul (angularFreq i) TOTAL_PERIOD_S))) <= 1 /\
    (cos_accurate lm (1 # 8388608)
                  (B32.mul (angularFreq i) TOTAL_PERIOD_S) ->
     cos_accurate lm (1 # 8388608)
                  (B32.mul (angularFreq j) TOTAL_PERIOD_S) ->
     let a_i := currentAngle (lib := b32_lib lm)
                  (pendulum_at (lib := b32_lib lm) i c) TOTAL_PERIOD_S in
     let a_j := currentAngle (lib := b32_lib lm)
                  (pendulum_at (lib := b32_lib lm) j c') TOTAL_PERIOD_S in
     B32.finite a_i = true /\ B32.finite a_j = true /\
     (Qabs (B32.val a_i - B32.val a_j) <= 1 # 8388608)%Q /\
     (Qabs (B32.val a_i - B32.val (maxAmplitudeRad (ops := b32_ops)))
      <= 1 # 16777216)%Q) /\
    (B32.cosf lm (B32.mul (angularFreq i) TOTAL_PERIOD_S) = B32.round 1 ->
     currentAngle (lib := b32_lib lm) (pendulum_at (lib := b32_lib lm) i c)
                  TOTAL_PERIOD_S
     = maxAmplitudeRad).
Proof.
  intros lm i j c c' Hi Hj. split; [exact (setup_at_default (lib := b32_lib lm) i)|].
  split; [|split; [|split; [|split; [|split; [|split]]]]].
  - change (f_lit (FloatOps := b32_ops) 0) with (B32.round 0).
    now rewrite !currentAngle_b32_at_zero.
  - now rewrite !currentAngle_ideal_at_zero.
  - rewrite !currentAngle_ideal_at_total_period by lia. reflexivity.
  - apply currentAngle_ideal_at_total_period. lia.
  - exact (proj2 (cos_at_total_period Hi)).
  - intros Ci Cj a_i a_j.
    destruct (angle_b32_at_total_period c Hi Ci) as (Fi & _ & Li & Ui).
    destruct (angle_b32_at_total_period c' Hj Cj) as (Fj & _ & Lj & Uj).
    fold a_i in Fi, Li, Ui. fold a_j in Fj, Lj, Uj.
    split; [exact Fi|]. split; [exact Fj|].
    split; apply Qabs_Qle_condition; split; lra.
  - intro E.
    change (currentAngle (lib := b32_lib lm)
              (pendulum_at (lib := b32_lib lm) i c) TOTAL_PERIOD_S)
      with (B32.mul maxAmplitudeRad
              (B32.cosf lm (B32.mul (angularFreq i) TOTAL_PERIOD_S))).
    rewrite E. exact amplitude_times_one.
Qed.

Lemma phases_realign_witness :
  (0 <= 0 < NUM_PENDULUMS)%Z /\ (0 <= 24 < NUM_PENDULUMS)%Z /\
  currentAngle (pendulum_at (ops := ideal_ops) 0 sf.White) TOTAL_PERIOD_S
  = currentAngle (pendulum_at (ops := ideal_ops) 24 sf.White) TOTAL_PERIOD_S /\
  (Qabs
     (B32.val
        (currentAngle
           (lib := b32_lib (B32.mkLibm (fun _ => B32.round 1) (fun x => x)
                                       (fun x _ => x)))
           (pendulum_at
              (lib := b32_lib (B32.mkLibm (fun _ => B32.round 1)
                                          (fun x => x) (fun x _ => x)))
              0 sf.White)
           TOTAL_PERIOD_S)
      - B32.val
          (currentAngle
             (lib := b32_lib (B32.mkLibm (fun _ => B32.round 1) (fun x => x)
                                         (fun x _ => x)))
             (pendulum_at
                (lib := b32_lib (B32.mkLibm (fun _ => B32.round 1)
                                            (fun x => x) (fun x _ => x)))
                24 sf.White)
             TOTAL_PERIOD_S))
   <= 1 # 8388608)%Q.
Proof.
  assert (A : (0 <= 0 < NUM_PENDULUMS)%Z) by (unfold NUM_PENDULUMS; lia).
  assert (B : (0 <= 24 < NUM_PENDULUMS)%Z) by (unfold NUM_PENDULUMS; lia).
  pose proof (phases_realign
                (B32.mkLibm (fun _ => B32.round 1) (fun x => x)
                            (fun x _ => x))
                sf.White sf.White A B) as (_ & _ & _ & I & _ & C0 & H & _).
  pose proof (phases_realign
                (B32.mkLibm (fun _ => B32.round 1) (fun x => x)
                            (fun x _ => x))
                sf.White sf.White B A) as (_ & _ & _ & _ & _ & C24 & _).
  refine (conj A (conj B (conj I _))).
  exact (proj1 (proj2 (proj2
           (H (cos_accurate_one _ _ _ C0) (cos_accurate_one _ _ _ C24))))).
Defined.

End Realignment.

Section Initialisation.

(** ** The initialisation loop *)

Section SetupLoop.

Context {F : Type} {ops : FloatOps F} {lib : MathLib F}.

Lemma indices_step (i : Z) (n : nat) :
  map (fun k => (i + Z.of_nat k)%Z) (seq 0 (S n))
  = i :: map (fun k => (i + 1 + Z.of_nat k)%Z) (seq 0 n).
Proof.
  cbn [seq map]. f_equal.
  - cbn. lia.
  - rewrite <- seq_shift, map_map. apply map_ext. intro k. lia.
Qed.

(** When every colour is defined the loop succeeds, and the pendulum at
    index [k] carries the parameters derived for [k]. *)
Lemma setup_from_spec (l : list Pendulum) (i : Z) :
  Forall (fun k => getColorFromRatio (colorRatio k) <> None)
         (map (fun k => (i + Z.of_nat k)%Z) (seq 0 (length l))) ->
  exists ps,
    setup_from i l = Some ps /\
    Forall2 (fun k p =>
               m_angularFrequency p = angularFreq k /\
               m_visualLength p = visualLength k /\
               m_amplitudeRad p = maxAmplitudeRad /\
               m_pivotPoint p = pivotPoint)
            (map (fun k => (i + Z.of_nat k)%Z) (seq 0 (length l))) ps.
Proof.
  revert i. induction l as [|p l IH]; intros i Hc.
  - exists []. split; [reflexivity | constructor].
  - cbn [length] in *. rewrite indices_step in *.
    inversion Hc as [|k ks Hk Hks]; subst.
    destruct (IH (i + 1)%Z Hks) as (ps & E & R).
    cbn [setup_from]. unfold setup_at.
    destruct (getColorFromRatio (colorRatio i)) as [c|]; [|congruence].
    rewrite E. eexists. split; [reflexivity|].
    constructor; [|exact R]. repeat split.
Qed.

End SetupLoop.

(** On binary32 every colour of the 25 pendulums is defined. *)
Lemma colors_b32_defined :
  forallb (fun k : Z =>
             match getColorFromRatio (ops := b32_ops) (colorRatio k) with
             | Some _ => true
             | None => false
             end)
          (map Z.of_nat (seq 0 25)) = true.
Proof. vm_compute. reflexivity. Qed.

Lemma initial_pendulums_b32 (lm : B32.Libm) :
  exists ps,
    initial_pendulums (lib := b32_lib lm) = Some ps /\
    Forall2 (fun k p =>
               m_angularFrequency p = angularFreq k /\
               m_visualLength p = visualLength (lib := b32_lib lm) k /\
               m_amplitudeRad p = maxAmplitudeRad /\
               m_pivotPoint p = pivotPoint)
            (map Z.of_nat (seq 0 (Z.to_nat NUM_PENDULUMS))) ps.
Proof.
  unfold initial_pendulums.
  pose proof (setup_from_spec (lib := b32_lib lm)
                (repeat Pendulum_default (Z.to_nat NUM_PENDULUMS)) 0) as S.
  rewrite repeat_length in S.
  apply S. apply Forall_forall. intros k Hk.
  pose proof colors_b32_defined as C. rewrite forallb_forall in C.
  specialize (C k Hk).
  destruct (getColorFromRatio (colorRatio k)); [discriminate | discriminate C].
Qed.

(** With a [std::pow] that returns the correctly rounded square, as
    compilers that expand [pow(x, 2)] to [x * x] do, the longest visual
    length is the float 800 to the bit. *)
Lemma visualLength_b32_longest (lm : B32.Libm) :
  (forall x, B32.powf lm x (B32.round 2) = B32.mul x x) ->
  visualLength (lib := b32_lib lm) 0 = B32.round 800.
Proof.
  intro Hpow.
  unfold visualLength, pixelsPerMeter, longestPhysicsL, physicsLength.
  cbn [f_pow b32_lib f_lit b32_ops]. rewrite !Hpow.
  vm_compute. reflexivity.
Qed.

Local Open Scope R_scope.

Lemma physicsLength_ideal_positive (i : Z) :
  0 < physicsLength (ops := ideal_ops) i.
Proof.
  unfold physicsLength, g. cbn [f_mul f_pow f_lit ideal_ops ideal_lib].
  apply Rmult_lt_0_compat.
  - unfold Ideal.lit. cbn. lra.
  - unfold Rpower. apply exp_pos.
Qed.

Lemma visualLength_ideal_longest :
  visualLength (ops := ideal_ops) 0 = IZR SCREEN_HEIGHT * (8 / 10).
Proof.
  pose proof (physicsLength_ideal_positive 0) as Hp.
  unfold visualLength, pixelsPerMeter, maxVisualLength.
  change (longestPhysicsL (ops := ideal_ops))
    with (physicsLength (ops := ideal_ops) 0).
  cbn [f_mul f_div f_lit f_of_int ideal_ops].
  unfold Ideal.lit. cbn [Qnum Qden]. field. lra.
Qed.

(** C2: the loop derives, for each index i, the period
    [totalPeriodS / (baseOscillations + i)], the angular frequency
    [2 pi / period], the physical length [g (period / 2 pi)^2] and the
    visual length [physicsLength * pixelsPerMeter], where
    [pixelsPerMeter] is the one quotient
    [(screenHeight * 0.8) / physicsLength(0)] computed before the loop;
    on binary32 the loop ends and stores these values in pendulum i; and
    in exact arithmetic the visual length of pendulum 0 is
    [screenHeight * 0.8].  On binary32 it is the float
    [screenHeight * 0.8] to the bit whenever the C library's
    [powf(x, 2)] is the rounded product [x * x]. *)
Theorem parameter_derivation :
  forall (F : Type) (ops : FloatOps F) (lib : MathLib F) (i : Z),
    period i = f_div TOTAL_PERIOD_S (f_of_int (BASE_OSCILLATIONS + i)) /\
    angularFreq i = f_div (f_mul (f_lit 2) f_pi) (period i) /\
    physicsLength i
    = f_mul (f_lit (981 # 100))
            (f_pow (f_div (period i) (f_mul (f_lit 2) f_pi)) (f_lit 2)) /\
    visualLength i = f_mul (physicsLength i) pixelsPerMeter /\
    pixelsPerMeter
    = f_div (f_mul (f_of_int SCREEN_HEIGHT) (f_lit (8 # 10)))
            (physicsLength 0) /\
    (forall lm : B32.Libm,
       exists ps,
         initial_pendulums (lib := b32_lib lm) = Some ps /\
         Forall2 (fun k p =>
                    m_angularFrequency p = angularFreq k /\
                    m_visualLength p = visualLength (lib := b32_lib lm) k /\
                    m_amplitudeRad p = maxAmplitudeRad /\
                    m_pivotPoint p = pivotPoint)
                 (map Z.of_nat (seq 0 (Z.to_nat NUM_PENDULUMS))) ps) /\
    visualLength (ops := ideal_ops) 0 = (IZR SCREEN_HEIGHT * (8 / 10))%R /\
    (forall lm : B32.Libm,
       (forall x, B32.powf lm x (B32.round 2) = B32.mul x x) ->
       visualLength (lib := b32_lib lm) 0
       = B32.mul (B32.round (inject_Z SCREEN_HEIGHT)) (B32.round (8 # 10))).
Proof.
  intros. repeat (split; [reflexivity|]). split; [|split].
  - exact initial_pendulums_b32.
  - exact visualLength_ideal_longest.
  - intros lm Hpow. rewrite (@visualLength_b32_longest lm Hpow).
    vm_compute. reflexivity.
Qed.

Lemma parameter_derivation_witness :
  visualLength
    (lib := b32_lib (B32.mkLibm (fun x => x) (fun x => x)
                                (fun x _ => B32.mul x x))) 0
  = B32.mul (B32.round (inject_Z SCREEN_HEIGHT)) (B32.round (8 # 10)).
Proof.
  exact (proj2 (proj2 (proj2 (proj2 (proj2 (proj2 (proj2
    (@parameter_derivation B32.f32 b32_ops
       (b32_lib (B32.mkLibm (fun x => x) (fun x => x)
                            (fun x _ => B32.mul x x))) 0)))))))
    (B32.mkLibm (fun x => x) (fun x => x) (fun x _ => B32.mul x x))
    (fun x => eq_refl)).
Defined.

End Initialisation.

(** ** The frame loop as a whole *)

Section FrameLoop.

Context {F : Type} {ops : FloatOps F} {lib : MathLib F}.

Lemma Sim_eta (s : Sim (F := F)) :
  s = mkSim (pendulums s) (totalSimTime s) (timeScale s) (isPaused s)
            (windowOpen s).
Proof. now destruct s. Qed.

Lemma handle_event_pendulums (ev : Event) (s : Sim (F := F)) :
  pendulums (handle_event ev s) = pendulums s.
Proof. destruct ev as [|[ | | | | | | | ]| |]; reflexivity. Qed.

Lemma poll_events_pendulums (evs : list Event) (s : Sim (F := F)) :
  pendulums (poll_events evs s) = pendulums s.
Proof.
  revert s. unfold poll_events.
  induction evs as [|ev evs IH]; intro s; cbn [fold_left].
  - reflexivity.
  - rewrite IH. apply handle_event_pendulums.
Qed.

Lemma poll_events_app (evs1 evs2 : list Event) (s : Sim (F := F)) :
  poll_events (evs1 ++ evs2) s = poll_events evs2 (poll_events evs1 s).
Proof. unfold poll_events. apply fold_left_app. Qed.

Lemma map_update_update (t u : F) (ps : list Pendulum) :
  map (update t) (map (update u) ps) = map (update t) ps.
Proof. rewrite map_map. apply map_ext. reflexivity. Qed.

(** The pendulums a frame leaves are the ones it found, updated at the
    clock it leaves. *)
Lemma frame_pendulums (evs : list Event) (dt : F) (s : Sim (F := F)) :
  pendulums (frame evs dt s)
  = map (update (totalSimTime (frame evs dt s))) (pendulums s).
Proof. cbn [frame pendulums totalSimTime]. now rewrite poll_events_pendulums. Qed.

Lemma run_in_sync (frames : list (list Event * F)) (s : Sim (F := F))
    (ps0 : list Pendulum) :
  pendulums s = map (update (totalSimTime s)) ps0 ->
  pendulums (run frames s)
  = map (update (totalSimTime (run frames s))) ps0.
Proof.
  revert s. induction frames as [|[evs dt] rest IH]; intros s Hs; cbn [run].
  - exact Hs.
  - destruct (windowOpen s); [|exact Hs].
    apply IH. rewrite frame_pendulums, Hs. apply map_update_update.
Qed.

Lemma run_from_startup (evs : list Event) (dt : F)
    (rest : list (list Event * F)) (ps : list Pendulum) :
  let s := run ((evs, dt) :: rest) (startup ps) in
  pendulums s = map (update (totalSimTime s)) ps.
Proof.
  cbv zeta. cbn [run startup windowOpen].
  apply run_in_sync. apply frame_pendulums.
Qed.

(** *** Closing the window *)

Lemma handle_event_stays_closed (ev : Event) (s : Sim (F := F)) :
  windowOpen s = false -> windowOpen (handle_event ev s) = false.
Proof. destruct ev as [|[ | | | | | | | ]| |]; cbn; auto. Qed.

Lemma poll_events_stays_closed (evs : list Event) (s : Sim (F := F)) :
  windowOpen s = false -> windowOpen (poll_events evs s) = false.
Proof.
  revert s. unfold poll_events.
  induction evs as [|ev evs IH]; intros s Hs; cbn [fold_left].
  - exact Hs.
  - apply IH. now apply handle_event_stays_closed.
Qed.

Lemma poll_events_closes (evs : list Event) (s : Sim (F := F)) :
  existsb closes evs = true -> windowOpen (poll_events evs s) = false.
Proof.
  revert s. unfold poll_events.
  induction evs as [|ev evs IH]; intros s H; cbn [fold_left existsb] in *.
  - discriminate.
  - apply orb_true_iff in H. destruct H as [H|H].
    + apply (poll_events_stays_closed evs).
      destruct ev as [|[ | | | | | | | ]| |]; try discriminate; reflexivity.
    + now apply IH.
Qed.

Lemma poll_events_stays_open (evs : list Event) (s : Sim (F := F)) :
  existsb closes evs = false ->
  windowOpen (poll_events evs s) = windowOpen s.
Proof.
  revert s. unfold poll_events.
  induction evs as [|ev evs IH]; intros s H; cbn [fold_left existsb] in *.
  - reflexivity.
  - apply orb_false_iff in H. destruct H as [H1 H2].
    rewrite IH by assumption.
    destruct ev as [|[ | | | | | | | ]| |]; try discriminate; reflexivity.
Qed.

Lemma run_closed (frames : list (list Event * F)) (s : Sim (F := F)) :
  windowOpen s = false -> run frames s = s.
Proof. intro H. destruct frames as [|[evs dt] rest]; cbn [run]; [|rewrite H]; reflexivity. Qed.

Lemma run_app (frames1 frames2 : list (list Event * F)) (s : Sim (F := F)) :
  run (frames1 ++ frames2) s = run frames2 (run frames1 s).
Proof.
  revert s. induction frames1 as [|[evs dt] rest IH]; intro s; cbn [app run].
  - reflexivity.
  - destruct (windowOpen s) eqn:Hw.
    + apply IH.
    + symmetry. now apply run_closed.
Qed.

End FrameLoop.

(** X1: after at least one frame the pendulums are the initial ones
    updated once at the current clock: what is shown depends on the
    clock alone, not on the frames and events that led to it, and no
    pendulum is added or lost. *)
Theorem positions_follow_clock :
  forall (F : Type) (ops : FloatOps F) (lib : MathLib F)
         (ps : list Pendulum) (evs : list Event) (dt : F)
         (rest : list (list Event * F)),
    let s := run ((evs, dt) :: rest) (startup ps) in
    pendulums s = map (update (totalSimTime s)) ps /\
    length (pendulums s) = length ps.
Proof.
  intros. pose proof (run_from_startup evs dt rest ps) as H.
  cbv zeta in H. fold s in H. split; [exact H|].
  rewrite H. apply length_map.
Qed.

(** X2: a [Closed] event or the Escape key ends the loop: the frame
    in which it is polled still runs to its end, with every event that
    [pollEvent] returns in it, the clock step and the update of the
    pendulums; the window is closed when that frame ends, and no later
    frame runs. *)
Theorem close_ends_loop :
  forall (F : Type) (ops : FloatOps F) (lib : MathLib F)
         (evs : list Event) (dt : F) (rest later : list (list Event * F))
         (s : Sim (F := F)),
    windowOpen s = true -> existsb closes evs = true ->
    run ((evs, dt) :: rest) s = frame evs dt s /\
    windowOpen (frame evs dt s) = false /\
    run later (run ((evs, dt) :: rest) s) = frame evs dt s.
Proof.
  intros F ops lib evs dt rest later s Hopen Hclose.
  assert (Hw : windowOpen (frame evs dt s) = false).
  { cbn [frame windowOpen]. now apply poll_events_closes. }
  assert (Hr : run ((evs, dt) :: rest) s = frame evs dt s).
  { cbn [run]. rewrite Hopen. now apply run_closed. }
  split; [exact Hr|]. split; [exact Hw|].
  rewrite Hr. now apply run_closed.
Qed.

Lemma close_ends_loop_witness :
  run (lib := b32_lib (B32.mkLibm (fun x => x) (fun x => x) (fun x _ => x)))
      (([KeyPressed Up; Closed; KeyPressed Up], B32.round 1)
         :: [([KeyPressed Space], B32.round 1)])
      (startup [])
  = frame (lib := b32_lib (B32.mkLibm (fun x => x) (fun x => x)
                                      (fun x _ => x)))
          [KeyPressed Up; Closed; KeyPressed Up] (B32.round 1) (startup []).
Proof.
  apply (@close_ends_loop B32.f32 b32_ops
           (b32_lib (B32.mkLibm (fun x => x) (fun x => x) (fun x _ => x)))
           [KeyPressed Up; Closed; KeyPressed Up] (B32.round 1)
           [([KeyPressed Space], B32.round 1)] [] (startup []));
    reflexivity.
Defined.

(** X3: running two batches of frames one after the other is running
    their concatenation, and while no close event is polled the window
    stays open. *)
Theorem run_composes :
  forall (F : Type) (ops : FloatOps F) (lib : MathLib F)
         (frames1 frames2 : list (list Event * F)) (evs1 evs2 : list Event)
         (s : Sim (F := F)),
    run (frames1 ++ frames2) s = run frames2 (run frames1 s) /\
    poll_events (evs1 ++ evs2) s = poll_events evs2 (poll_events evs1 s) /\
    windowOpen (poll_events evs1 s)
    = windowOpen s && negb (existsb closes evs1).
Proof.
  intros. split; [apply run_app|]. split; [apply poll_events_app|].
  destruct (existsb closes evs1) eqn:E.
  - rewrite (poll_events_closes evs1 s E). now destruct (windowOpen s).
  - rewrite (poll_events_stays_open evs1 s E). now destruct (windowOpen s).
Qed.

(** X4: the space bar is an involution on the state, and a paused
    simulation is at rest: once a frame has run, a frame without events
    in a paused state changes nothing, neither the clock nor any
    pendulum. *)
Theorem paused_frame_changes_nothing :
  forall (F : Type) (ops : FloatOps F) (lib : MathLib F)
         (ps : list Pendulum) (evs : list Event) (dt dt' : F)
         (rest : list (list Event * F)) (s0 : Sim (F := F)),
    let s := run ((evs, dt) :: rest) (startup ps) in
    isPaused s = true ->
    handle_event (KeyPressed Space) (handle_event (KeyPressed Space) s0) = s0
    /\ frame [] dt' s = s.
Proof.
  intros F ops lib ps evs dt dt' rest s0 s Hp. split.
  - destruct s0 as [a b c d e]. cbn. now rewrite negb_involutive.
  - pose proof (run_from_startup evs dt rest ps) as H.
    cbv zeta in H. fold s in H.
    rewrite (Sim_eta s) at 2.
    unfold frame. cbn [poll_events fold_left]. unfold advance. rewrite Hp.
    f_equal. rewrite H at 1. rewrite map_update_update. now rewrite <- H.
Qed.

Lemma paused_frame_changes_nothing_witness :
  let lib := b32_lib (B32.mkLibm (fun x => x) (fun x => x) (fun x _ => x)) in
  frame (lib := lib) [] (B32.round 5)
        (run (lib := lib) [([KeyPressed Space], B32.round 1)]
             (startup [Pendulum_default]))
  = run (lib := lib) [([KeyPressed Space], B32.round 1)]
        (startup [Pendulum_default]).
Proof.
  apply (@paused_frame_changes_nothing B32.f32 b32_ops
           (b32_lib (B32.mkLibm (fun x => x) (fun x => x) (fun x _ => x)))
           [Pendulum_default] [KeyPressed Space] (B32.round 1) (B32.round 5)
           [] (startup [])).
  reflexivity.
Defined.

(** ** The pendulums of the program *)

Section BuiltPendulums.

Context {F : Type} {ops : FloatOps F} {lib : MathLib F}.

(** The loop over default-constructed pendulums builds [pendulum_at] at
    every index whose colour is defined. *)
Lemma setup_from_default (n : nat) (i : Z) :
  Forall (fun k => getColorFromRatio (colorRatio k) <> None)
         (map (fun k => (i + Z.of_nat k)%Z) (seq 0 n)) ->
  exists ps,
    setup_from i (repeat Pendulum_default n) = Some ps /\
    Forall2 (fun k p => exists c,
               getColorFromRatio (colorRatio k) = Some c /\
               p = pendulum_at k c)
            (map (fun k => (i + Z.of_nat k)%Z) (seq 0 n)) ps.
Proof.
  revert i. induction n as [|n IH]; intros i Hc.
  - exists []. split; [reflexivity | constructor].
  - rewrite indices_step in *.
    inversion Hc as [|k ks Hk Hks]; subst.
    destruct (IH (i + 1)%Z Hks) as (ps & E & R).
    cbn [repeat setup_from]. unfold setup_at.
    destruct (getColorFromRatio (colorRatio i)) as [c|] eqn:Ec; [|congruence].
    rewrite E. eexists. split; [reflexivity|].
    constructor; [|exact R]. exists c. split; [exact Ec | reflexivity].
Qed.

Lemma Forall2_map_r (A B : Type) (R : A -> B -> Prop) (f : B -> B)
    (l : list A) (l' : list B) :
  (forall a b, R a b -> R a (f b)) ->
  Forall2 R l l' -> Forall2 R l (map f l').
Proof.
  intros Hf H. induction H; cbn [map]; constructor; auto.
Qed.

Lemma strung_pendulums (pivot : sf.Vector2 F)
    (ps : list (Pendulum (F := F))) :
  Forall (fun p => sf.position (m_string0 p) = pivot /\
                   sf.position (m_string1 p) = sf.shapePosition (m_bob p))
         ps ->
  strung pivot (flat_map draw ps).
Proof.
  induction 1 as [|p ps [H0 H1] _ IH]; cbn [flat_map draw app].
  - constructor.
  - now constructor.
Qed.

Lemma flat_map_draw_length (ps : list (Pendulum (F := F))) :
  length (flat_map draw ps) = (2 * length ps)%nat.
Proof.
  induction ps as [|p ps IH]; cbn [flat_map draw app length]; lia.
Qed.

End BuiltPendulums.

(** On binary32 the 25 colours are defined, with channels in 0..255. *)
Lemma colors_b32_in_gamut :
  forallb (fun k : Z =>
             match getColorFromRatio (ops := b32_ops) (colorRatio k) with
             | Some c =>
                 (0 <=? sf.r c)%Z && (sf.r c <=? 255)%Z &&
                 (0 <=? sf.g c)%Z && (sf.g c <=? 255)%Z &&
                 (0 <=? sf.b c)%Z && (sf.b c <=? 255)%Z
             | None => false
             end)
          (map Z.of_nat (seq 0 25)) = true.
Proof. vm_compute. reflexivity. Qed.

Lemma initial_pendulums_b32_built (lm : B32.Libm) :
  exists ps,
    initial_pendulums (lib := b32_lib lm) = Some ps /\
    length ps = 25%nat /\
    Forall2 (fun k p => exists c,
               getColorFromRatio (ops := b32_ops) (colorRatio k) = Some c /\
               p = pendulum_at (lib := b32_lib lm) k c /\
               (0 <= sf.r c <= 255)%Z /\ (0 <= sf.g c <= 255)%Z /\
               (0 <= sf.b c <= 255)%Z)
            (map Z.of_nat (seq 0 25)) ps.
Proof.
  unfold initial_pendulums. change (Z.to_nat NUM_PENDULUMS) with 25%nat.
  destruct (setup_from_default (lib := b32_lib lm) 25 0) as (ps & E & R).
  { apply Forall_forall. intros k Hk.
    pose proof colors_b32_in_gamut as C. rewrite forallb_forall in C.
    specialize (C k Hk).
    destruct (getColorFromRatio (ops := b32_ops) (colorRatio k)); [discriminate | discriminate C]. }
  exists ps. split; [exact E|]. split.
  { apply Forall2_length in R. rewrite <- R, length_map, length_seq.
    reflexivity. }
  change (map (fun k : nat => (0 + Z.of_nat k)%Z) (seq 0 25))
    with (map Z.of_nat (seq 0 25)) in R.
  assert (G : Forall (fun k : Z => forall c,
                getColorFromRatio (ops := b32_ops) (colorRatio k) = Some c ->
                (0 <= sf.r c <= 255)%Z /\ (0 <= sf.g c <= 255)%Z /\
                (0 <= sf.b c <= 255)%Z) (map Z.of_nat (seq 0 25))).
  { apply Forall_forall. intros k Hk c Hc.
    pose proof colors_b32_in_gamut as C. rewrite forallb_forall in C.
    specialize (C k Hk). rewrite Hc in C.
    repeat (apply andb_true_iff in C; destruct C as [C ?]).
    repeat match goal with
           | H : (_ <=? _)%Z = true |- _ => apply Z.leb_le in H
           end.
    lia. }
  clear E. revert G.
  induction R as [|k p ks ps' (c & Hc & Hp) R IH]; intro G.
  - constructor.
  - pose proof (Forall_inv G) as Gk. pose proof (Forall_inv_tail G) as Gks.
    cbv beta in Gk.
    apply Forall2_cons; [|apply IH; exact Gks].
    exists c. split; [exact Hc|]. split; [exact Hp|]. apply Gk. exact Hc.
Qed.

(** X5: on binary32 the start-up loop builds 25 pendulums and every
    state of the simulation keeps, for the pendulum at index k, the
    derived frequency, length, amplitude and pivot, the pivot end of the
    string at the pivot with the string colour, the bob radius 12, its
    origin at its centre, its outline thickness 2, its fill colour
    [getColorFromRatio(k / 24)], a valid colour, and as outline that
    colour with every channel halved, between 0 and 127. *)
Theorem pendulums_keep_setup :
  forall (lm : B32.Libm),
  exists ps,
    initial_pendulums (lib := b32_lib lm) = Some ps /\
    forall frames : list (list Event * B32.f32),
      let s := run (lib := b32_lib lm) frames (startup ps) in
      length (pendulums s) = 25%nat /\
      Forall2
        (fun k p =>
           m_angularFrequency p = angularFreq k /\
           m_visualLength p = visualLength (lib := b32_lib lm) k /\
           m_amplitudeRad p = maxAmplitudeRad /\
           m_pivotPoint p = pivotPoint /\
           m_string0 p = sf.mkVertex pivotPoint STRING_COLOR /\
           sf.color (m_string1 p) = STRING_COLOR /\
           sf.radius (m_bob p) = BOB_RADIUS /\
           sf.origin (m_bob p) = sf.mkVector2 BOB_RADIUS BOB_RADIUS /\
           sf.outlineThickness (m_bob p) = B32.round 2 /\
           exists c,
             getColorFromRatio (ops := b32_ops) (colorRatio k) = Some c /\
             sf.fillColor (m_bob p) = c /\
             sf.outlineColor (m_bob p)
             = sf.rgb (sf.r c / 2) (sf.g c / 2) (sf.b c / 2) /\
             (0 <= sf.r c / 2 <= 127)%Z /\ (0 <= sf.g c / 2 <= 127)%Z /\
             (0 <= sf.b c / 2 <= 127)%Z)
        (map Z.of_nat (seq 0 25)) (pendulums s).
Proof.
  intro lm.
  destruct (initial_pendulums_b32_built lm) as (ps & E & L & R).
  exists ps. split; [exact E|]. intros frames s.
  assert (R0 : Forall2
        (fun k p =>
           m_angularFrequency p = angularFreq k /\
           m_visualLength p = visualLength (lib := b32_lib lm) k /\
           m_amplitudeRad p = maxAmplitudeRad /\
           m_pivotPoint p = pivotPoint /\
           m_string0 p = sf.mkVertex pivotPoint STRING_COLOR /\
           sf.color (m_string1 p) = STRING_COLOR /\
           sf.radius (m_bob p) = BOB_RADIUS /\
           sf.origin (m_bob p) = sf.mkVector2 BOB_RADIUS BOB_RADIUS /\
           sf.outlineThickness (m_bob p) = B32.round 2 /\
           exists c,
             getColorFromRatio (ops := b32_ops) (colorRatio k) = Some c /\
             sf.fillColor (m_bob p) = c /\
             sf.outlineColor (m_bob p)
             = sf.rgb (sf.r c / 2) (sf.g c / 2) (sf.b c / 2) /\
             (0 <= sf.r c / 2 <= 127)%Z /\ (0 <= sf.g c / 2 <= 127)%Z /\
             (0 <= sf.b c / 2 <= 127)%Z)
        (map Z.of_nat (seq 0 25)) ps).
  { clear E L s frames.
    induction R as [|k p ks ps' (c & Hc & Hp & Br & Bg & Bb) R IH];
      constructor; [|exact IH].
    subst p. repeat (split; [reflexivity|]).
    exists c. split; [exact Hc|]. split; [reflexivity|].
    assert (Q : forall z, (0 <= z <= 255)%Z ->
                Z.quot z 2 = (z / 2)%Z /\ (0 <= z / 2 <= 127)%Z).
    { intros z Hz. rewrite Z.quot_div_nonneg by lia.
      split; [reflexivity|]. split.
      - apply Z.div_pos; lia.
      - assert (z / 2 < 128)%Z by (apply Z.div_lt_upper_bound; lia). lia. }
    destruct (Q _ Br) as [Er Br'], (Q _ Bg) as [Eg Bg'], (Q _ Bb) as [Eb Bb'].
    split; [|auto].
    cbn [pendulum_at setup m_bob sf.outlineColor]. now rewrite Er, Eg, Eb. }
  destruct frames as [|[evs dt] rest].
  - subst s. cbn [run startup pendulums]. split; [exact L | exact R0].
  - pose proof (run_from_startup (lib := b32_lib lm) evs dt rest ps) as H.
    cbv zeta in H. fold s in H. rewrite H. split.
    + now rewrite length_map.
    + apply Forall2_map_r; [|exact R0].
      intros k p Hp. exact Hp.
Qed.

(** ** What a frame draws *)

Lemma updated_pendulums_strung (F : Type) (ops : FloatOps F)
    (lib : MathLib F) (pivot : sf.Vector2 F) (t : F)
    (ps : list (Pendulum (F := F))) :
  Forall (fun p => sf.position (m_string0 p) = pivot) ps ->
  strung pivot (flat_map draw (map (update t) ps)).
Proof.
  intro H. apply strung_pendulums.
  induction H as [|p ps Hp _ IH]; cbn [map]; constructor; auto.
Qed.

(** X6: on binary32, every frame clears the window, draws the pivot
    marker, then for each of the 25 pendulums its string followed by its
    bob, and displays; every string runs from the position of the pivot
    marker to the position of the bob drawn right after it. *)
Theorem render_strings_reach_bobs :
  forall (lm : B32.Libm),
  exists ps,
    initial_pendulums (lib := b32_lib lm) = Some ps /\
    forall (evs : list Event) (dt : B32.f32)
           (rest : list (list Event * B32.f32)),
      let s := run (lib := b32_lib lm) ((evs, dt) :: rest) (startup ps) in
      exists shapes,
        render s
        = Clear BACKGROUND_COLOR :: DrawCircle pivotVisual ::
          shapes ++ [Display] /\
        length shapes = 50%nat /\
        strung (sf.shapePosition (pivotVisual (ops := b32_ops))) shapes.
Proof.
  intro lm.
  destruct (initial_pendulums_b32_built lm) as (ps & E & L & R).
  exists ps. split; [exact E|]. intros evs dt rest s.
  exists (flat_map draw (pendulums s)).
  split; [reflexivity|].
  pose proof (run_from_startup (lib := b32_lib lm) evs dt rest ps) as H.
  cbv zeta in H. fold s in H.
  split.
  - rewrite flat_map_draw_length, H, length_map, L. reflexivity.
  - rewrite H. apply updated_pendulums_strung.
    clear - R. induction R as [|k p ks ps' (c & _ & Hp & _) _ IH];
      constructor; [|exact IH].
    subst p. reflexivity.
Qed.

(** The fill colours of the pendulums the loop builds are the colours of
    the ratios [k / 24]. *)
Lemma built_fill_colours (lm : B32.Libm)
    (ks : list Z) (ps : list (Pendulum (F := B32.f32))) :
  Forall2 (fun k p => exists c,
             getColorFromRatio (ops := b32_ops) (colorRatio k) = Some c /\
             p = pendulum_at (lib := b32_lib lm) k c /\
             (0 <= sf.r c <= 255)%Z /\ (0 <= sf.g c <= 255)%Z /\
             (0 <= sf.b c <= 255)%Z) ks ps ->
  map (fun p => Some (sf.fillColor (m_bob p))) ps
  = map (fun k => getColorFromRatio (ops := b32_ops) (colorRatio k)) ks.
Proof.
  induction 1 as [|k p ks ps (c & Hc & Hp & _) _ IH]; cbn [map].
  - reflexivity.
  - rewrite IH, Hc, Hp. reflexivity.
Qed.

Lemma colour_table_b32 :
  exists cs,
    map (fun k => getColorFromRatio (ops := b32_ops) (colorRatio k))
        (map Z.of_nat (seq 0 25))
    = map Some cs /\
    NoDup cs /\
    nth_error cs 0 = Some (sf.rgb 255 0 0) /\
    nth_error cs 12 = Some (sf.rgb 0 255 0) /\
    nth_error cs 24 = Some (sf.rgb 0 0 255).
Proof.
  pose (cs := map (fun k => match getColorFromRatio (ops := b32_ops)
                                    (colorRatio k)
                            with Some c => c | None => sf.White end)
                  (map Z.of_nat (seq 0 25))).
  exists cs. split; [vm_compute; reflexivity|].
  vm_compute in cs. subst cs.
  split; [|repeat split].
  repeat (constructor;
          [cbn [In]; intros H;
           repeat (destruct H as [H|H]; [discriminate H|]); exact H|]).
  constructor.
Qed.

Lemma map_Some_inj (A : Type) (l l' : list A) :
  map Some l = map Some l' -> l = l'.
Proof.
  revert l'. induction l as [|x l IH]; intros [|y l'] E; cbn [map] in E;
    try discriminate; trivial.
  injection E as -> E. f_equal. now apply IH.
Qed.

(** X7: on binary32 the 25 bobs keep 25 different fill colours in every
    state of the simulation; the first is pure red, the middle one pure
    green and the last pure blue. *)
Theorem bob_colours_distinct :
  forall (lm : B32.Libm),
  exists ps,
    initial_pendulums (lib := b32_lib lm) = Some ps /\
    forall frames : list (list Event * B32.f32),
      let s := run (lib := b32_lib lm) frames (startup ps) in
      let colours := map (fun p => sf.fillColor (m_bob p)) (pendulums s) in
      NoDup colours /\
      nth_error colours 0 = Some (sf.rgb 255 0 0) /\
      nth_error colours 12 = Some (sf.rgb 0 255 0) /\
      nth_error colours 24 = Some (sf.rgb 0 0 255).
Proof.
  intro lm.
  destruct (initial_pendulums_b32_built lm) as (ps & E & _ & R).
  exists ps. split; [exact E|]. intros frames s colours.
  assert (Ec : colours = map (fun p => sf.fillColor (m_bob p)) ps).
  { subst colours s. destruct frames as [|[evs dt] rest].
    - reflexivity.
    - pose proof (run_from_startup (lib := b32_lib lm) evs dt rest ps) as H.
      cbv zeta in H. rewrite H, map_map. reflexivity. }
  clearbody colours. clear s.
  apply built_fill_colours in R.
  destruct colour_table_b32 as (cs & T & N & C0 & C12 & C24).
  rewrite T in R.
  rewrite <- (map_map (fun p => sf.fillColor (m_bob p)) Some) in R.
  apply map_Some_inj in R. rewrite <- Ec in R. rewrite R.
  auto.
Qed.

(** ** The speed keys at the ends of the float range *)

Section SpeedKeys.

Context {F : Type} {ops : FloatOps F} {lib : MathLib F}.

(** The time scale after the events depends on the time scale alone. *)
Lemma poll_events_timeScale_ext (evs : list Event) (s s' : Sim (F := F)) :
  timeScale s = timeScale s' ->
  timeScale (poll_events evs s) = timeScale (poll_events evs s').
Proof.
  revert s s'. unfold poll_events.
  induction evs as [|ev evs IH]; intros s s' E; cbn [fold_left].
  - exact E.
  - apply IH.
    destruct ev as [|[ | | | | | | | ]| |]; cbn; trivial; now rewrite E.
Qed.

(** A time scale that neither speed key changes is kept by all events. *)
Lemma poll_events_timeScale_fixed (evs : list Event) (s : Sim (F := F)) :
  f_mul (timeScale s) (f_lit (12 # 10)) = timeScale s ->
  f_div (timeScale s) (f_lit (12 # 10)) = timeScale s ->
  timeScale (poll_events evs s) = timeScale s.
Proof.
  intros Hm Hd. revert s Hm Hd. unfold poll_events.
  induction evs as [|ev evs IH]; intros s Hm Hd; cbn [fold_left].
  - reflexivity.
  - assert (E : timeScale (handle_event ev s) = timeScale s).
    { destruct (handle_event_timeScale ev s) as [E|[E|E]]; congruence. }
    rewrite IH; rewrite ?E; trivial.
Qed.

End SpeedKeys.

Lemma speed_up_overflows :
  timeScale (poll_events (repeat (KeyPressed Up) 487)
                         (startup (ops := b32_ops) []))
  = B32.Inf false /\
  B32.finite
    (timeScale (poll_events (repeat (KeyPressed Up) 486)
                            (startup (ops := b32_ops) []))) = true.
Proof. vm_compute. split; reflexivity. Qed.

Lemma slow_down_underflows :
  timeScale (poll_events (repeat (KeyPressed Down) 561)
                         (startup (ops := b32_ops) []))
  = B32.Fin false 2 (-149).
Proof. vm_compute. reflexivity. Qed.

Lemma speed_keys_keep_clock (k : Key) (n : nat) (s : Sim (F := B32.f32)) :
  k = Up \/ k = Down ->
  totalSimTime (poll_events (repeat (KeyPressed k) n) s) = totalSimTime s /\
  isPaused (poll_events (repeat (KeyPressed k) n) s) = isPaused s.
Proof.
  intro Hk. revert s. induction n as [|n IH]; intro s; [split; reflexivity|].
  cbn [repeat]. change (KeyPressed k :: repeat (KeyPressed k) n)
    with ([KeyPressed k] ++ repeat (KeyPressed k) n).
  rewrite poll_events_app.
  destruct (IH (poll_events [KeyPressed k] s)) as [E1 E2].
  rewrite E1, E2. destruct Hk; subst k; split; reflexivity.
Qed.

Lemma infinite_speed_absorbs (lm : B32.Libm) (s : Sim (F := B32.f32))
    (evs : list Event) (m : positive) (e : Z) :
  timeScale s = B32.Inf false ->
  totalSimTime s = B32.round 0 -> isPaused s = false ->
  timeScale (poll_events evs s) = B32.Inf false /\
  totalSimTime (frame (lib := b32_lib lm) [] (B32.Fin false m e) s)
  = B32.Inf false.
Proof.
  intros Ef Et Ep. split.
  - rewrite poll_events_timeScale_fixed; rewrite ?Ef; reflexivity.
  - cbn [frame poll_events fold_left totalSimTime].
    rewrite Ep, Ef, Et. reflexivity.
Qed.

Lemma smallest_speed_absorbs (s : Sim (F := B32.f32)) (evs : list Event) :
  timeScale s = B32.Fin false 2 (-149) ->
  B32.bits (timeScale s) = 2%Z /\
  timeScale (poll_events evs s) = timeScale s.
Proof.
  intro Es. split.
  - rewrite Es. reflexivity.
  - apply poll_events_timeScale_fixed; rewrite Es; vm_compute; reflexivity.
Qed.

(** X8: the speed keys saturate on binary32.  487 presses of Up from
    the start take the time scale to [+inf] and 561 presses of Down take
    it to the float of bit pattern 2; from either no later event changes
    it again.  At the infinite time scale one frame of positive finite
    length takes the simulated time to [+inf]. *)
Theorem speed_keys_saturate :
  forall (lm : B32.Libm) (ps : list (Pendulum (F := B32.f32)))
         (evs : list Event) (m : positive) (e : Z),
    let fastest := poll_events (repeat (KeyPressed Up) 487) (startup ps) in
    let slowest := poll_events (repeat (KeyPressed Down) 561) (startup ps) in
    timeScale fastest = B32.Inf false /\
    timeScale (poll_events evs fastest) = B32.Inf false /\
    totalSimTime (frame (lib := b32_lib lm) [] (B32.Fin false m e) fastest)
    = B32.Inf false /\
    B32.bits (timeScale slowest) = 2%Z /\
    timeScale (poll_events evs slowest) = timeScale slowest.
Proof.
  intros lm ps evs m e fastest slowest.
  assert (Ef : timeScale fastest = B32.Inf false).
  { subst fastest.
    rewrite (@poll_events_timeScale_ext _ _ (repeat (KeyPressed Up) 487)
               (startup ps) (startup [])) by reflexivity.
    exact (proj1 speed_up_overflows). }
  assert (Es : timeScale slowest = B32.Fin false 2 (-149)).
  { subst slowest.
    rewrite (@poll_events_timeScale_ext _ _ (repeat (KeyPressed Down) 561)
               (startup ps) (startup [])) by reflexivity.
    exact slow_down_underflows. }
  destruct (@speed_keys_keep_clock Up 487 (startup ps) (or_introl eq_refl))
    as [Et Ep].
  fold fastest in Et, Ep.
  clearbody fastest slowest.
  destruct (@infinite_speed_absorbs lm fastest evs m e Ef Et Ep) as [A B].
  destruct (@smallest_speed_absorbs slowest evs Es) as [C D].
  auto.
Qed.

(** X9: in exact arithmetic Up followed by Down, or Down followed by
    Up, restores the time scale.  On binary32 it need not: after 15
    presses of Up from the start, Up then Down leaves the time scale
    one unit in the last place higher. *)
Theorem speed_round_trip :
  (forall s : Sim (F := R),
     timeScale (poll_events [KeyPressed Up; KeyPressed Down] s)
     = timeScale s /\
     timeScale (poll_events [KeyPressed Down; KeyPressed Up] s)
     = timeScale s) /\
  (forall ps : list (Pendulum (F := B32.f32)),
     let s := poll_events (repeat (KeyPressed Up) 15) (startup ps) in
     B32.bits (timeScale s) = 0x41768332%Z /\
     B32.bits
       (timeScale (poll_events [KeyPressed Up; KeyPressed Down] s))
     = 0x41768333%Z).
Proof.
  split.
  - intro s.
    cbn [poll_events fold_left handle_event timeScale f_mul f_div f_lit
         ideal_ops].
    unfold Ideal.lit. cbn [Qnum Qden]. split; field.
  - intros ps s. subst s.
    rewrite <- (@poll_events_app _ _ _).
    rewrite (@poll_events_timeScale_ext _ _ (repeat (KeyPressed Up) 15)
               (startup ps) (startup [])) by reflexivity.
    rewrite (@poll_events_timeScale_ext _ _
               (repeat (KeyPressed Up) 15 ++ [KeyPressed Up; KeyPressed Down])
               (startup ps) (startup [])) by reflexivity.
    vm_compute. split; reflexivity.
Qed.

Lemma unit_ratio_in_range (ratio : B32.f32) :
  B32.valid ratio = true ->
  B32.leb (B32.round 0) ratio = true ->
  B32.leb ratio (B32.round 1) = true ->
  B32.in_range 0 1 ratio.
Proof.
  intros Hv H0 H1.
  apply in_range_of_float_bounds; trivial; vm_compute; reflexivity.
Qed.

Lemma leb_half (ratio : B32.f32) :
  B32.finite ratio = true ->
  (B32.leb ratio (B32.round (1 # 2)) = true <-> (B32.val ratio <= 1 # 2)%Q) /\
  (B32.leb (B32.round (1 # 2)) ratio = true <-> (1 # 2 <= B32.val ratio)%Q).
Proof.
  intro F.
  assert (E : (B32.val (B32.round (1 # 2)) == 1 # 2)%Q)
    by (vm_compute; reflexivity).
  split.
  - rewrite B32Facts.leb_finite by (trivial; reflexivity). now rewrite E.
  - rewrite B32Facts.leb_finite by (trivial; reflexivity). now rewrite E.
Qed.

(** X10: red and blue never mix.  For every float ratio in [[0, 1]] the
    colour is defined; up to one half its blue byte is 0, and beyond one
    half its red byte is 0. *)
Theorem ramp_red_blue_exclusive :
  forall ratio : B32.f32,
    B32.valid ratio = true ->
    B32.leb (B32.round 0) ratio = true ->
    B32.leb ratio (B32.round 1) = true ->
    exists c,
      getColorFromRatio ratio = Some c /\
      (if B32.leb ratio (B32.round (1 # 2)) then sf.b c = 0%Z
       else sf.r c = 0%Z) /\
      (sf.r c = 0%Z \/ sf.b c = 0%Z).
Proof.
  intros ratio Hv H0 H1.
  pose proof (unit_ratio_in_range ratio Hv H0 H1) as H.
  destruct (B32Facts.color_unit H) as (E & _).
  cbv zeta in E. eexists. split; [exact E|].
  destruct H as (F & V & L & U).
  destruct (leb_half ratio F) as [Hh _].
  destruct (B32.leb ratio (B32.round (1 # 2))) eqn:B.
  - assert (Z : channel_b ratio = B32.Zero false).
    { apply B32Ramp.channel_b_off. repeat split; trivial. now apply Hh. }
    cbn [sf.rgb sf.r sf.b]. rewrite Z. split; [reflexivity | right; reflexivity].
  - assert (Hgt : (1 # 2 < B32.val ratio)%Q).
    { apply Qnot_le_lt. intro C. apply Hh in C. discriminate. }
    assert (Z : channel_r ratio = B32.Zero false).
    { apply B32Ramp.channel_r_off. repeat split; trivial. lra. }
    cbn [sf.rgb sf.r sf.b]. rewrite Z. split; [reflexivity | left; reflexivity].
Qed.

Lemma ramp_red_blue_exclusive_witness :
  exists c,
    getColorFromRatio (B32.round (3 # 10)) = Some c /\
    (sf.r c = 0%Z \/ sf.b c = 0%Z).
Proof.
  destruct (ramp_red_blue_exclusive (B32.round (3 # 10)))
    as (c & E & _ & D); try (vm_compute; reflexivity).
  exists c. split; assumption.
Defined.

(** X11: the ramp is monotone.  For float ratios [r1 <= r2] in [[0, 1]],
    the red byte of [r2] is at most that of [r1], the blue byte at least
    that of [r1], and the green byte rises while both ratios are at most
    one half and falls once both are at least one half. *)
Theorem ramp_monotone :
  forall r1 r2 : B32.f32,
    B32.valid r1 = true -> B32.valid r2 = true ->
    B32.leb (B32.round 0) r1 = true ->
    B32.leb r1 r2 = true ->
    B32.leb r2 (B32.round 1) = true ->
    exists c1 c2,
      getColorFromRatio r1 = Some c1 /\
      getColorFromRatio r2 = Some c2 /\
      (sf.r c2 <= sf.r c1)%Z /\
      (sf.b c1 <= sf.b c2)%Z /\
      implb (B32.leb r2 (B32.round (1 # 2))) (sf.g c1 <=? sf.g c2)%Z = true /\
      implb (B32.leb (B32.round (1 # 2)) r1) (sf.g c2 <=? sf.g c1)%Z = true.
Proof.
  intros r1 r2 V1 V2 H0 H12 H1.
  assert (F1 : B32.finite r1 = true).
  { destruct r1 as [| [|] | |]; trivial; try discriminate.
    destruct r2 as [| [|] | |]; discriminate. }
  assert (F2 : B32.finite r2 = true).
  { destruct r2 as [| [|] | |]; trivial; try discriminate.
    destruct r1 as [| [|] | |]; discriminate. }
  assert (Hle : (B32.val r1 <= B32.val r2)%Q)
    by (apply B32Facts.leb_finite; trivial).
  assert (Z0 : (B32.val (B32.round 0) == 0)%Q) by reflexivity.
  assert (Z1 : (B32.val (B32.round 1) == 1)%Q) by (vm_compute; reflexivity).
  assert (L1 : (0 <= B32.val r1)%Q).
  { rewrite <- Z0. apply B32Facts.leb_finite; trivial. }
  assert (U2 : (B32.val r2 <= 1)%Q).
  { rewrite <- Z1. apply B32Facts.leb_finite; trivial. }
  assert (R1 : B32.in_range 0 1 r1) by (repeat split; trivial; lra).
  assert (R2 : B32.in_range 0 1 r2) by (repeat split; trivial; lra).
  destruct (B32Facts.color_unit R1) as (E1 & _).
  destruct (B32Facts.color_unit R2) as (E2 & _).
  destruct (B32Facts.channels_unit R1) as (Cr1 & Cg1 & Cb1).
  destruct (B32Facts.channels_unit R2) as (Cr2 & Cg2 & Cb2).
  cbv zeta in E1, E2.
  eexists. eexists. split; [exact E1|]. split; [exact E2|].
  cbn [sf.rgb sf.r sf.g sf.b].
  split; [|split; [|split]].
  - apply B32Ramp.byte_mono; trivial. now apply B32Ramp.channel_r_mono.
  - apply B32Ramp.byte_mono; trivial. now apply B32Ramp.channel_b_mono.
  - destruct (leb_half r2 F2) as [Hh _].
    destruct (B32.leb r2 (B32.round (1 # 2))) eqn:B; [|reflexivity].
    cbn [implb]. apply Z.leb_le.
    apply B32Ramp.byte_mono; trivial.
    apply B32Ramp.channel_g_rises; trivial. now apply Hh.
  - destruct (leb_half r1 F1) as [_ Hh].
    destruct (B32.leb (B32.round (1 # 2)) r1) eqn:B; [|reflexivity].
    cbn [implb]. apply Z.leb_le.
    apply B32Ramp.byte_mono; trivial.
    apply B32Ramp.channel_g_falls; trivial. now apply Hh.
Qed.

Lemma ramp_monotone_witness :
  exists c1 c2,
    getColorFromRatio (B32.round (1 # 3)) = Some c1 /\
    getColorFromRatio (B32.round (2 # 3)) = Some c2 /\
    (sf.r c2 <= sf.r c1)%Z /\ (sf.b c1 <= sf.b c2)%Z.
Proof.
  destruct (ramp_monotone (B32.round (1 # 3)) (B32.round (2 # 3)))
    as (c1 & c2 & E1 & E2 & Hr & Hb & _); try (vm_compute; reflexivity).
  exists c1, c2. repeat split; assumption.
Defined.

(** X12: [getColorFromRatio] has no result off the ramp.  For a NaN, an
    infinity, or a float at or below -1/256 or at or above 257/256, the
    green channel scales to a value that is not finite or is below zero,
    and its conversion to a byte is undefined. *)
Theorem colour_undefined_off_ramp :
  forall ratio : B32.f32,
    B32.valid ratio = true ->
    B32.ltb (B32.round (- (1 # 256))) ratio
    && B32.ltb ratio (B32.round (257 # 256)) = false ->
    getColorFromRatio ratio = None.
Proof.
  intros ratio V H.
  assert (G : scale_u8 (channel_g ratio) = None).
  { destruct (B32.finite ratio) eqn:F.
    - apply B32Edge.scale_u8_undefined. apply B32Edge.channel_g_far; trivial.
      assert (Fl : B32.finite (B32.round (- (1 # 256))) = true) by reflexivity.
      assert (Fh : B32.finite (B32.round (257 # 256)) = true) by reflexivity.
      assert (El : (B32.val (B32.round (- (1 # 256))) == - (1 # 256))%Q)
        by (vm_compute; reflexivity).
      assert (Eh : (B32.val (B32.round (257 # 256)) == 257 # 256)%Q)
        by (vm_compute; reflexivity).
      apply andb_false_iff in H. destruct H as [H|H].
      + left. apply Qnot_lt_le. intro C. rewrite <- El in C.
        apply B32Facts.ltb_finite in C; trivial. congruence.
      + right. apply Qnot_lt_le. intro C. rewrite <- Eh in C.
        apply B32Facts.ltb_finite in C; trivial. congruence.
    - destruct ratio as [s|[|]| |s m e]; try discriminate;
        vm_compute; reflexivity. }
  unfold getColorFromRatio. rewrite G.
  destruct (scale_u8 (channel_r ratio)); reflexivity.
Qed.

Lemma colour_undefined_off_ramp_witness :
  getColorFromRatio (B32.round (3 # 2)) = None.
Proof.
  apply (colour_undefined_off_ramp (B32.round (3 # 2)));
    vm_compute; reflexivity.
Defined.

Section RunningClock.

Context {F : Type} {ops : FloatOps F} {lib : MathLib F}.


End RunningClock.



(** ** Lengths and positions on binary32 *)

Section LengthsB32.

(** With a square that is the rounded product, the lengths do not
    depend on the rest of the C library. *)
Lemma visualLength_b32_square (lm : B32.Libm) (i : Z) :
  (forall x, B32.powf lm x (B32.round 2) = B32.mul x x) ->
  visualLength (lib := b32_lib lm) i
  = visualLength
      (lib := b32_lib (B32.mkLibm (fun x => x) (fun x => x)
                                  (fun x _ => B32.mul x x))) i.
Proof.
  intro Hpow.
  unfold visualLength, pixelsPerMeter, longestPhysicsL, physicsLength.
  cbn [f_pow b32_lib f_lit b32_ops B32.powf]. rewrite !Hpow. reflexivity.
Qed.

Lemma visualLength_b32_table :
  forallb
    (fun i : Z =>
       B32.ltb (B32.Zero false)
         (visualLength
            (lib := b32_lib (B32.mkLibm (fun x => x) (fun x => x)
                                        (fun x _ => B32.mul x x))) i) &&
       B32.leb (B32.round 0)
         (visualLength
            (lib := b32_lib (B32.mkLibm (fun x => x) (fun x => x)
                                        (fun x _ => B32.mul x x))) i) &&
       B32.leb
         (visualLength
            (lib := b32_lib (B32.mkLibm (fun x => x) (fun x => x)
                                        (fun x _ => B32.mul x x))) i)
         (B32.round 800) &&
       B32.valid
         (visualLength
            (lib := b32_lib (B32.mkLibm (fun x => x) (fun x => x)
                                        (fun x _ => B32.mul x x))) i) &&
       forallb
         (fun j : Z =>
            implb (i <? j)%Z
              (B32.ltb
                 (visualLength
                    (lib := b32_lib (B32.mkLibm (fun x => x) (fun x => x)
                                                (fun x _ => B32.mul x x))) j)
                 (visualLength
                    (lib := b32_lib (B32.mkLibm (fun x => x) (fun x => x)
                                                (fun x _ => B32.mul x x))) i)))
         (map Z.of_nat (seq 0 25)))
    (map Z.of_nat (seq 0 25)) = true.
Proof. vm_compute. reflexivity. Qed.

Lemma visualLength_b32_facts (lm : B32.Libm) (i : Z) :
  (forall x, B32.powf lm x (B32.round 2) = B32.mul x x) ->
  (0 <= i < NUM_PENDULUMS)%Z ->
  B32.ltb (B32.Zero false) (visualLength (lib := b32_lib lm) i) = true /\
  B32.in_range 0 800 (visualLength (lib := b32_lib lm) i) /\
  forall j : Z, (i < j < NUM_PENDULUMS)%Z ->
    B32.ltb (visualLength (lib := b32_lib lm) j)
            (visualLength (lib := b32_lib lm) i) = true.
Proof.
  intros Hpow Hi. unfold NUM_PENDULUMS in *.
  pose proof (@range_forallb _ 25 visualLength_b32_table i ltac:(lia)) as T.
  cbv beta in T.
  destruct (proj1 (andb_true_iff _ _) T) as [T1 Tj]. clear T.
  destruct (proj1 (andb_true_iff _ _) T1) as [T2 Tv]. clear T1.
  destruct (proj1 (andb_true_iff _ _) T2) as [T3 Tu]. clear T2.
  destruct (proj1 (andb_true_iff _ _) T3) as [Tp Tl]. clear T3.
  rewrite <- (visualLength_b32_square lm i Hpow) in Tp, Tl, Tu, Tv.
  split; [exact Tp|]. split.
  - assert (E0 : (B32.val (B32.round 0) == 0)%Q) by reflexivity.
    assert (E8 : (B32.val (B32.round 800) == 800)%Q)
      by (vm_compute; reflexivity).
    destruct (@B32Facts.in_range_of_leb (B32.round 0) (B32.round 800) _
                eq_refl eq_refl Tv Tl Tu) as (F & V & L & U).
    repeat split; trivial; lra.
  - intros j Hj.
    pose proof (@range_forallb _ 25 Tj j ltac:(lia)) as Hij.
    cbv beta in Hij.
    assert (E : (i <? j)%Z = true) by (apply Z.ltb_lt; lia).
    rewrite E in Hij. cbn [implb] in Hij.
    now rewrite !(visualLength_b32_square lm _ Hpow).
Qed.

End LengthsB32.

(** X14: on binary32 the strings shorten along the wave.  With a C
    library whose [powf(x, 2)] is the rounded product [x * x], the
    visual length of pendulum 0 is the float 800, [maxVisualLength], and
    the 25 visual lengths are positive floats, strictly decreasing in the
    index. *)
Theorem visual_lengths_shorten_b32 :
  forall (lm : B32.Libm) (i j : Z),
    (forall x, B32.powf lm x (B32.round 2) = B32.mul x x) ->
    (0 <= i)%Z -> (i < j)%Z -> (j < NUM_PENDULUMS)%Z ->
    visualLength (lib := b32_lib lm) 0 = maxVisualLength /\
    B32.bits (maxVisualLength (ops := b32_ops)) = 0x44480000%Z /\
    B32.ltb (visualLength (lib := b32_lib lm) j)
            (visualLength (lib := b32_lib lm) i) = true /\
    B32.ltb (B32.Zero false) (visualLength (lib := b32_lib lm) j) = true /\
    B32.leb (visualLength (lib := b32_lib lm) i) maxVisualLength = true.
Proof.
  intros lm i j Hpow H0 Hij HN.
  assert (Hi : (0 <= i < NUM_PENDULUMS)%Z) by lia.
  assert (Hj : (0 <= j < NUM_PENDULUMS)%Z) by lia.
  destruct (visualLength_b32_facts lm Hpow Hi) as (_ & Ri & Di).
  destruct (visualLength_b32_facts lm Hpow Hj) as (Pj & _ & _).
  split.
  { rewrite (visualLength_b32_square lm 0 Hpow). vm_compute. reflexivity. }
  split; [vm_compute; reflexivity|].
  split; [apply Di; lia|]. split; [exact Pj|].
  destruct Ri as (F & V & L & U).
  assert (Fm : B32.finite (maxVisualLength (ops := b32_ops)) = true)
    by (vm_compute; reflexivity).
  assert (E : (B32.val (maxVisualLength (ops := b32_ops)) == 800)%Q)
    by (vm_compute; reflexivity).
  apply (proj2 (B32Facts.leb_finite _ _ F Fm)). rewrite E. exact U.
Qed.

Lemma visual_lengths_shorten_b32_witness :
  B32.ltb
    (visualLength
       (lib := b32_lib (B32.mkLibm (fun x => x) (fun x => x)
                                   (fun x _ => B32.mul x x))) 24)
    (visualLength
       (lib := b32_lib (B32.mkLibm (fun x => x) (fun x => x)
                                   (fun x _ => B32.mul x x))) 0) = true.
Proof.
  assert (A : (0 <= 0)%Z) by lia.
  assert (B : (0 < 24)%Z) by lia.
  assert (C : (24 < NUM_PENDULUMS)%Z) by reflexivity.
  exact (proj1 (proj2 (proj2
    (visual_lengths_shorten_b32
       (B32.mkLibm (fun x => x) (fun x => x) (fun x _ => B32.mul x x))
       (fun x => eq_refl) A B C)))).
Defined.

(** X15: on binary32 every bob stays on the screen.  With a C library
    whose [sinf] and [cosf] return values in [[-1, 1]] on finite
    arguments, whose [cosf] is not negative on [[-1/2, 1/2]] and whose
    [powf(x, 2)] is the rounded product [x * x], at every time [t] for
    which [w_i * t] is finite the bob of pendulum [i] is positioned in
    [[100, 1700] x [50, 850]]: not above the pivot, and with its whole
    disc of radius 12 inside the 1800 x 1000 window. *)
Theorem bobs_stay_on_screen_b32 :
  forall (lm : B32.Libm) (i : Z) (c : sf.Color) (t : B32.f32),
    (forall x, B32.powf lm x (B32.round 2) = B32.mul x x) ->
    (forall x, B32.finite x = true ->
               B32.in_range (- (1)) 1 (B32.sinf lm x) /\
               B32.in_range (- (1)) 1 (B32.cosf lm x)) ->
    (forall x, B32.in_range (- (1 # 2)) (1 # 2) x ->
               (0 <= B32.val (B32.cosf lm x))%Q) ->
    (0 <= i < NUM_PENDULUMS)%Z ->
    B32.finite (B32.mul (angularFreq i) t) = true ->
    let pos := sf.shapePosition
                 (m_bob (update (lib := b32_lib lm) t
                           (pendulum_at (lib := b32_lib lm) i c))) in
    B32.in_range 100 1700 (sf.x pos) /\
    B32.in_range 50 850 (sf.y pos) /\
    (B32.val (sf.y (pivotPoint (ops := b32_ops))) <= B32.val (sf.y pos))%Q /\
    (0 <= B32.val (sf.x pos) - B32.val (BOB_RADIUS (ops := b32_ops)))%Q /\
    (B32.val (sf.x pos) + B32.val (BOB_RADIUS (ops := b32_ops))
     <= inject_Z SCREEN_WIDTH)%Q /\
    (0 <= B32.val (sf.y pos) - B32.val (BOB_RADIUS (ops := b32_ops)))%Q /\
    (B32.val (sf.y pos) + B32.val (BOB_RADIUS (ops := b32_ops))
     <= inject_Z SCREEN_HEIGHT)%Q.
Proof.
  intros lm i c t Hpow Hunit Hcos Hi Ht pos.
  destruct (visualLength_b32_facts lm Hpow Hi) as (_ & (FL & VL & LL & UL) & _).
  set (L := visualLength (lib := b32_lib lm) i) in *.
  set (theta := B32.mul maxAmplitudeRad
                        (B32.cosf lm (B32.mul (angularFreq i) t))).
  assert (Epos : pos = sf.mkVector2
                         (B32.add (sf.x pivotPoint)
                                  (B32.mul L (B32.sinf lm theta)))
                         (B32.add (sf.y pivotPoint)
                                  (B32.mul L (B32.cosf lm theta))))
    by reflexivity.
  clearbody pos. subst pos. cbn [sf.x sf.y].
  assert (EA : (B32.val (maxAmplitudeRad (ops := b32_ops))
                == 12883977 # 33554432)%Q) by (vm_compute; reflexivity).
  assert (FA : B32.finite (maxAmplitudeRad (ops := b32_ops)) = true)
    by (vm_compute; reflexivity).
  destruct (Hunit _ Ht) as (_ & (Fc0 & _ & Lc0 & Uc0)).
  assert (Hth : B32.in_range (- (1 # 2)) (1 # 2) theta).
  { subst theta.
    apply (@B32Facts.mul_in_range _ _ (- (1 # 2)) (1 # 2) FA Fc0);
      [rewrite EA; lra | rewrite EA; lra | B32Facts.rep | B32Facts.rep]. }
  destruct (Hunit theta (proj1 Hth)) as ((Fs & Vs & Ls & Us) & (Fc & Vc & _ & Uc)).
  pose proof (Hcos theta Hth) as Lc.
  assert (Mx : B32.in_range (- (800)) 800 (B32.mul L (B32.sinf lm theta))).
  { apply (@B32Facts.mul_in_range _ _ (- (800)) 800 FL Fs);
      [nra | nra | B32Facts.rep | B32Facts.rep]. }
  assert (My : B32.in_range 0 800 (B32.mul L (B32.cosf lm theta))).
  { apply (@B32Facts.mul_in_range _ _ 0 800 FL Fc);
      [nra | nra | B32Facts.rep | B32Facts.rep]. }
  assert (Epx : (B32.val (sf.x (pivotPoint (ops := b32_ops))) == 900)%Q)
    by (vm_compute; reflexivity).
  assert (Epy : (B32.val (sf.y (pivotPoint (ops := b32_ops))) == 50)%Q)
    by (vm_compute; reflexivity).
  assert (Er : (B32.val (BOB_RADIUS (ops := b32_ops)) == 12)%Q)
    by (vm_compute; reflexivity).
  assert (X : B32.in_range 100 1700
                (B32.add (sf.x pivotPoint) (B32.mul L (B32.sinf lm theta)))).
  { destruct Mx as (F & V & Lo & Up).
    assert (Fp : B32.finite (sf.x (pivotPoint (ops := b32_ops))) = true)
      by (vm_compute; reflexivity).
    assert (Vp : B32.valid (sf.x (pivotPoint (ops := b32_ops))) = true)
      by (vm_compute; reflexivity).
    apply (@B32Facts.add_in_range _ _ 100 1700 Fp F Vp V);
      [rewrite Epx; lra | rewrite Epx; lra | B32Facts.rep | B32Facts.rep]. }
  assert (Y : B32.in_range 50 850
                (B32.add (sf.y pivotPoint) (B32.mul L (B32.cosf lm theta)))).
  { destruct My as (F & V & Lo & Up).
    assert (Fp : B32.finite (sf.y (pivotPoint (ops := b32_ops))) = true)
      by (vm_compute; reflexivity).
    assert (Vp : B32.valid (sf.y (pivotPoint (ops := b32_ops))) = true)
      by (vm_compute; reflexivity).
    apply (@B32Facts.add_in_range _ _ 50 850 Fp F Vp V);
      [rewrite Epy; lra | rewrite Epy; lra | B32Facts.rep | B32Facts.rep]. }
  split; [exact X|]. split; [exact Y|].
  destruct X as (_ & _ & X0 & X1). destruct Y as (_ & _ & Y0 & Y1).
  unfold SCREEN_WIDTH, SCREEN_HEIGHT.
  change (inject_Z 1800) with 1800%Q. change (inject_Z 1000) with 1000%Q.
  rewrite Epy, Er. repeat split; lra.
Qed.

Lemma bobs_stay_on_screen_b32_witness :
  B32.in_range 100 1700
    (sf.x
       (sf.shapePosition
          (m_bob
             (update
                (lib := b32_lib (B32.mkLibm (fun _ => B32.round 1)
                                            (fun _ => B32.Zero false)
                                            (fun x _ => B32.mul x x)))
                (B32.round 7)
                (pendulum_at
                   (lib := b32_lib (B32.mkLibm (fun _ => B32.round 1)
                                               (fun _ => B32.Zero false)
                                               (fun x _ => B32.mul x x)))
                   3 sf.White))))).
Proof.
  assert (Hi : (0 <= 3 < NUM_PENDULUMS)%Z) by (unfold NUM_PENDULUMS; lia).
  refine (proj1 (bobs_stay_on_screen_b32
                   (B32.mkLibm (fun _ => B32.round 1)
                               (fun _ => B32.Zero false)
                               (fun x _ => B32.mul x x))
                   sf.White (B32.round 7) (fun x => eq_refl) _ _ Hi _)).
  - intros x _. cbn [B32.sinf B32.cosf].
    split; repeat split; try reflexivity; vm_compute; discriminate.
  - intros x _. cbn [B32.cosf]. vm_compute. discriminate.
  - vm_compute. reflexivity.
Defined.

(** X16: on binary32, half way through the cycle the pendulums
    alternate.  At [t = TOTAL_PERIOD_S / 2], the float 30, the argument
    [w_i * t] of the cosine is within [2^-14] of [50 + i] half turns, so
    its exact cosine is within [2^-29] of 1 for even [i] and of -1 for
    odd [i]; with a C library whose [cosf] is within [2^-23] of the exact
    cosine at that argument, the angle of pendulum [i] is within [2^-24]
    of the amplitude for even [i] and of its opposite for odd [i]. *)
Theorem half_time_alternation_b32 :
  forall (lm : B32.Libm) (i : Z) (c : sf.Color),
    (0 <= i < NUM_PENDULUMS)%Z ->
    let t := B32.div TOTAL_PERIOD_S (B32.round 2) in
    let x := B32.mul (angularFreq i) t in
    let sgn := if Z.even i then 1%Z else (-1)%Z in
    let angle := currentAngle (lib := b32_lib lm)
                   (pendulum_at (lib := b32_lib lm) i c) t in
    B32.bits t = 0x41f00000%Z /\
    (Rabs (cos (Q2R (B32.val x)) - IZR sgn) <= / 536870912)%R /\
    (cos_accurate lm (1 # 8388608) x ->
     B32.finite angle = true /\
     (Qabs (B32.val angle - inject_Z sgn * B32.val maxAmplitudeRad)
      <= 1 # 16777216)%Q).
Proof.
  intros lm i c Hi t x sgn angle.
  split; [vm_compute; reflexivity|].
  destruct (cos_at_half_period Hi) as [Fx C]. cbv zeta in C, Fx.
  change (B32.mul (angularFreq i) (B32.div (B32.round 60) (B32.round 2)))
    with x in C, Fx.
  assert (Hs : sgn = 1%Z \/ sgn = (-1)%Z)
    by (subst sgn; destruct (Z.even i); auto).
  assert (Hx : (Rabs (cos (Q2R (B32.val x)) - IZR sgn) <= / 536870912)%R).
  { subst sgn. apply Rabs_le. destruct (Z.even i); lra. }
  split; [exact Hx|]. intro Hc.
  pose proof (@angle_near_amplitude lm x sgn Hs Hc Hx) as (F & _ & L & U).
  change (B32.mul maxAmplitudeRad (B32.cosf lm x)) with angle in F, L, U.
  split; [exact F|].
  apply Qabs_Qle_condition. split; lra.
Qed.

Lemma half_time_alternation_b32_witness :
  (Qabs (B32.val
           (currentAngle
              (lib := b32_lib (B32.mkLibm (fun _ => B32.round (-1))
                                          (fun x => x) (fun x _ => x)))
              (pendulum_at
                 (lib := b32_lib (B32.mkLibm (fun _ => B32.round (-1))
                                             (fun x => x) (fun x _ => x)))
                 3 sf.White)
              (B32.div TOTAL_PERIOD_S (B32.round 2)))
         - inject_Z (-1) * B32.val maxAmplitudeRad)
   <= 1 # 16777216)%Q.
Proof.
  assert (Hi : (0 <= 3 < NUM_PENDULUMS)%Z) by (unfold NUM_PENDULUMS; lia).
  destruct (half_time_alternation_b32
              (B32.mkLibm (fun _ => B32.round (-1)) (fun x => x)
                          (fun x _ => x)) sf.White Hi) as (_ & C & H).
  apply H. split; [reflexivity|].
  cbn [B32.cosf].
  assert (E : Q2R (B32.val (B32.round (-1))) = IZR (-1))
    by (unfold Q2R; cbn; field).
  rewrite E.
  assert (E8 : Q2R (1 # 8388608) = (/ 8388608)%R)
    by (unfold Q2R; cbn; field).
  rewrite E8. rewrite Rabs_minus_sym.
  cbv zeta in C. cbn [Z.even] in C.
  eapply Rle_trans; [exact C | lra].
Defined.
